(** * KVSlib: the key-value storage table of [kvslib/KVS.c]

    A shallow embedding of the hash-chained table with reference-counted
    entries, deferred removal and a one-slot lookup cache.

    The C objects live in a store of three typed regions (table bases,
    entries, octet buffers) addressed by integers, [NULL] being [0].  Every
    function of [KVS.c] is a computation over that store; a computation
    yields no result where the C code leaves defined behaviour (it follows a
    dangling pointer, indexes outside a buffer, frees what is not allocated)
    or where a loop does not come to an end. *)

From stdpp Require Import base gmap list.

Local Open Scope Z_scope.

(** ** Platform

    [common/common.h] declares [cardinal], [word_t], [octet_t] and
    [opaque_t]; the widths of the unsigned types and the object representation
    of a pointer are those of the platform. *)

Class Platform := {
  (** number of values of the unsigned type [cardinal] *)
  cardinal_modulus : Z;
  (** number of values of the unsigned type [word_t] *)
  word_modulus : Z;
  (** the octets that make up a pointer object holding the given address *)
  pointer_octets : Z -> list Z;
  cardinal_modulus_min : 256 <= cardinal_modulus;
  word_modulus_min : 256 <= word_modulus
}.

(** Little-endian representation of a value in [n] octets. *)
Fixpoint le_octets (n : nat) (p : Z) : list Z :=
  match n with
  | O => []
  | S n' => (p mod 256) :: le_octets n' (p / 256)
  end.

(** 32-bit [cardinal] and [word_t], 64-bit little-endian pointers. *)
Definition lp64 : Platform :=
  {| cardinal_modulus := 2 ^ 32;
     word_modulus := 2 ^ 32;
     pointer_octets := le_octets 8;
     cardinal_modulus_min := ltac:(lia);
     word_modulus_min := ltac:(lia) |}.

(** 32-bit [cardinal], 16-bit [word_t], 32-bit little-endian pointers. *)
Definition ilp32_short_word : Platform :=
  {| cardinal_modulus := 2 ^ 32;
     word_modulus := 2 ^ 16;
     pointer_octets := le_octets 4;
     cardinal_modulus_min := ltac:(lia);
     word_modulus_min := ltac:(lia) |}.

(** ** Constants and status codes of [KVS.h] *)

Definition NULL : Z := 0.

Definition KVS_DEFAULT_TABLE_SIZE : Z := 20011.

Definition KVS_MAX_STRING_SIZE : Z := 64 * 1024.

Inductive kvs_status_t :=
  | KVS_STATUS_SUCCESS
  | KVS_STATUS_INVALID_TABLE
  | KVS_STATUS_INVALID_KEY
  | KVS_STATUS_INVALID_DATA
  | KVS_STATUS_INVALID_SIZE
  | KVS_STATUS_KEY_NOT_UNIQUE
  | KVS_STATUS_ALLOCATION_FAILED
  | KVS_STATUS_INVALID_ENTRY
  | KVS_STATUS_ENTRY_NOT_FOUND
  | KVS_STATUS_ENTRY_PENDING_REMOVAL
  | KVS_STATUS_SIZE_OF_ENTRY_UNKNOWN.

(** ** Data model *)

(** [struct _kvs_entry_s] *)
Record kvs_entry_s := Entry {
  key : Z;
  value : Z;
  size : Z;
  next : Z;
  ref_count : Z;
  null_terminated : bool;
  marked_for_removal : bool
}.

(** [kvs_table_s].  The struct declares [kvs_entry bucket[0]], an array
    of no element at its end, so that [sizeof(kvs_table_s)] covers no chain
    head; [bucket] holds the chain heads that the storage of the table
    base has room for after the three fields. *)
Record kvs_table_s := Table {
  last_retrieved_entry : Z;
  entry_count : Z;
  bucket_count : Z;
  bucket : list Z
}.

(** The store.  [brk] is the next address [ALLOCATE] hands out (addresses
    are never handed out twice, so a pointer to freed storage stays
    dangling); [grants] lists what the allocator will answer to the coming
    requests: [None] for a refusal, [Some slack] for storage with room
    for [slack] more elements (octets of a buffer, chain heads of a table
    base) than asked for; with no answer left it refuses.
    [status] is the caller's status variable. *)
Record world := World {
  tables : gmap Z kvs_table_s;
  entries : gmap Z kvs_entry_s;
  octets : gmap Z (list Z);
  brk : Z;
  grants : list (option nat);
  status : option kvs_status_t
}.

#[global] Instance kvs_status_t_eq_dec : EqDecision kvs_status_t.
Proof. solve_decision. Defined.

#[global] Instance kvs_entry_s_eq_dec : EqDecision kvs_entry_s.
Proof. solve_decision. Defined.

#[global] Instance kvs_table_s_eq_dec : EqDecision kvs_table_s.
Proof. solve_decision. Defined.

Definition set_key (e : kvs_entry_s) (k : Z) : kvs_entry_s :=
  Entry k (value e) (size e) (next e) (ref_count e) (null_terminated e)
    (marked_for_removal e).

Definition set_value (e : kvs_entry_s) (v : Z) : kvs_entry_s :=
  Entry (key e) v (size e) (next e) (ref_count e) (null_terminated e)
    (marked_for_removal e).

Definition set_size (e : kvs_entry_s) (s : Z) : kvs_entry_s :=
  Entry (key e) (value e) s (next e) (ref_count e) (null_terminated e)
    (marked_for_removal e).

Definition set_next (e : kvs_entry_s) (n : Z) : kvs_entry_s :=
  Entry (key e) (value e) (size e) n (ref_count e) (null_terminated e)
    (marked_for_removal e).

Definition set_ref_count (e : kvs_entry_s) (c : Z) : kvs_entry_s :=
  Entry (key e) (value e) (size e) (next e) c (null_terminated e)
    (marked_for_removal e).

Definition set_null_terminated (e : kvs_entry_s) (b : bool) : kvs_entry_s :=
  Entry (key e) (value e) (size e) (next e) (ref_count e) b
    (marked_for_removal e).

Definition set_marked_for_removal (e : kvs_entry_s) (b : bool) : kvs_entry_s :=
  Entry (key e) (value e) (size e) (next e) (ref_count e) (null_terminated e)
    b.

Definition set_last_retrieved_entry (t : kvs_table_s) (a : Z) : kvs_table_s :=
  Table a (entry_count t) (bucket_count t) (bucket t).

Definition set_entry_count (t : kvs_table_s) (c : Z) : kvs_table_s :=
  Table (last_retrieved_entry t) c (bucket_count t) (bucket t).

Definition set_bucket (t : kvs_table_s) (i : Z) (a : Z) : kvs_table_s :=
  Table (last_retrieved_entry t) (entry_count t) (bucket_count t)
    (<[Z.to_nat i := a]> (bucket t)).

Definition with_tables (w : world) (m : gmap Z kvs_table_s) : world :=
  World m (entries w) (octets w) (brk w) (grants w) (status w).

Definition with_entries (w : world) (m : gmap Z kvs_entry_s) : world :=
  World (tables w) m (octets w) (brk w) (grants w) (status w).

Definition with_octets (w : world) (m : gmap Z (list Z)) : world :=
  World (tables w) (entries w) m (brk w) (grants w) (status w).

Definition with_status (w : world) (s : option kvs_status_t) : world :=
  World (tables w) (entries w) (octets w) (brk w) (grants w) s.

(** ** Computations over the store *)

Definition M (A : Type) : Type := world -> option (A * world).

Definition ret {A} (a : A) : M A := fun w => Some (a, w).

Definition bind {A B} (m : M A) (k : A -> M B) : M B :=
  fun w => match m w with
           | Some (a, w') => k a w'
           | None => None
           end.

(** Undefined behaviour, or a loop that does not end. *)
Definition undefined {A} : M A := fun _ => None.

Notation "'let*' x ':=' m 'in' k" := (bind m (fun x => k))
  (at level 10, x name, m at level 100, k at level 200).
Notation "m ';;' k" := (bind m (fun _ => k))
  (at level 100, k at level 200, right associativity).

(** [_kvs_set_status(status, code)] with a status variable at hand. *)
Definition _kvs_set_status (code : kvs_status_t) : M unit :=
  fun w => Some (tt, with_status w (Some code)).

(** Reading and writing through a pointer to a table base. *)
Definition the_table (table : Z) : M kvs_table_s :=
  fun w => match tables w !! table with
           | Some t => Some (t, w)
           | None => None
           end.

Definition write_table (table : Z) (f : kvs_table_s -> kvs_table_s) : M unit :=
  fun w => match tables w !! table with
           | Some t => Some (tt, with_tables w (<[table := f t]> (tables w)))
           | None => None
           end.

(** Reading and writing through a pointer to an entry. *)
Definition the_entry (entry : Z) : M kvs_entry_s :=
  fun w => match entries w !! entry with
           | Some e => Some (e, w)
           | None => None
           end.

Definition write_entry (entry : Z) (f : kvs_entry_s -> kvs_entry_s) : M unit :=
  fun w => match entries w !! entry with
           | Some e => Some (tt, with_entries w (<[entry := f e]> (entries w)))
           | None => None
           end.

(** [p[index]] for an octet pointer [p] to the start of a buffer. *)
Definition read_octet (p index : Z) : M Z :=
  fun w => match octets w !! p with
           | Some bs => match bs !! Z.to_nat index with
                        | Some b => Some (b, w)
                        | None => None
                        end
           | None => None
           end.

Definition write_octet (p index b : Z) : M unit :=
  fun w => match octets w !! p with
           | Some bs =>
               if decide (Z.to_nat index < length bs)%nat
               then Some (tt, with_octets w
                                (<[p := <[Z.to_nat index := b]> bs]> (octets w)))
               else None
           | None => None
           end.

(** [ALLOCATE] of [alloc.h] is [malloc].  The three functions below are the
    three uses [KVS.c] makes of it; each takes the next answer of the
    allocator.  Fresh storage holds zeroes here; its content is
    indeterminate in C and the code writes it before reading it.
    [ALLOCATE_table slots] is [ALLOCATE(sizeof(kvs_table_s) +
    sizeof(kvs_entry) * slots)]: storage for the three fields and [slots]
    chain heads. *)
Definition next_grant (w : world) : option nat * world :=
  match grants w with
  | [] => (None, w)
  | g :: gs =>
      (g, World (tables w) (entries w) (octets w) (brk w) gs (status w))
  end.

Definition ALLOCATE_table (slots : Z) : M Z :=
  fun w => match next_grant w with
           | (None, w') => Some (NULL, w')
           | (Some slack, w') =>
               Some (brk w',
                     World (<[brk w' :=
                              Table 0 0 0
                                (replicate (Z.to_nat slots + slack) 0)]>
                              (tables w'))
                       (entries w') (octets w') (brk w' + 1) (grants w')
                       (status w'))
           end.

Definition ALLOCATE_entry : M Z :=
  fun w => match next_grant w with
           | (None, w') => Some (NULL, w')
           | (Some _, w') =>
               Some (brk w',
                     World (tables w')
                       (<[brk w' := Entry 0 0 0 0 0 false false]> (entries w'))
                       (octets w') (brk w' + 1) (grants w') (status w'))
           end.

Definition ALLOCATE_octets (n : Z) : M Z :=
  fun w => match next_grant w with
           | (None, w') => Some (NULL, w')
           | (Some slack, w') =>
               Some (brk w',
                     World (tables w') (entries w')
                       (<[brk w' := replicate (Z.to_nat n + slack) 0]> (octets w'))
                       (brk w' + 1) (grants w') (status w'))
           end.

(** [DEALLOCATE] is [free]: nothing happens for [NULL], and freeing what is
    not allocated is undefined. *)
Definition DEALLOCATE_table (p : Z) : M unit :=
  fun w => if p =? NULL then Some (tt, w) else
           match tables w !! p with
           | Some _ => Some (tt, with_tables w (delete p (tables w)))
           | None => None
           end.

Definition DEALLOCATE_entry (p : Z) : M unit :=
  fun w => if p =? NULL then Some (tt, w) else
           match entries w !! p with
           | Some _ => Some (tt, with_entries w (delete p (entries w)))
           | None => None
           end.

Definition DEALLOCATE_octets (p : Z) : M unit :=
  fun w => if p =? NULL then Some (tt, w) else
           match octets w !! p with
           | Some _ => Some (tt, with_octets w (delete p (octets w)))
           | None => None
           end.

(** [this_table->bucket[index]], read and written; an index outside the
    array is undefined. *)
Definition read_bucket (table index : Z) : M Z :=
  fun w => match tables w !! table with
           | Some t => match bucket t !! Z.to_nat index with
                       | Some a => Some (a, w)
                       | None => None
                       end
           | None => None
           end.

Definition write_bucket (table index a : Z) : M unit :=
  fun w => match tables w !! table with
           | Some t =>
               if decide (Z.to_nat index < length (bucket t))%nat
               then Some (tt, with_tables w
                                (<[table := set_bucket t index a]> (tables w)))
               else None
           | None => None
           end.

(** [key % this_table->bucket_count]; the remainder by zero is undefined. *)
Definition bucket_index (k : Z) (table : Z) : M Z :=
  let* this_table := the_table table in
  if bucket_count this_table =? 0 then undefined
  else ret (k mod bucket_count this_table).

(** The loop shared by the store, find and remove functions:
    [while ((this_entry->key != key) && (this_entry->next != NULL))
         this_entry = this_entry->next;]
    It only reads, so it is a function of the entries; [fuel] bounds the
    number of entries visited. *)
Fixpoint walk (fuel : nat) (m : gmap Z kvs_entry_s) (k this_entry : Z)
  : option Z :=
  match fuel with
  | O => None
  | S fuel' =>
      match m !! this_entry with
      | Some e =>
          if negb (key e =? k) && negb (next e =? NULL)
          then walk fuel' m k (next e)
          else Some this_entry
      | None => None
      end
  end.

(** The same loop in [kvs_remove_entry], which also keeps [prev_entry]. *)
Fixpoint walk_prev (fuel : nat) (m : gmap Z kvs_entry_s)
    (k prev_entry this_entry : Z) : option (Z * Z) :=
  match fuel with
  | O => None
  | S fuel' =>
      match m !! this_entry with
      | Some e =>
          if negb (key e =? k) && negb (next e =? NULL)
          then walk_prev fuel' m k this_entry (next e)
          else Some (prev_entry, this_entry)
      | None => None
      end
  end.

(** A chain cannot be longer than the number of entries allocated. *)
Definition chain_fuel (w : world) : nat := S (base.size (entries w)).

Definition walk_chain (k this_entry : Z) : M Z :=
  fun w => match walk (chain_fuel w) (entries w) k this_entry with
           | Some a => Some (a, w)
           | None => None
           end.

Definition walk_chain_prev (k this_entry : Z) : M (Z * Z) :=
  fun w => match walk_prev (chain_fuel w) (entries w) k this_entry this_entry with
           | Some a => Some (a, w)
           | None => None
           end.

Section KVS.

Context `{Platform}.

(** ** Private functions of [KVS.c] *)

(** [_kvs_find_entry(table, key, status)] *)
Definition _kvs_find_entry (table k : Z) : M Z :=
  let* this_table := the_table table in
  let* cached :=
    (if last_retrieved_entry this_table =? NULL then ret false
     else let* c := the_entry (last_retrieved_entry this_table) in
          ret (k =? key c)) in
  if cached then
    _kvs_set_status KVS_STATUS_SUCCESS ;;
    ret (last_retrieved_entry this_table)
  else
    let* index := bucket_index k table in
    let* head := read_bucket table index in
    if head =? NULL then
      _kvs_set_status KVS_STATUS_ENTRY_NOT_FOUND ;;
      ret NULL
    else
      let* this_entry := walk_chain k head in
      let* e := the_entry this_entry in
      if key e =? k then
        write_table table (fun t => set_last_retrieved_entry t this_entry) ;;
        _kvs_set_status KVS_STATUS_SUCCESS ;;
        ret this_entry
      else
        _kvs_set_status KVS_STATUS_ENTRY_NOT_FOUND ;;
        ret NULL.

(** The loop of [_kvs_calc_null_terminated_data_size] over the octets that
    are left from [_data[index]] on. *)
Fixpoint scan_octets (rest : list Z) (index : Z) : option Z :=
  match rest with
  | [] => None
  | b :: rest' =>
      if b =? 0 then Some index
      else if index <? KVS_MAX_STRING_SIZE
           then scan_octets rest' ((index + 1) mod cardinal_modulus)
           else Some 0
  end.

(** [_kvs_calc_null_terminated_data_size(data)].  [_data] is
    [(octet_t * ) &data]: it points at the parameter [data] itself, so the
    octets scanned are those of the pointer object, and reading past them
    is undefined. *)
Definition _kvs_calc_null_terminated_data_size (data : Z) : M Z :=
  fun w => match scan_octets (pointer_octets data) 0 with
           | Some n => Some (n, w)
           | None => None
           end.

(** The copy loop of [_kvs_new_entry_with_copy] and [_kvs_retrieve_copy]:
    [while (index <= size) { target[index] = source[index]; index++; }] *)
Fixpoint copy_octets (fuel : nat) (source target index siz : Z) : M unit :=
  match fuel with
  | O => undefined
  | S fuel' =>
      if index <=? siz then
        let* b := read_octet source index in
        write_octet target index b ;;
        copy_octets fuel' source target ((index + 1) mod cardinal_modulus) siz
      else ret tt
  end.

Definition copy_fuel (siz : Z) : nat := Z.to_nat siz + 2.

(** [_kvs_new_entry_with_copy(key, value, size, null_terminated, status)];
    the result is the new entry and what is passed back in [status]. *)
Definition _kvs_new_entry_with_copy (k val siz : Z) (nt : bool)
  : M (Z * kvs_status_t) :=
  let* new_entry := ALLOCATE_entry in
  if new_entry =? NULL then ret (NULL, KVS_STATUS_ALLOCATION_FAILED)
  else
    write_entry new_entry (fun e => set_key e k) ;;
    write_entry new_entry (fun e => set_size e siz) ;;
    write_entry new_entry (fun e => set_next e NULL) ;;
    write_entry new_entry (fun e => set_ref_count e 1) ;;
    write_entry new_entry (fun e => set_null_terminated e nt) ;;
    write_entry new_entry (fun e => set_marked_for_removal e false) ;;
    let* storage := ALLOCATE_octets siz in
    write_entry new_entry (fun e => set_value e storage) ;;
    if storage =? NULL then
      DEALLOCATE_entry new_entry ;;
      ret (NULL, KVS_STATUS_ALLOCATION_FAILED)
    else
      copy_octets (copy_fuel siz) val storage 0 siz ;;
      ret (new_entry, KVS_STATUS_SUCCESS).

(** [_kvs_new_entry_with_ref(key, value, size, null_terminated, status)] *)
Definition _kvs_new_entry_with_ref (k val siz : Z) (nt : bool)
  : M (Z * kvs_status_t) :=
  let* new_entry := ALLOCATE_entry in
  if new_entry =? NULL then ret (NULL, KVS_STATUS_ALLOCATION_FAILED)
  else
    write_entry new_entry (fun e => set_key e k) ;;
    write_entry new_entry (fun e => set_value e val) ;;
    write_entry new_entry (fun e => set_size e siz) ;;
    write_entry new_entry (fun e => set_next e NULL) ;;
    write_entry new_entry (fun e => set_ref_count e 1) ;;
    write_entry new_entry (fun e => set_null_terminated e nt) ;;
    write_entry new_entry (fun e => set_marked_for_removal e false) ;;
    ret (new_entry, KVS_STATUS_SUCCESS).

(** [_kvs_retrieve_copy(entry, status)].  The local [new_entry] is declared
    and never assigned, and [source] is read from [new_entry->value]; the
    indeterminate content of that local is the argument [new_entry]. *)
Definition _kvs_retrieve_copy (entry new_entry : Z) : M Z :=
  let* e := the_entry entry in
  let* new_copy := ALLOCATE_octets (size e) in
  if new_copy =? NULL then
    _kvs_set_status KVS_STATUS_ALLOCATION_FAILED ;;
    ret NULL
  else
    let* e := the_entry entry in
    let siz := size e in
    let* g := the_entry new_entry in
    let source := value g in
    copy_octets (copy_fuel siz) source new_copy 0 siz ;;
    _kvs_set_status KVS_STATUS_SUCCESS ;;
    ret new_copy.

(** [_kvs_dispose_entry(entry, status)]; [report] tells whether a status
    variable was passed. *)
Definition _kvs_dispose_entry (entry : Z) (report : bool) : M unit :=
  if entry =? NULL then
    (if report then _kvs_set_status KVS_STATUS_INVALID_ENTRY else ret tt)
  else
    let* e := the_entry entry in
    (if value e =? NULL then ret tt
     else
       DEALLOCATE_octets (value e) ;;
       (if report then _kvs_set_status KVS_STATUS_SUCCESS else ret tt)) ;;
    DEALLOCATE_entry entry.

(** ** Public functions of [KVS.c]

    Every function is modelled as called with a status variable; a call
    with [NULL] for [status] does the same to the store and passes nothing
    back. *)

(** The loop of [kvs_new_table] that sets every bucket to [NULL]:
    [for (index = 0; index < bucket_count; index++)]. *)
Fixpoint init_buckets (todo : nat) (new_table index : Z) : M unit :=
  match todo with
  | O => ret tt
  | S todo' =>
      write_bucket new_table index NULL ;;
      init_buckets todo' new_table (index + 1)
  end.

(** [kvs_new_table(size, status)].  The request is for
    [sizeof(kvs_table_s) + sizeof(kvs_entry) * (bucket_count - 1)], room
    for [bucket_count - 1] chain heads, and the loop then sets
    [bucket_count] of them: the last one is outside the storage asked
    for. *)
Definition kvs_new_table (siz : Z) : M Z :=
  let bucket_count := if siz =? 0 then KVS_DEFAULT_TABLE_SIZE else siz in
  let* new_table := ALLOCATE_table (bucket_count - 1) in
  if new_table =? NULL then
    _kvs_set_status KVS_STATUS_ALLOCATION_FAILED ;;
    ret NULL
  else
    write_table new_table (fun t => set_last_retrieved_entry t NULL) ;;
    write_table new_table (fun t => set_entry_count t 0) ;;
    write_table new_table
      (fun t => Table (last_retrieved_entry t) (entry_count t) bucket_count
                  (bucket t)) ;;
    init_buckets (Z.to_nat bucket_count) new_table 0 ;;
    _kvs_set_status KVS_STATUS_SUCCESS ;;
    ret new_table.

(** What [kvs_store_value] and [kvs_store_reference] do once the size is
    settled: find the place in the chain and link a new entry made by
    [new_entry_with]. *)
Definition store_entry (new_entry_with : M (Z * kvs_status_t))
    (table k : Z) : M unit :=
  let* index := bucket_index k table in
  let* head := read_bucket table index in
  if head =? NULL then
    let* r := new_entry_with in
    let (new_entry, _status) := r in
    if new_entry =? NULL then _kvs_set_status _status
    else
      write_bucket table index new_entry ;;
      write_table table
        (fun t => set_entry_count t ((entry_count t + 1) mod cardinal_modulus)) ;;
      _kvs_set_status KVS_STATUS_SUCCESS
  else
    let* this_entry := walk_chain k head in
    let* e := the_entry this_entry in
    if negb (key e =? k) then
      let* r := new_entry_with in
      let (new_entry, _status) := r in
      if new_entry =? NULL then _kvs_set_status _status
      else
        write_entry this_entry (fun e => set_next e new_entry) ;;
        write_table table
          (fun t => set_entry_count t ((entry_count t + 1) mod cardinal_modulus)) ;;
        _kvs_set_status KVS_STATUS_SUCCESS
    else
      _kvs_set_status KVS_STATUS_KEY_NOT_UNIQUE.

(** [kvs_store_value(table, key, value, size, null_terminated, status)] *)
Definition kvs_store_value (table k val siz : Z) (nt : bool) : M unit :=
  if table =? NULL then _kvs_set_status KVS_STATUS_INVALID_TABLE
  else if k =? 0 then _kvs_set_status KVS_STATUS_INVALID_KEY
  else if val =? NULL then _kvs_set_status KVS_STATUS_INVALID_DATA
  else if (siz =? 0) && negb nt then _kvs_set_status KVS_STATUS_INVALID_SIZE
  else
    let* siz :=
      (if siz =? 0 then
         if nt then _kvs_calc_null_terminated_data_size val
         else ret 0
       else ret siz) in
    if siz =? 0 then _kvs_set_status KVS_STATUS_INVALID_SIZE
    else store_entry (_kvs_new_entry_with_copy k val siz nt) table k.

(** [kvs_store_reference(table, key, value, size, null_terminated, status)] *)
Definition kvs_store_reference (table k val siz : Z) (nt : bool) : M unit :=
  if table =? NULL then _kvs_set_status KVS_STATUS_INVALID_TABLE
  else if k =? 0 then _kvs_set_status KVS_STATUS_INVALID_KEY
  else if val =? NULL then _kvs_set_status KVS_STATUS_INVALID_DATA
  else if (siz =? 0) && negb nt then _kvs_set_status KVS_STATUS_INVALID_SIZE
  else
    let* siz :=
      (if (siz =? 0) && nt then _kvs_calc_null_terminated_data_size val
       else ret siz) in
    if siz =? 0 then _kvs_set_status KVS_STATUS_INVALID_SIZE
    else store_entry (_kvs_new_entry_with_ref k val siz nt) table k.

(** [kvs_entry_exists(table, key, status)] *)
Definition kvs_entry_exists (table k : Z) : M bool :=
  if table =? NULL then
    _kvs_set_status KVS_STATUS_INVALID_TABLE ;;
    ret false
  else
    let* this_entry := _kvs_find_entry table k in
    if this_entry =? NULL then ret false
    else
      let* e := the_entry this_entry in
      if marked_for_removal e then
        _kvs_set_status KVS_STATUS_ENTRY_PENDING_REMOVAL ;;
        ret false
      else ret true.

(** [kvs_get_entry(table, copy, key, size, null_terminated, status)].  The
    result is the pointer returned together with what is passed back in
    [size] and [null_terminated] ([None] where nothing is written).
    [new_entry] is the uninitialised local of [_kvs_retrieve_copy]. *)
Definition kvs_get_entry (table : Z) (copy : bool) (k new_entry : Z)
  : M (Z * option Z * option bool) :=
  if table =? NULL then
    _kvs_set_status KVS_STATUS_INVALID_TABLE ;;
    ret (NULL, None, None)
  else
    let* this_entry := _kvs_find_entry table k in
    if negb (this_entry =? NULL) then
      let* e := the_entry this_entry in
      if marked_for_removal e then
        _kvs_set_status KVS_STATUS_ENTRY_PENDING_REMOVAL ;;
        ret (NULL, None, None)
      else if copy then
        if size e =? 0 then
          _kvs_set_status KVS_STATUS_SIZE_OF_ENTRY_UNKNOWN ;;
          ret (NULL, None, None)
        else
          let* new_copy := _kvs_retrieve_copy this_entry new_entry in
          ret (new_copy, Some (size e), Some (null_terminated e))
      else
        write_entry this_entry
          (fun e => set_ref_count e ((ref_count e + 1) mod word_modulus)) ;;
        _kvs_set_status KVS_STATUS_SUCCESS ;;
        ret (value e, Some (size e), Some (null_terminated e))
    else
      _kvs_set_status KVS_STATUS_ENTRY_NOT_FOUND ;;
      ret (NULL, None, None).

(** [kvs_value_for_key(table, key, status)]; [new_entry] as above. *)
Definition kvs_value_for_key (table k new_entry : Z) : M Z :=
  if table =? NULL then
    _kvs_set_status KVS_STATUS_INVALID_TABLE ;;
    ret NULL
  else
    let* this_entry := _kvs_find_entry table k in
    if negb (this_entry =? NULL) then
      let* e := the_entry this_entry in
      if marked_for_removal e then
        _kvs_set_status KVS_STATUS_ENTRY_PENDING_REMOVAL ;;
        ret NULL
      else if size e =? 0 then
        _kvs_set_status KVS_STATUS_SIZE_OF_ENTRY_UNKNOWN ;;
        ret NULL
      else _kvs_retrieve_copy this_entry new_entry
    else
      _kvs_set_status KVS_STATUS_ENTRY_NOT_FOUND ;;
      ret NULL.

(** [kvs_reference_for_key(table, key, status)] *)
Definition kvs_reference_for_key (table k : Z) : M Z :=
  if table =? NULL then
    _kvs_set_status KVS_STATUS_INVALID_TABLE ;;
    ret NULL
  else
    let* this_entry := _kvs_find_entry table k in
    if negb (this_entry =? NULL) then
      let* e := the_entry this_entry in
      if marked_for_removal e then
        _kvs_set_status KVS_STATUS_ENTRY_PENDING_REMOVAL ;;
        ret NULL
      else
        write_entry this_entry
          (fun e => set_ref_count e ((ref_count e + 1) mod word_modulus)) ;;
        _kvs_set_status KVS_STATUS_SUCCESS ;;
        ret (value e)
    else
      _kvs_set_status KVS_STATUS_ENTRY_NOT_FOUND ;;
      ret NULL.

(** [kvs_size_for_key(table, key, status)] *)
Definition kvs_size_for_key (table k : Z) : M Z :=
  if table =? NULL then
    _kvs_set_status KVS_STATUS_INVALID_TABLE ;;
    ret 0
  else
    let* this_entry := _kvs_find_entry table k in
    if negb (this_entry =? NULL) then
      let* e := the_entry this_entry in
      ret (size e)
    else ret 0.

(** [kvs_data_for_key_is_null_terminated(table, key, status)] *)
Definition kvs_data_for_key_is_null_terminated (table k : Z) : M bool :=
  if table =? NULL then
    _kvs_set_status KVS_STATUS_INVALID_TABLE ;;
    ret false
  else
    let* this_entry := _kvs_find_entry table k in
    if negb (this_entry =? NULL) then
      let* e := the_entry this_entry in
      ret (null_terminated e)
    else ret false.

(** [kvs_reference_count_for_key(table, key, status)]; the count, of type
    [word_t], is returned as a [cardinal]. *)
Definition kvs_reference_count_for_key (table k : Z) : M Z :=
  if table =? NULL then
    _kvs_set_status KVS_STATUS_INVALID_TABLE ;;
    ret 0
  else
    let* this_entry := _kvs_find_entry table k in
    if negb (this_entry =? NULL) then
      let* e := the_entry this_entry in
      ret (ref_count e mod cardinal_modulus)
    else ret 0.

(** [kvs_remove_entry(table, key, status)] *)
Definition kvs_remove_entry (table k : Z) : M unit :=
  if table =? NULL then _kvs_set_status KVS_STATUS_INVALID_TABLE
  else if k =? 0 then _kvs_set_status KVS_STATUS_INVALID_KEY
  else
    let* index := bucket_index k table in
    let* head := read_bucket table index in
    if head =? NULL then _kvs_set_status KVS_STATUS_ENTRY_NOT_FOUND
    else
      let* found := walk_chain_prev k head in
      let (prev_entry, this_entry) := found in
      let* e := the_entry this_entry in
      if key e =? k then
        if ref_count e <=? 1 then
          let* this_table := the_table table in
          (if last_retrieved_entry this_table =? this_entry
           then write_table table (fun t => set_last_retrieved_entry t NULL)
           else ret tt) ;;
          let* first := read_bucket table index in
          (if first =? this_entry
           then write_bucket table index (next e)
           else write_entry prev_entry (fun p => set_next p (next e))) ;;
          _kvs_dispose_entry this_entry true ;;
          write_table table
            (fun t => set_entry_count t ((entry_count t - 1) mod cardinal_modulus))
        else
          write_entry this_entry (fun e => set_marked_for_removal e true) ;;
          _kvs_set_status KVS_STATUS_SUCCESS
      else _kvs_set_status KVS_STATUS_ENTRY_NOT_FOUND.

(** [kvs_release_entry(table, key, status)] *)
Definition kvs_release_entry (table k : Z) : M unit :=
  if table =? NULL then _kvs_set_status KVS_STATUS_INVALID_TABLE
  else
    let* this_entry := _kvs_find_entry table k in
    if negb (this_entry =? NULL) then
      let* e := the_entry this_entry in
      if 1 <? ref_count e then
        write_entry this_entry
          (fun e => set_ref_count e ((ref_count e - 1) mod word_modulus)) ;;
        let* e := the_entry this_entry in
        if (ref_count e =? 1) && marked_for_removal e
        then kvs_remove_entry table k
        else ret tt
      else ret tt
    else ret tt.

(** [kvs_number_of_buckets(table)] *)
Definition kvs_number_of_buckets (table : Z) : M Z :=
  if negb (table =? NULL) then
    let* this_table := the_table table in
    ret (bucket_count this_table)
  else ret 0.

(** [kvs_number_of_entries(table)] *)
Definition kvs_number_of_entries (table : Z) : M Z :=
  if negb (table =? NULL) then
    let* this_table := the_table table in
    ret (entry_count this_table)
  else ret 0.

(** The inner loop of [kvs_dispose_table]:
    [while (this_entry != NULL) { prev_entry = this_entry;
       this_entry = this_entry->next; _kvs_dispose_entry(prev_entry, NULL); }] *)
Fixpoint dispose_chain (fuel : nat) (this_entry : Z) : M unit :=
  match fuel with
  | O => undefined
  | S fuel' =>
      if negb (this_entry =? NULL) then
        let prev_entry := this_entry in
        let* e := the_entry this_entry in
        let this_entry := next e in
        _kvs_dispose_entry prev_entry false ;;
        dispose_chain fuel' this_entry
      else ret tt
  end.

(** The outer loop of [kvs_dispose_table]:
    [for (index = 0; index < this_table->entry_count; index++)]; [fuel]
    bounds the number of its rounds. *)
Fixpoint dispose_buckets (fuel : nat) (table index : Z) : M unit :=
  match fuel with
  | O => undefined
  | S fuel' =>
      let* this_table := the_table table in
      if index <? entry_count this_table then
        let* this_entry := read_bucket table index in
        (fun w => dispose_chain (chain_fuel w) this_entry w) ;;
        write_bucket table index NULL ;;
        dispose_buckets fuel' table ((index + 1) mod cardinal_modulus)
      else ret tt
  end.

(** [kvs_dispose_table(table, status)] *)
Definition kvs_dispose_table (table : Z) : M unit :=
  if table =? NULL then _kvs_set_status KVS_STATUS_INVALID_TABLE
  else
    let* this_table := the_table table in
    (if negb (entry_count this_table =? 0)
     then dispose_buckets (S (Z.to_nat (entry_count this_table))) table 0
     else ret tt) ;;
    DEALLOCATE_table table ;;
    _kvs_set_status KVS_STATUS_SUCCESS.

End KVS.

(** * The vocabulary of the properties *)

(** * Chains

    [is_seg m a l b]: following [next] from the pointer [a] visits exactly
    the entries [l], and the [next] of the last one is [b]. *)
Fixpoint is_seg (m : gmap Z kvs_entry_s) (a : Z) (l : list Z) (b : Z) : Prop :=
  match l with
  | [] => a = b
  | x :: l' =>
      a = x ∧ x ≠ NULL ∧ ∃ e, m !! x = Some e ∧ is_seg m (next e) l' b
  end.

(** A bucket's chain: a segment that ends in [NULL]. *)
Definition is_chain (m : gmap Z kvs_entry_s) (a : Z) (l : list Z) : Prop :=
  is_seg m a l NULL.

(** [x] is linked into the chain of some bucket. *)
Definition linked (cs : list (list Z)) (x : Z) : Prop :=
  ∃ i l, cs !! i = Some l ∧ x ∈ l.

(** No entry of [l] has key [k]. *)
Definition key_absent (m : gmap Z kvs_entry_s) (k : Z) (l : list Z) : Prop :=
  ∀ x e, x ∈ l → m !! x = Some e → key e ≠ k.

(** * Well-formed tables

    [wf w table t cs]: [table] points at the table base [t], whose
    storage has room for its [bucket_count] chain heads and whose bucket
    [i], for [i] below [bucket_count], heads the chain [cs !! i]; every
    linked entry sits in the bucket of its key, keys are not zero and not
    repeated, and the lookup cache is empty or points at a linked
    entry. *)
Record wf (w : world) (table : Z) (t : kvs_table_s) (cs : list (list Z))
  : Prop := {
  wf_handle : table ≠ NULL;
  wf_table : tables w !! table = Some t;
  wf_bucket_count : 0 < bucket_count t;
  wf_length : bucket_count t <= Z.of_nat (length (bucket t));
  wf_chains :
    Forall2 (is_chain (entries w))
      (take (Z.to_nat (bucket_count t)) (bucket t)) cs;
  wf_nodup : Forall NoDup cs;
  wf_place : ∀ i l x e,
    cs !! i = Some l → x ∈ l → entries w !! x = Some e →
    key e ≠ 0 ∧ key e mod bucket_count t = Z.of_nat i;
  wf_unique : ∀ x y ex ey,
    linked cs x → linked cs y →
    entries w !! x = Some ex → entries w !! y = Some ey →
    key ex = key ey → x = y;
  wf_cache :
    last_retrieved_entry t = NULL ∨ linked cs (last_retrieved_entry t);
  wf_brk : 0 < brk w ∧ ∀ a e, entries w !! a = Some e → a < brk w
}.

(** No linked entry has key [k]. *)
Definition unused_key (w : world) (cs : list (list Z)) (k : Z) : Prop :=
  ∀ x e, linked cs x → entries w !! x = Some e → key e ≠ k.

(** [x] is the linked entry [e] with key [k]. *)
Definition entry_of (w : world) (cs : list (list Z)) (k x : Z)
    (e : kvs_entry_s) : Prop :=
  linked cs x ∧ entries w !! x = Some e ∧ key e = k.

(** The store after a lookup that found [x]: [x] is in the cache. *)
Definition found_world (w : world) (table : Z) (t : kvs_table_s) (x : Z)
  : world :=
  World (<[table := set_last_retrieved_entry t x]> (tables w))
    (entries w) (octets w) (brk w) (grants w) (Some KVS_STATUS_SUCCESS).

(** The store after a by-reference retrieval of the entry [e] at [x]. *)
Definition referenced_world `{Platform} (w : world) (table : Z)
    (t : kvs_table_s) (x : Z) (e : kvs_entry_s) : world :=
  World (<[table := set_last_retrieved_entry t x]> (tables w))
    (<[x := set_ref_count e ((ref_count e + 1) mod word_modulus)]> (entries w))
    (octets w) (brk w) (grants w) (Some KVS_STATUS_SUCCESS).

(** The answer of the allocator to the next request, and the store once
    the answer is taken. *)
Definition granted (w : world) : option nat :=
  match grants w with
  | [] => None
  | g :: _ => g
  end.

Definition after_grant (w : world) : world :=
  World (tables w) (entries w) (octets w) (brk w) (tail (grants w)) (status w).

(** The entry a store function makes. *)
Definition new_entry_value (k val siz : Z) (nt : bool) : kvs_entry_s :=
  Entry k val siz NULL 1 nt false.

(** The store after both requests of [_kvs_new_entry_with_copy] when the
    second one is refused. *)
Definition refused_copy_world (w : world) : world :=
  World (tables w) (entries w) (octets w) (brk w + 1)
    (grants (after_grant (after_grant w))) (status w).

(** The store after the count of the entry [e] at [x] went down by one. *)
Definition released_world `{Platform} (w : world) (table : Z)
    (t : kvs_table_s) (x : Z) (e : kvs_entry_s) : world :=
  World (<[table := set_last_retrieved_entry t x]> (tables w))
    (<[x := set_ref_count e ((ref_count e - 1) mod word_modulus)]> (entries w))
    (octets w) (brk w) (grants w) (Some KVS_STATUS_SUCCESS).

(** The table [kvs_new_table] makes in storage with room for [slack]
    chain heads more than it asks for. *)
Definition new_table_value (siz : Z) (slack : nat) : kvs_table_s :=
  let bucket_count := if siz =? 0 then KVS_DEFAULT_TABLE_SIZE else siz in
  Table NULL 0 bucket_count
    (replicate (Z.to_nat (bucket_count - 1) + slack) NULL).

(** The entries reached from [a], if the chain ends within [fuel] steps. *)
Fixpoint chain_list (fuel : nat) (m : gmap Z kvs_entry_s) (a : Z)
  : option (list Z) :=
  match fuel with
  | O => None
  | S fuel' =>
      if a =? NULL then Some []
      else match m !! a with
           | Some e =>
               match chain_list fuel' m (next e) with
               | Some l => Some (a :: l)
               | None => None
               end
           | None => None
           end
  end.

Fixpoint chains_ok (fuel : nat) (m : gmap Z kvs_entry_s) (bs : list Z)
    (cs : list (list Z)) : bool :=
  match bs, cs with
  | [], [] => true
  | a :: bs', l :: cs' =>
      bool_decide (chain_list fuel m a = Some l) && chains_ok fuel m bs' cs'
  | _, _ => false
  end.

(** Every entry of chain number [i], [i + 1], ... has a key that is not
    zero and belongs to that bucket. *)
Fixpoint place_ok (m : gmap Z kvs_entry_s) (bc : Z) (i : nat)
    (cs : list (list Z)) : bool :=
  match cs with
  | [] => true
  | l :: cs' =>
      forallb (fun x => match m !! x with
                        | Some e => negb (key e =? 0)
                                    && (key e mod bc =? Z.of_nat i)
                        | None => false
                        end) l
      && place_ok m bc (S i) cs'
  end.

(** The key of the entry at [x], zero if there is none. *)
Definition key_at (m : gmap Z kvs_entry_s) (x : Z) : Z :=
  match m !! x with
  | Some e => key e
  | None => 0
  end.

Definition wf_check (w : world) (table : Z) (t : kvs_table_s)
    (cs : list (list Z)) : bool :=
  negb (table =? NULL)
  && bool_decide (tables w !! table = Some t)
  && (0 <? bucket_count t)
  && (bucket_count t <=? Z.of_nat (length (bucket t)))
  && chains_ok (chain_fuel w) (entries w)
       (take (Z.to_nat (bucket_count t)) (bucket t)) cs
  && forallb (fun l => bool_decide (NoDup l)) cs
  && place_ok (entries w) (bucket_count t) 0%nat cs
  && bool_decide (NoDup (key_at (entries w) <$> mjoin cs))
  && ((last_retrieved_entry t =? NULL)
      || bool_decide (last_retrieved_entry t ∈ mjoin cs))
  && (0 <? brk w)
  && forallb (fun ae => fst ae <? brk w) (map_to_list (entries w)).

(** A caller with three buffers, ["Hi"] at [100], ["Yo"] at [200] and
    ["Hi"] again at [256], all zero-terminated, and an allocator that
    grants every request with room for one element more than asked for
    (one octet for a buffer, one chain head for a table base). *)
Definition caller_world : world :=
  World ∅ ∅
    {[ 100 := [72; 105; 0]; 200 := [89; 111; 0]; 256 := [72; 105; 0] ]}
    1000 (replicate 16 (Some 1%nat)) None.

(** The store and what a computation returned, or [None]. *)
Definition outcome {A} (r : option (A * world)) : option A :=
  match r with
  | Some (a, _) => Some a
  | None => None
  end.

Definition final {A} (r : option (A * world)) : option world :=
  match r with
  | Some (_, w) => Some w
  | None => None
  end.

(** The store after [m], or the caller's store where [m] is undefined. *)
Definition after {A} (m : M A) (w : world) : world :=
  match m w with
  | Some (_, w') => w'
  | None => w
  end.

(** A table of four buckets at [1000] with key [7] stored by reference to
    the buffer at [100]; the entry is at [1001]. *)
Definition one_reference_world : world :=
  Eval vm_compute in
    after
      (let* table := kvs_new_table 4 in
       kvs_store_reference (H := lp64) table 7 100 2 false) caller_world.

Definition one_reference_table : kvs_table_s := Table 0 1 4 [0; 0; 0; 1001].

(** What the functions do when called with the key zero. *)
Definition zero_key_outcomes `{Platform} (w : world) (table : Z) : Prop :=
  let not_found := with_status w (Some KVS_STATUS_ENTRY_NOT_FOUND) in
  let invalid := with_status w (Some KVS_STATUS_INVALID_KEY) in
  kvs_entry_exists table 0 w = Some (false, not_found) ∧
  (∀ copy g,
     kvs_get_entry table copy 0 g w = Some ((NULL, None, None), not_found)) ∧
  (∀ g, kvs_value_for_key table 0 g w = Some (NULL, not_found)) ∧
  kvs_reference_for_key table 0 w = Some (NULL, not_found) ∧
  kvs_size_for_key table 0 w = Some (0, not_found) ∧
  kvs_data_for_key_is_null_terminated table 0 w = Some (false, not_found) ∧
  kvs_reference_count_for_key table 0 w = Some (0, not_found) ∧
  kvs_release_entry table 0 w = Some (tt, not_found) ∧
  (∀ val siz nt, kvs_store_value table 0 val siz nt w = Some (tt, invalid)) ∧
  (∀ val siz nt,
     kvs_store_reference table 0 val siz nt w = Some (tt, invalid)) ∧
  kvs_remove_entry table 0 w = Some (tt, invalid).

(** The size a store function settles on: the one passed, or for [0] with
    [null_terminated] the one counted, and never [0]. *)
Definition settled_size `{Platform} (val siz : Z) (nt : bool) (n : Z) : Prop :=
  n ≠ 0 ∧
  ((siz ≠ 0 ∧ n = siz) ∨
   (siz = 0 ∧ nt = true ∧ scan_octets (pointer_octets val) 0 = Some n)).

(** What [_kvs_new_entry_with_copy] and [_kvs_new_entry_with_ref] have in
    common: they leave the tables and the allocated entries alone, and what
    they return is [NULL] or a new entry for the key, with count one, not
    marked, and no successor. *)
Definition makes_entry (new_entry_with : M (Z * kvs_status_t)) (w : world)
    (k : Z) : Prop :=
  ∀ n st w1, new_entry_with w = Some ((n, st), w1) →
    tables w1 = tables w ∧
    ((n = NULL ∧ entries w1 = entries w ∧ brk w <= brk w1)
     ∨ (n = brk w ∧ brk w < brk w1 ∧
        ∃ val siz nt,
          entries w1 = <[brk w := new_entry_value k val siz nt]> (entries w))).

(** The table of four buckets at [1000], still empty. *)
Definition new_table_world : world :=
  Eval vm_compute in after (kvs_new_table 4) caller_world.

(** The claim that a successful [kvs_reference_for_key] leaves the
    reference count of a live entry as it was. *)
Definition reference_for_key_keeps_count `{Platform} : Prop :=
  ∀ w table t cs k x e p w',
    wf w table t cs → entry_of w cs k x e → marked_for_removal e = false →
    kvs_reference_for_key table k w = Some (p, w') →
    status w' = Some KVS_STATUS_SUCCESS →
    ∃ e', entries w' !! x = Some e' ∧ ref_count e' = ref_count e.

(** A table of one bucket at [1000] with the keys [1] and [2] stored by
    value; the entries are at [1001] and [1003]. *)
Definition one_bucket_world : world :=
  Eval vm_compute in
    after
      (let* table := kvs_new_table 1 in
       kvs_store_value (H := lp64) table 1 100 2 false ;;
       kvs_store_value (H := lp64) table 2 200 2 false) caller_world.

(** The size as the specification words it: the index of the first zero
    octet of the payload, looked for within the maximum scan length
    ([None] where there is none).  This is the specification's side of the
    comparison with [_kvs_calc_null_terminated_data_size]; it embeds no
    code. *)
Fixpoint payload_terminator (payload : list Z) (index : Z) : option Z :=
  match payload with
  | [] => None
  | b :: rest =>
      if b =? 0 then Some index
      else if index <? KVS_MAX_STRING_SIZE
           then payload_terminator rest (index + 1)
           else None
  end.

(** The call returned [a] and reported a failed allocation, with the
    tables [tb] and with the entries and buffers of [w]. *)
Definition failed_leaving {A} (r : option (A * world)) (a : A)
    (tb : gmap Z kvs_table_s) (w : world) : Prop :=
  ∃ w', r = Some (a, w') ∧
        status w' = Some KVS_STATUS_ALLOCATION_FAILED ∧
        tables w' = tb ∧ entries w' = entries w ∧ octets w' = octets w.

(** The claim that a by-copy retrieval whose allocation fails leaves the
    table, lookup cache included, as it was. *)
Definition failed_copy_keeps_table `{Platform} : Prop :=
  ∀ w table t cs k x e g,
    wf w table t cs → entry_of w cs k x e →
    marked_for_removal e = false → size e ≠ 0 → granted w = None →
    failed_leaving (kvs_value_for_key table k g w) NULL (tables w) w.

(** The store [w] with an allocator that refuses every request. *)
Definition exhausted (w : world) : world :=
  World (tables w) (entries w) (octets w) (brk w) [] (status w).


(** The store [w] with an allocator that grants one request and refuses
    the next. *)
Definition nearly_exhausted (w : world) : world :=
  World (tables w) (entries w) (octets w) (brk w) [Some 1%nat] (status w).

(** The table with key [7] stored once and retrieved by reference twice. *)
Definition three_references_world : world :=
  Eval vm_compute in
    after
      (kvs_reference_for_key (H := lp64) 1000 7 ;;
       kvs_reference_for_key (H := lp64) 1000 7) one_reference_world.

(** The table with key [7] stored by reference to the two octets at
    [300], storage of the caller's that no request to the allocator
    returned (an array, say), and retrieved by reference twice. *)
Definition borrowed_value_world : world :=
  Eval vm_compute in
    after
      (let* table := kvs_new_table 4 in
       kvs_store_reference (H := lp64) table 7 300 2 false ;;
       kvs_reference_for_key (H := lp64) table 7 ;;
       kvs_reference_for_key (H := lp64) table 7) caller_world.

(** The claim that the removal of an entry with three references is put
    off until the second release and completes there, whatever the value
    of the entry points at. *)
Definition deferred_removal_always_completes `{Platform} : Prop :=
  ∀ w table t cs k x e,
    wf w table t cs → entry_of w cs k x e → ref_count e = 3 →
    ∃ w1 w2 w3 w4 w5 w6,
      kvs_remove_entry table k w = Some (tt, w1) ∧
      kvs_entry_exists table k w1 = Some (false, w2) ∧
      kvs_size_for_key table k w2 = Some (size e, w3) ∧
      kvs_release_entry table k w3 = Some (tt, w4) ∧
      kvs_release_entry table k w4 = Some (tt, w5) ∧
      kvs_size_for_key table k w5 = Some (0, w6).

(** The calls a caller can make on a table it has not disposed of. *)
Inductive call :=
  | store_value (k val siz : Z) (nt : bool)
  | store_reference (k val siz : Z) (nt : bool)
  | entry_exists (k : Z)
  | get_entry (copy : bool) (k new_entry : Z)
  | value_for_key (k new_entry : Z)
  | reference_for_key (k : Z)
  | size_for_key (k : Z)
  | data_for_key_is_null_terminated (k : Z)
  | reference_count_for_key (k : Z)
  | release_entry (k : Z)
  | remove_entry (k : Z)
  | number_of_buckets
  | number_of_entries.

Definition perform `{Platform} (table : Z) (c : call) : M unit :=
  match c with
  | store_value k val siz nt => kvs_store_value table k val siz nt
  | store_reference k val siz nt => kvs_store_reference table k val siz nt
  | entry_exists k => kvs_entry_exists table k ;; ret tt
  | get_entry copy k new_entry =>
      kvs_get_entry table copy k new_entry ;; ret tt
  | value_for_key k new_entry => kvs_value_for_key table k new_entry ;; ret tt
  | reference_for_key k => kvs_reference_for_key table k ;; ret tt
  | size_for_key k => kvs_size_for_key table k ;; ret tt
  | data_for_key_is_null_terminated k =>
      kvs_data_for_key_is_null_terminated table k ;; ret tt
  | reference_count_for_key k => kvs_reference_count_for_key table k ;; ret tt
  | release_entry k => kvs_release_entry table k
  | remove_entry k => kvs_remove_entry table k
  | number_of_buckets => kvs_number_of_buckets table ;; ret tt
  | number_of_entries => kvs_number_of_entries table ;; ret tt
  end.

(** The stores reached by calls that [allowed] admits from a table that a
    call of [kvs_new_table] returned, with a caller that in between does
    what it likes to its buffers, to the allocator and to its status
    variable. *)
Inductive reachable `{Platform} (allowed : world → call → Prop) (table : Z)
  : world → Prop :=
  | reachable_new w0 siz w :
      0 < brk w0 → (∀ a e, entries w0 !! a = Some e → a < brk w0) →
      0 <= siz → table ≠ NULL →
      kvs_new_table siz w0 = Some (table, w) →
      reachable allowed table w
  | reachable_call w c w' :
      reachable allowed table w → allowed w c →
      perform table c w = Some (tt, w') →
      reachable allowed table w'
  | reachable_caller w w' :
      reachable allowed table w →
      tables w' = tables w → entries w' = entries w → brk w <= brk w' →
      reachable allowed table w'.

(** Any call. *)
Definition any_call (w : world) (c : call) : Prop := True.

(** A retrieval by reference is made only where the count of the entry
    can still go up within [word_t]. *)
Definition count_has_room `{Platform} (w : world) (c : call) : Prop :=
  match c with
  | reference_for_key k | get_entry false k _ =>
      ∀ x e, entries w !! x = Some e → key e = k →
             ref_count e + 1 < word_modulus
  | _ => True
  end.

(** Every linked entry has a count of at least one, and of at least two
    while it is marked for removal. *)
Definition counted `{Platform} (w : world) (cs : list (list Z)) : Prop :=
  ∀ x e, linked cs x → entries w !! x = Some e →
    1 <= ref_count e < word_modulus ∧
    (marked_for_removal e = true → 2 <= ref_count e).

Definition floor_invariant `{Platform} (table : Z) (w : world) : Prop :=
  ∃ t cs, wf w table t cs ∧ counted w cs.

(** [referenced_times table k n w w']: [n] calls of
    [kvs_reference_for_key(table, k)] in a row, each of which returns,
    take the store [w] to [w']. *)
Inductive referenced_times `{Platform} (table k : Z)
  : Z → world → world → Prop :=
  | referenced_none w : referenced_times table k 0 w w
  | referenced_again n w w1 p w2 :
      0 <= n → referenced_times table k n w w1 →
      kvs_reference_for_key table k w1 = Some (p, w2) →
      referenced_times table k (n + 1) w w2.

(** ** Vocabulary of the further properties *)

(** What the functions do when called with [NULL] for the table. *)
Definition null_table_outcomes `{Platform} (w : world) : Prop :=
  let invalid := with_status w (Some KVS_STATUS_INVALID_TABLE) in
  (∀ k val siz nt, kvs_store_value NULL k val siz nt w = Some (tt, invalid)) ∧
  (∀ k val siz nt,
     kvs_store_reference NULL k val siz nt w = Some (tt, invalid)) ∧
  (∀ k, kvs_entry_exists NULL k w = Some (false, invalid)) ∧
  (∀ copy k g,
     kvs_get_entry NULL copy k g w = Some ((NULL, None, None), invalid)) ∧
  (∀ k g, kvs_value_for_key NULL k g w = Some (NULL, invalid)) ∧
  (∀ k, kvs_reference_for_key NULL k w = Some (NULL, invalid)) ∧
  (∀ k, kvs_size_for_key NULL k w = Some (0, invalid)) ∧
  (∀ k, kvs_data_for_key_is_null_terminated NULL k w
        = Some (false, invalid)) ∧
  (∀ k, kvs_reference_count_for_key NULL k w = Some (0, invalid)) ∧
  (∀ k, kvs_release_entry NULL k w = Some (tt, invalid)) ∧
  (∀ k, kvs_remove_entry NULL k w = Some (tt, invalid)) ∧
  kvs_number_of_buckets NULL w = Some (0, w) ∧
  kvs_number_of_entries NULL w = Some (0, w) ∧
  kvs_dispose_table NULL w = Some (tt, invalid).

(** What the lookups do for a key that has no entry. *)
Definition missing_key_outcomes `{Platform} (w : world) (table k : Z) : Prop :=
  let not_found := with_status w (Some KVS_STATUS_ENTRY_NOT_FOUND) in
  kvs_entry_exists table k w = Some (false, not_found) ∧
  (∀ copy g,
     kvs_get_entry table copy k g w = Some ((NULL, None, None), not_found)) ∧
  (∀ g, kvs_value_for_key table k g w = Some (NULL, not_found)) ∧
  kvs_reference_for_key table k w = Some (NULL, not_found) ∧
  kvs_size_for_key table k w = Some (0, not_found) ∧
  kvs_data_for_key_is_null_terminated table k w = Some (false, not_found) ∧
  kvs_reference_count_for_key table k w = Some (0, not_found) ∧
  kvs_release_entry table k w = Some (tt, not_found) ∧
  (k ≠ 0 → kvs_remove_entry table k w = Some (tt, not_found)).

(** What the functions do for the key of the entry [e] at [x] while it is
    pending removal: the retrievals are turned down, the three functions
    that read a field still answer. *)
Definition pending_removal_outcomes `{Platform} (w : world) (table : Z)
    (t : kvs_table_s) (k x : Z) (e : kvs_entry_s) : Prop :=
  let found := found_world w table t x in
  let pending := with_status found (Some KVS_STATUS_ENTRY_PENDING_REMOVAL) in
  kvs_entry_exists table k w = Some (false, pending) ∧
  (∀ copy g,
     kvs_get_entry table copy k g w = Some ((NULL, None, None), pending)) ∧
  (∀ g, kvs_value_for_key table k g w = Some (NULL, pending)) ∧
  kvs_reference_for_key table k w = Some (NULL, pending) ∧
  kvs_size_for_key table k w = Some (size e, found) ∧
  kvs_data_for_key_is_null_terminated table k w
    = Some (null_terminated e, found) ∧
  kvs_reference_count_for_key table k w
    = Some (ref_count e mod cardinal_modulus, found).

(** The table with key [7] retrieved twice more and then removed: its
    entry is pending removal with a count of three. *)
Definition pending_removal_world : world :=
  Eval vm_compute in
    after (kvs_remove_entry (H := lp64) 1000 7) three_references_world.

(** The store after [kvs_remove_entry] marked the entry [e] at [x]. *)
Definition marked_world (w : world) (x : Z) (e : kvs_entry_s) : world :=
  World (tables w) (<[x := set_marked_for_removal e true]> (entries w))
    (octets w) (brk w) (grants w) (Some KVS_STATUS_SUCCESS).

(** The store [w] with [c] in the lookup cache of the table [t]. *)
Definition cached_world (w : world) (table : Z) (t : kvs_table_s) (c : Z)
  : world :=
  with_tables w (<[table := set_last_retrieved_entry t c]> (tables w)).

(** What the lookups return for the key [k], the stores they leave
    behind aside. *)
Definition answers `{Platform} (w : world) (table k : Z)
  : option bool * option Z * option bool * option Z * option Z :=
  (outcome (kvs_entry_exists table k w),
   outcome (kvs_size_for_key table k w),
   outcome (kvs_data_for_key_is_null_terminated table k w),
   outcome (kvs_reference_count_for_key table k w),
   outcome (kvs_reference_for_key table k w)).

(** The fields of an entry that are set when it is made. *)
Definition same_data (e e' : kvs_entry_s) : Prop :=
  key e' = key e ∧ value e' = value e ∧ size e' = size e ∧
  null_terminated e' = null_terminated e.

(** How the entry count and the number of linked entries move together:
    both stay, both go up by one, or both go down by one. *)
Definition count_step `{Platform} (t : kvs_table_s) (cs : list (list Z))
    (t' : kvs_table_s) (cs' : list (list Z)) : Prop :=
  (entry_count t' = entry_count t ∧
   length (mjoin cs') = length (mjoin cs))
  ∨ (entry_count t' = (entry_count t + 1) mod cardinal_modulus ∧
     length (mjoin cs') = S (length (mjoin cs)))
  ∨ (entry_count t' = (entry_count t - 1) mod cardinal_modulus ∧
     S (length (mjoin cs')) = length (mjoin cs)).

(** What a call may do to the table [t] with chains [cs]: the table stays
    well formed with the same number of buckets; an entry that was linked
    is either freed and unlinked or still linked with its data as they
    were; an entry that was not linked before is new, with a value, a
    size, a count of one and no mark. *)
Definition effect `{Platform} (table : Z) (w : world) (t : kvs_table_s)
    (cs : list (list Z)) (w' : world) : Prop :=
  ∃ t' cs',
    wf w' table t' cs' ∧ bucket_count t' = bucket_count t ∧
    count_step t cs t' cs' ∧
    (∀ y ey, linked cs y → entries w !! y = Some ey →
       (entries w' !! y = None ∧ ¬ linked cs' y) ∨
       (linked cs' y ∧
        ∃ ey', entries w' !! y = Some ey' ∧ same_data ey ey')) ∧
    (∀ y, linked cs' y → ¬ linked cs y →
       ∃ ey', entries w' !! y = Some ey' ∧
              value ey' ≠ NULL ∧ size ey' ≠ 0 ∧
              ref_count ey' = 1 ∧ marked_for_removal ey' = false).

(** What the two functions that make an entry return: [NULL], with the
    tables and the entries as they were, or the address of a new entry for
    the key with the size and flag passed, a value that is not [NULL], a
    count of one, no mark and no successor. *)
Definition makes_entry_of (new_entry_with : M (Z * kvs_status_t))
    (w : world) (k siz : Z) (nt : bool) : Prop :=
  ∀ n st w1, new_entry_with w = Some ((n, st), w1) →
    tables w1 = tables w ∧
    ((n = NULL ∧ entries w1 = entries w ∧ brk w <= brk w1)
     ∨ (n = brk w ∧ brk w < brk w1 ∧
        ∃ v, v ≠ NULL ∧
          entries w1 = <[brk w := new_entry_value k v siz nt]> (entries w))).

(** The table with key [7] and, stored after it by reference to the buffer
    at [200], key [3]; the second entry is at [1002]. *)
Definition two_keys_world : world :=
  Eval vm_compute in
    after (kvs_store_reference (H := lp64) 1000 3 200 2 false)
      one_reference_world.

(** The entry count is the number of linked entries, within [cardinal],
    and every linked entry has a value and a size. *)
Definition sound `{Platform} (table : Z) (w : world) : Prop :=
  ∃ t cs,
    wf w table t cs ∧
    entry_count t = Z.of_nat (length (mjoin cs)) mod cardinal_modulus ∧
    ∀ y ey, linked cs y → entries w !! y = Some ey →
      value ey ≠ NULL ∧ size ey ≠ 0.

(** The store after [kvs_dispose_table] freed the table base and nothing
    else. *)
Definition disposed_world (w : world) (table : Z) : world :=
  World (delete table (tables w)) (entries w) (octets w) (brk w) (grants w)
    (Some KVS_STATUS_SUCCESS).

(** [w'] differs from [w] in the table base at most by the content of the
    lookup cache, which is then a linked entry. *)
Definition cache_moved (w : world) (table : Z) (t : kvs_table_s)
    (cs : list (list Z)) (w' : world) : Prop :=
  tables w' = tables w ∨
  ∃ x, linked cs x ∧
       tables w' = <[table := set_last_retrieved_entry t x]> (tables w).

(** The table with the entry of key [7] pending removal and released once:
    its count is two. *)
Definition last_reference_world : world :=
  Eval vm_compute in
    after (kvs_release_entry (H := lp64) 1000 7) pending_removal_world.

(** * Running computations step by step *)

Lemma bind_run {A B} (m : M A) (k : A → M B) w a w' :
  m w = Some (a, w') → bind m k w = k a w'.
Proof. unfold bind. by intros ->. Qed.

(** [run H]: take the step of a computation that [H] describes. *)
Tactic Notation "run" open_constr(H) :=
  let Hr := fresh "Hrun" in
  pose proof H as Hr; cbv beta iota delta [negb];
  rewrite (bind_run _ _ _ _ _ Hr); clear Hr.

Lemma the_table_run table t w :
  tables w !! table = Some t → the_table table w = Some (t, w).
Proof. unfold the_table. by intros ->. Qed.

Lemma the_entry_run entry e w :
  entries w !! entry = Some e → the_entry entry w = Some (e, w).
Proof. unfold the_entry. by intros ->. Qed.

Lemma write_table_run table f t w :
  tables w !! table = Some t →
  write_table table f w = Some (tt, with_tables w (<[table := f t]> (tables w))).
Proof. unfold write_table. by intros ->. Qed.

Lemma write_entry_run entry f e w :
  entries w !! entry = Some e →
  write_entry entry f w =
    Some (tt, with_entries w (<[entry := f e]> (entries w))).
Proof. unfold write_entry. by intros ->. Qed.

Lemma read_bucket_run table index t a w :
  tables w !! table = Some t → bucket t !! Z.to_nat index = Some a →
  read_bucket table index w = Some (a, w).
Proof. unfold read_bucket. by intros -> ->. Qed.

Lemma write_bucket_run table index t a w :
  tables w !! table = Some t → (Z.to_nat index < length (bucket t))%nat →
  write_bucket table index a w =
    Some (tt, with_tables w (<[table := set_bucket t index a]> (tables w))).
Proof. unfold write_bucket. intros -> Hi. by rewrite decide_True. Qed.

Lemma bucket_index_run table t k w :
  tables w !! table = Some t → bucket_count t ≠ 0 →
  bucket_index k table w = Some (k mod bucket_count t, w).
Proof.
  intros Ht Hbc. unfold bucket_index.
  rewrite (bind_run _ _ _ _ _ (the_table_run _ _ _ Ht)).
  by rewrite (proj2 (Z.eqb_neq _ _) Hbc).
Qed.

Lemma walk_chain_run k a x w :
  walk (chain_fuel w) (entries w) k a = Some x →
  walk_chain k a w = Some (x, w).
Proof. unfold walk_chain. by intros ->. Qed.

Lemma walk_chain_prev_run k a r w :
  walk_prev (chain_fuel w) (entries w) k a a = Some r →
  walk_chain_prev k a w = Some (r, w).
Proof. unfold walk_chain_prev. by intros ->. Qed.

Lemma is_seg_app m a l1 l2 c :
  is_seg m a (l1 ++ l2) c ↔ ∃ b, is_seg m a l1 b ∧ is_seg m b l2 c.
Proof.
  revert a. induction l1 as [|x l1 IH]; intros a; simpl.
  - split.
    + intros Hs. exists a. done.
    + intros (b & -> & Hs). done.
  - split.
    + intros (-> & Hx & e & He & Hs). apply IH in Hs as (b & H1 & H2).
      exists b. split; [|done]. split; [done|]. split; [done|]. by exists e.
    + intros (b & (-> & Hx & e & He & H1) & H2).
      split; [done|]. split; [done|]. exists e. split; [done|].
      apply IH. by exists b.
Qed.

Lemma is_seg_elem m a l b x :
  is_seg m a l b → x ∈ l → x ≠ NULL ∧ ∃ e, m !! x = Some e.
Proof.
  revert a. induction l as [|y l IH]; intros a Hs Hx.
  - by apply elem_of_nil in Hx.
  - destruct Hs as (-> & Hy & e & He & Hs).
    apply elem_of_cons in Hx as [->|Hx]; [|by eapply IH].
    split; [done|]. by exists e.
Qed.

(** A segment only depends on the [next] fields of its own entries. *)
Lemma is_seg_frame m m' a l b :
  is_seg m a l b →
  (∀ x e, x ∈ l → m !! x = Some e → ∃ e', m' !! x = Some e' ∧ next e' = next e) →
  is_seg m' a l b.
Proof.
  revert a. induction l as [|y l IH]; intros a Hs Hf; [done|].
  destruct Hs as (-> & Hy & e & He & Hs).
  destruct (Hf y e) as (e' & He' & Hn); [by left|done|].
  split; [done|]. split; [done|]. exists e'. split; [done|].
  rewrite Hn. apply IH; [done|].
  intros x ex Hx Hex. apply Hf; [by right|done].
Qed.

Lemma is_seg_head_null m l b : is_seg m NULL l b → l = [] ∧ b = NULL.
Proof.
  destruct l as [|x l]; simpl.
  - by intros <-.
  - intros (<- & Hx & _). done.
Qed.

Lemma is_chain_nil_iff m a l : is_chain m a l → (a = NULL ↔ l = []).
Proof.
  unfold is_chain. destruct l as [|x l]; simpl.
  - intros ->. done.
  - intros (-> & Hx & _). split; [done|]. intros; discriminate.
Qed.

(** The entries of a chain are allocated and pairwise distinct, so there
    are at most as many as entries in the store. *)
Lemma chain_length_le (m : gmap Z kvs_entry_s) a l b :
  is_seg m a l b → NoDup l → (length l ≤ base.size m)%nat.
Proof.
  intros Hs Hnd.
  rewrite <- (size_dom (D:=gset Z)). unfold base.size, set_size; simpl.
  apply submseteq_length, NoDup_submseteq; [done|].
  intros x Hx. apply elem_of_elements, elem_of_dom.
  destruct (is_seg_elem _ _ _ _ _ Hs Hx) as [_ [e He]]. by exists e.
Qed.

(** ** What the loops return on a chain *)

Lemma walk_prev_spec m k l : ∀ fuel a p,
  is_seg m a l NULL → l ≠ [] → (length l ≤ fuel)%nat →
  ∃ l1 x l2 e,
    l = l1 ++ x :: l2 ∧ m !! x = Some e ∧ key_absent m k l1 ∧
    walk_prev fuel m k p a = Some (default p (last l1), x) ∧
    walk fuel m k a = Some x ∧
    (key e = k ∨ (key e ≠ k ∧ l2 = [])).
Proof.
  induction l as [|y l IH]; intros fuel a p Hs Hne Hlen; [done|].
  destruct Hs as (-> & Hy & e & He & Hs).
  destruct fuel as [|fuel]; [simpl in Hlen; lia|].
  simpl. rewrite He.
  destruct (key e =? k) eqn:Hk; simpl.
  { apply Z.eqb_eq in Hk.
    exists [], y, l, e. repeat split; try done.
    - intros x ex Hx. by apply elem_of_nil in Hx.
    - by left. }
  apply Z.eqb_neq in Hk.
  destruct (next e =? NULL) eqn:Hn; simpl.
  { apply Z.eqb_eq in Hn. rewrite Hn in Hs.
    apply is_seg_head_null in Hs as [-> _].
    exists [], y, [], e. repeat split; try done.
    - intros x ex Hx. by apply elem_of_nil in Hx.
    - by right. }
  apply Z.eqb_neq in Hn.
  assert (l ≠ []) as Hl.
  { intros ->. simpl in Hs. done. }
  simpl in Hlen.
  destruct (IH fuel (next e) y Hs Hl ltac:(lia))
    as (l1 & x & l2 & ex & -> & Hex & Habs & Hwp & Hw & Hcase).
  exists (y :: l1), x, l2, ex. repeat split; try done.
  - intros z ez Hz Hez. apply elem_of_cons in Hz as [->|Hz].
    + congruence.
    + by eapply Habs.
  - rewrite Hwp. f_equal. f_equal.
    destruct l1 as [|z l1]; [done|].
    rewrite last_cons_cons. destruct (last (z :: l1)) eqn:E; [done|].
    by apply last_None in E.
Qed.

Section Lookup.

Context `{Platform}.
Context (w : world) (table : Z) (t : kvs_table_s) (cs : list (list Z)).
Context (Hwf : wf w table t cs).

Lemma linked_allocated x : linked cs x → x ≠ NULL ∧ ∃ e, entries w !! x = Some e.
Proof.
  intros (i & l & Hl & Hx).
  destruct (Forall2_lookup_r _ _ _ _ _ (wf_chains _ _ _ _ Hwf) Hl)
    as (a & _ & Hc).
  by eapply is_seg_elem.
Qed.

(** There are as many chains as buckets. *)
Lemma chain_index i l :
  cs !! i = Some l → (i < Z.to_nat (bucket_count t))%nat.
Proof.
  intros Hl. pose proof (Forall2_length _ _ _ (wf_chains _ _ _ _ Hwf)) as Hlen.
  pose proof (wf_length _ _ _ _ Hwf) as Hroom.
  rewrite length_take_le in Hlen by lia.
  apply lookup_lt_Some in Hl. lia.
Qed.

(** The bucket index of a key is inside the bucket array. *)
Lemma bucket_of_key k :
  ∃ head l,
    bucket t !! Z.to_nat (k mod bucket_count t) = Some head ∧
    cs !! Z.to_nat (k mod bucket_count t) = Some l ∧
    is_chain (entries w) head l ∧ NoDup l.
Proof.
  pose proof (wf_bucket_count _ _ _ _ Hwf) as Hbc.
  pose proof (wf_length _ _ _ _ Hwf) as Hlen.
  pose proof (Z.mod_pos_bound k (bucket_count t) Hbc) as Hi.
  destruct (lookup_lt_is_Some_2 (bucket t) (Z.to_nat (k mod bucket_count t)))
    as [head Hh]; [lia|].
  pose proof Hh as Hh'.
  rewrite <- (lookup_take_lt _ (Z.to_nat (bucket_count t))) in Hh' by lia.
  destruct (Forall2_lookup_l _ _ _ _ _ (wf_chains _ _ _ _ Hwf) Hh')
    as (l & Hl & Hc).
  exists head, l. repeat split; try done.
  eapply Forall_lookup_1; [apply (wf_nodup _ _ _ _ Hwf)|done].
Qed.

(** An entry with key [k] can only be linked in the bucket of [k]. *)
Lemma linked_in_bucket x e l :
  linked cs x → entries w !! x = Some e →
  cs !! Z.to_nat (key e mod bucket_count t) = Some l → x ∈ l.
Proof.
  intros (i & l' & Hl' & Hx) He Hl.
  destruct (wf_place _ _ _ _ Hwf i l' x e Hl' Hx He) as [_ Hi].
  rewrite Hi, Nat2Z.id in Hl. congruence.
Qed.

Lemma chain_fuel_enough a l :
  is_chain (entries w) a l → NoDup l → (length l ≤ chain_fuel w)%nat.
Proof.
  intros Hc Hnd. unfold chain_fuel.
  pose proof (chain_length_le _ _ _ _ Hc Hnd). lia.
Qed.

(** [_kvs_find_entry] on a well-formed table: it returns the linked entry
    with the key and leaves it in the cache, or returns [NULL] and leaves
    the table as it is. *)
Lemma find_entry_spec k :
  (∃ x e, entry_of w cs k x e ∧
     _kvs_find_entry table k w =
       Some (x, World (<[table := set_last_retrieved_entry t x]> (tables w))
                  (entries w) (octets w) (brk w) (grants w)
                  (Some KVS_STATUS_SUCCESS)))
  ∨ (unused_key w cs k ∧
     _kvs_find_entry table k w =
       Some (NULL, with_status w (Some KVS_STATUS_ENTRY_NOT_FOUND))).
Proof.
  pose proof (wf_table _ _ _ _ Hwf) as Ht.
  pose proof (wf_bucket_count _ _ _ _ Hwf) as Hbc.
  unfold _kvs_find_entry.
  rewrite (bind_run _ _ _ _ _ (the_table_run _ _ _ Ht)).
  (* the cache *)
  assert (∀ (w' : world) (m : M Z),
    ((if last_retrieved_entry t =? NULL then ret false
      else let* c := the_entry (last_retrieved_entry t) in ret (k =? key c)) w
       = Some (false, w)) →
    bind (if last_retrieved_entry t =? NULL then ret false
          else let* c := the_entry (last_retrieved_entry t) in ret (k =? key c))
      (λ cached : bool, if cached then
          _kvs_set_status KVS_STATUS_SUCCESS ;; ret (last_retrieved_entry t)
        else m) w = m w) as Hmiss.
  { intros _ m Hrun. by rewrite (bind_run _ _ _ _ _ Hrun). }
  assert ((∃ c, entry_of w cs k (last_retrieved_entry t) c ∧
             (if last_retrieved_entry t =? NULL then ret false
              else let* c := the_entry (last_retrieved_entry t) in
                   ret (k =? key c)) w = Some (true, w))
          ∨ (if last_retrieved_entry t =? NULL then ret false
             else let* c := the_entry (last_retrieved_entry t) in
                  ret (k =? key c)) w = Some (false, w)) as [Hhit|Hrun].
  { destruct (last_retrieved_entry t =? NULL) eqn:Hc; [by right|].
    apply Z.eqb_neq in Hc.
    destruct (wf_cache _ _ _ _ Hwf) as [?|Hl]; [done|].
    destruct (linked_allocated _ Hl) as [_ [c Hce]].
    rewrite (bind_run _ _ _ _ _ (the_entry_run _ _ _ Hce)).
    unfold ret. destruct (k =? key c) eqn:Hk; [|by right].
    apply Z.eqb_eq in Hk. left. exists c. by repeat split. }
  { destruct Hhit as (c & Hc & Hrun). left.
    exists (last_retrieved_entry t), c. split; [done|].
    rewrite (bind_run _ _ _ _ _ Hrun). unfold bind, _kvs_set_status, ret.
    do 2 f_equal. unfold with_status. f_equal.
    rewrite insert_id; [done|]. rewrite Ht. by destruct t. }
  rewrite (Hmiss w _ Hrun). clear Hmiss Hrun.
  (* the chain *)
  rewrite (bind_run _ _ _ _ _ (bucket_index_run _ _ k _ Ht ltac:(lia))).
  destruct (bucket_of_key k) as (head & l & Hh & Hl & Hch & Hnd).
  rewrite (bind_run _ _ _ _ _ (read_bucket_run _ _ _ _ _ Ht Hh)).
  destruct (head =? NULL) eqn:Hhead.
  { apply Z.eqb_eq in Hhead. right. split; [|done].
    apply (is_chain_nil_iff _ _ _ Hch) in Hhead. subst l.
    intros x e Hx He Hk. subst k.
    pose proof (linked_in_bucket _ _ _ Hx He Hl) as Hin.
    by apply elem_of_nil in Hin. }
  apply Z.eqb_neq in Hhead.
  assert (l ≠ []) as Hne.
  { intros Hnil. by apply (is_chain_nil_iff _ _ _ Hch) in Hnil. }
  destruct (walk_prev_spec _ k _ (chain_fuel w) head head Hch Hne
              (chain_fuel_enough _ _ Hch Hnd))
    as (l1 & x & l2 & e & -> & He & Habs & _ & Hwalk & Hcase).
  rewrite (bind_run _ _ _ _ _ (walk_chain_run _ _ _ _ Hwalk)).
  rewrite (bind_run _ _ _ _ _ (the_entry_run _ _ _ He)).
  destruct Hcase as [Hk|[Hk ->]].
  - left. exists x, e. split.
    + split; [|done]. exists (Z.to_nat (k mod bucket_count t)), (l1 ++ x :: l2).
      split; [done|]. apply elem_of_app. right. by left.
    + rewrite (proj2 (Z.eqb_eq _ _) Hk).
      rewrite (bind_run _ _ _ _ _ (write_table_run _ _ _ _ Ht)). done.
  - right. rewrite (proj2 (Z.eqb_neq _ _) Hk). split; [|done].
    intros y ey Hy Hey Hky. subst k.
    pose proof (linked_in_bucket _ _ _ Hy Hey Hl) as Hin.
    apply elem_of_app in Hin as [Hin|Hin].
    + by eapply Habs.
    + apply list_elem_of_singleton in Hin. subst y. congruence.
Qed.

End Lookup.

(** Well-formedness only looks at the table base, the entries and [brk];
    and of the entries only at the [key] and [next] of the linked ones. *)
Lemma wf_update w table t cs w' t' :
  wf w table t cs →
  tables w' !! table = Some t' →
  bucket_count t' = bucket_count t →
  bucket t' = bucket t →
  (last_retrieved_entry t' = NULL ∨ linked cs (last_retrieved_entry t')) →
  (∀ x e, linked cs x → entries w !! x = Some e →
     ∃ e', entries w' !! x = Some e' ∧ next e' = next e ∧ key e' = key e) →
  (0 < brk w' ∧ ∀ a e, entries w' !! a = Some e → a < brk w') →
  wf w' table t' cs.
Proof.
  intros Hwf Ht' Hbc Hb Hcache Hent Hbrk.
  assert (∀ x e', linked cs x → entries w' !! x = Some e' →
            ∃ e, entries w !! x = Some e ∧ next e' = next e ∧ key e' = key e)
    as Hback.
  { intros x e' Hx He'.
    destruct (linked_allocated _ _ _ _ Hwf x Hx) as [_ [e He]].
    destruct (Hent x e Hx He) as (e'' & He'' & ? & ?).
    exists e. split; [done|]. by simplify_eq. }
  split; try done.
  - apply (wf_handle _ _ _ _ Hwf).
  - rewrite Hbc. apply (wf_bucket_count _ _ _ _ Hwf).
  - rewrite Hb, Hbc. apply (wf_length _ _ _ _ Hwf).
  - rewrite Hb, Hbc. pose proof (wf_chains _ _ _ _ Hwf) as Hch.
    apply Forall2_same_length_lookup. split; [by eapply Forall2_length|].
    intros i a l Ha Hl.
    pose proof (Forall2_lookup_lr _ _ _ _ _ _ Hch Ha Hl) as Hc.
    eapply is_seg_frame; [exact Hc|].
    intros x e Hx He. destruct (Hent x e) as (e' & He' & Hn & _); [|done|].
    + by exists i, l.
    + by exists e'.
  - apply (wf_nodup _ _ _ _ Hwf).
  - intros i l x e' Hl Hx He'.
    destruct (Hback x e') as (e & He & _ & Hk); [by exists i, l|done|].
    rewrite Hk, Hbc. by eapply (wf_place _ _ _ _ Hwf).
  - intros x y ex' ey' Hx Hy Hex' Hey' Hk.
    destruct (Hback x ex' Hx Hex') as (ex & Hex & _ & Hkx).
    destruct (Hback y ey' Hy Hey') as (ey & Hey & _ & Hky).
    eapply (wf_unique _ _ _ _ Hwf); try done. congruence.
Qed.

(** Setting the cache to a linked entry, whatever the status. *)
Lemma wf_cached w table t cs x s :
  wf w table t cs → linked cs x →
  wf (World (<[table := set_last_retrieved_entry t x]> (tables w))
        (entries w) (octets w) (brk w) (grants w) s)
     table (set_last_retrieved_entry t x) cs.
Proof.
  intros Hwf Hx. eapply wf_update; try done; simpl.
  - apply lookup_insert_eq.
  - by right.
  - intros y e _ He. by exists e.
  - apply (wf_brk _ _ _ _ Hwf).
Qed.

Lemma wf_with_status w table t cs s :
  wf w table t cs → wf (with_status w s) table t cs.
Proof.
  intros Hwf. eapply wf_update; try done; simpl.
  - apply (wf_table _ _ _ _ Hwf).
  - apply (wf_cache _ _ _ _ Hwf).
  - intros y e _ He. by exists e.
  - apply (wf_brk _ _ _ _ Hwf).
Qed.

(** Rewriting fields other than [key] and [next] of a linked entry. *)
Lemma wf_entry_update w table t cs x e e' tb s :
  wf w table t cs → entries w !! x = Some e →
  tb !! table = Some t →
  key e' = key e → next e' = next e →
  wf (World tb (<[x := e']> (entries w)) (octets w) (brk w) (grants w) s)
     table t cs.
Proof.
  intros Hwf He Htb Hk Hn.
  destruct (wf_brk _ _ _ _ Hwf) as [Hb0 Hb].
  eapply wf_update; try done; simpl.
  - apply (wf_cache _ _ _ _ Hwf).
  - intros y ey _ Hey. destruct (decide (x = y)) as [->|Hne].
    + rewrite lookup_insert_eq. exists e'. by simplify_eq.
    + rewrite lookup_insert_ne by done. by exists ey.
  - split; [done|]. intros a ea. destruct (decide (x = a)) as [->|Hne].
    + intros _. by eapply Hb.
    + rewrite lookup_insert_ne by done. apply Hb.
Qed.

(** * The functions on a well-formed table *)

Section Found.

Context `{Platform}.
Context (w : world) (table : Z) (t : kvs_table_s) (cs : list (list Z)).
Context (Hwf : wf w table t cs).

Lemma table_not_null : (table =? NULL) = false.
Proof. apply Z.eqb_neq, (wf_handle _ _ _ _ Hwf). Qed.

Lemma find_entry_found k x e :
  entry_of w cs k x e →
  _kvs_find_entry table k w = Some (x, found_world w table t x).
Proof.
  intros (Hx & He & Hk).
  destruct (find_entry_spec w table t cs Hwf k)
    as [(y & ey & (Hy & Hey & Hky) & Hrun)|[Hun _]].
  - assert (y = x) as ->; [|done].
    eapply (wf_unique _ _ _ _ Hwf); try done. congruence.
  - by destruct (Hun x e Hx He).
Qed.

Lemma find_entry_unused k :
  unused_key w cs k →
  _kvs_find_entry table k w =
    Some (NULL, with_status w (Some KVS_STATUS_ENTRY_NOT_FOUND)).
Proof.
  intros Hun.
  destruct (find_entry_spec w table t cs Hwf k)
    as [(y & ey & (Hy & Hey & Hky) & Hrun)|[_ Hrun]]; [|done].
  by destruct (Hun y ey Hy Hey).
Qed.

Lemma found_world_wf x : linked cs x →
  wf (found_world w table t x) table (set_last_retrieved_entry t x) cs.
Proof. intros Hx. by apply wf_cached. Qed.

Lemma entry_not_null k x e : entry_of w cs k x e → (x =? NULL) = false.
Proof.
  intros (Hx & _). apply Z.eqb_neq.
  by destruct (linked_allocated _ _ _ _ Hwf x Hx).
Qed.

Lemma found_world_entry x y e :
  entries w !! y = Some e → the_entry y (found_world w table t x)
                            = Some (e, found_world w table t x).
Proof. intros He. by apply the_entry_run. Qed.

(** The key zero is never linked. *)
Lemma zero_unused : unused_key w cs 0.
Proof.
  intros x e (i & l & Hl & Hx) He.
  by destruct (wf_place _ _ _ _ Hwf i l x e Hl Hx He).
Qed.

Lemma kvs_entry_exists_found k x e :
  entry_of w cs k x e →
  kvs_entry_exists table k w =
    Some (negb (marked_for_removal e),
          if marked_for_removal e
          then with_status (found_world w table t x)
                 (Some KVS_STATUS_ENTRY_PENDING_REMOVAL)
          else found_world w table t x).
Proof.
  intros Hx. unfold kvs_entry_exists. rewrite table_not_null.
  run (find_entry_found _ _ _ Hx).
  rewrite (entry_not_null _ _ _ Hx).
  destruct Hx as (_ & He & _).
  run (found_world_entry x _ _ He).
  by destruct (marked_for_removal e).
Qed.

Lemma kvs_entry_exists_unused k :
  unused_key w cs k →
  kvs_entry_exists table k w =
    Some (false, with_status w (Some KVS_STATUS_ENTRY_NOT_FOUND)).
Proof.
  intros Hun. unfold kvs_entry_exists. rewrite table_not_null.
  by run (find_entry_unused _ Hun).
Qed.

Lemma kvs_size_for_key_found k x e :
  entry_of w cs k x e →
  kvs_size_for_key table k w = Some (size e, found_world w table t x).
Proof.
  intros Hx. unfold kvs_size_for_key. rewrite table_not_null.
  run (find_entry_found _ _ _ Hx).
  rewrite (entry_not_null _ _ _ Hx).
  destruct Hx as (_ & He & _).
  by run (found_world_entry x _ _ He).
Qed.

Lemma kvs_size_for_key_unused k :
  unused_key w cs k →
  kvs_size_for_key table k w =
    Some (0, with_status w (Some KVS_STATUS_ENTRY_NOT_FOUND)).
Proof.
  intros Hun. unfold kvs_size_for_key. rewrite table_not_null.
  by run (find_entry_unused _ Hun).
Qed.

Lemma kvs_data_for_key_is_null_terminated_found k x e :
  entry_of w cs k x e →
  kvs_data_for_key_is_null_terminated table k w =
    Some (null_terminated e, found_world w table t x).
Proof.
  intros Hx. unfold kvs_data_for_key_is_null_terminated.
  rewrite table_not_null.
  run (find_entry_found _ _ _ Hx).
  rewrite (entry_not_null _ _ _ Hx).
  destruct Hx as (_ & He & _).
  by run (found_world_entry x _ _ He).
Qed.

Lemma kvs_data_for_key_is_null_terminated_unused k :
  unused_key w cs k →
  kvs_data_for_key_is_null_terminated table k w =
    Some (false, with_status w (Some KVS_STATUS_ENTRY_NOT_FOUND)).
Proof.
  intros Hun. unfold kvs_data_for_key_is_null_terminated.
  rewrite table_not_null.
  by run (find_entry_unused _ Hun).
Qed.

Lemma kvs_reference_count_for_key_found k x e :
  entry_of w cs k x e →
  kvs_reference_count_for_key table k w =
    Some (ref_count e mod cardinal_modulus, found_world w table t x).
Proof.
  intros Hx. unfold kvs_reference_count_for_key. rewrite table_not_null.
  run (find_entry_found _ _ _ Hx).
  rewrite (entry_not_null _ _ _ Hx).
  destruct Hx as (_ & He & _).
  by run (found_world_entry x _ _ He).
Qed.

Lemma kvs_reference_count_for_key_unused k :
  unused_key w cs k →
  kvs_reference_count_for_key table k w =
    Some (0, with_status w (Some KVS_STATUS_ENTRY_NOT_FOUND)).
Proof.
  intros Hun. unfold kvs_reference_count_for_key. rewrite table_not_null.
  by run (find_entry_unused _ Hun).
Qed.

Lemma kvs_reference_for_key_found k x e :
  entry_of w cs k x e →
  kvs_reference_for_key table k w =
    if marked_for_removal e
    then Some (NULL, with_status (found_world w table t x)
                       (Some KVS_STATUS_ENTRY_PENDING_REMOVAL))
    else Some (value e, referenced_world w table t x e).
Proof.
  intros Hx. unfold kvs_reference_for_key. rewrite table_not_null.
  run (find_entry_found _ _ _ Hx).
  rewrite (entry_not_null _ _ _ Hx).
  destruct Hx as (_ & He & _).
  run (found_world_entry x _ _ He).
  destruct (marked_for_removal e); [done|].
  by run (write_entry_run x _ e (found_world w table t x) He).
Qed.

Lemma kvs_reference_for_key_unused k :
  unused_key w cs k →
  kvs_reference_for_key table k w =
    Some (NULL, with_status w (Some KVS_STATUS_ENTRY_NOT_FOUND)).
Proof.
  intros Hun. unfold kvs_reference_for_key. rewrite table_not_null.
  by run (find_entry_unused _ Hun).
Qed.

Lemma kvs_get_entry_reference_found k g x e :
  entry_of w cs k x e →
  kvs_get_entry table false k g w =
    if marked_for_removal e
    then Some ((NULL, None, None),
               with_status (found_world w table t x)
                 (Some KVS_STATUS_ENTRY_PENDING_REMOVAL))
    else Some ((value e, Some (size e), Some (null_terminated e)),
               referenced_world w table t x e).
Proof.
  intros Hx. unfold kvs_get_entry. rewrite table_not_null.
  run (find_entry_found _ _ _ Hx).
  rewrite (entry_not_null _ _ _ Hx).
  destruct Hx as (_ & He & _).
  run (found_world_entry x _ _ He).
  destruct (marked_for_removal e); [done|].
  by run (write_entry_run x _ e (found_world w table t x) He).
Qed.

Lemma kvs_get_entry_unused copy k g :
  unused_key w cs k →
  kvs_get_entry table copy k g w =
    Some ((NULL, None, None),
          with_status w (Some KVS_STATUS_ENTRY_NOT_FOUND)).
Proof.
  intros Hun. unfold kvs_get_entry. rewrite table_not_null.
  by run (find_entry_unused _ Hun).
Qed.

Lemma kvs_value_for_key_unused k g :
  unused_key w cs k →
  kvs_value_for_key table k g w =
    Some (NULL, with_status w (Some KVS_STATUS_ENTRY_NOT_FOUND)).
Proof.
  intros Hun. unfold kvs_value_for_key. rewrite table_not_null.
  by run (find_entry_unused _ Hun).
Qed.

Lemma kvs_release_entry_unused k :
  unused_key w cs k →
  kvs_release_entry table k w =
    Some (tt, with_status w (Some KVS_STATUS_ENTRY_NOT_FOUND)).
Proof.
  intros Hun. unfold kvs_release_entry. rewrite table_not_null.
  by run (find_entry_unused _ Hun).
Qed.

Lemma referenced_world_wf k x e :
  entry_of w cs k x e →
  wf (referenced_world w table t x e) table (set_last_retrieved_entry t x) cs.
Proof.
  intros (Hx & He & _).
  pose proof (found_world_wf x Hx) as Hwf'.
  apply (wf_entry_update _ _ _ _ x e _ _ _ Hwf' He); [|done..].
  apply lookup_insert_eq.
Qed.

End Found.

(** * Allocation *)

Lemma next_grant_eq w : next_grant w = (granted w, after_grant w).
Proof.
  unfold next_grant, granted, after_grant.
  destruct w as [tb en oc b gs st]; simpl. by destruct gs.
Qed.

Lemma granted_grants w w' : grants w' = grants w → granted w' = granted w.
Proof. unfold granted. by intros ->. Qed.

Section NewEntry.

Context `{Platform}.

Lemma ALLOCATE_entry_refused w :
  granted w = None → ALLOCATE_entry w = Some (NULL, after_grant w).
Proof.
  intros Hg. unfold ALLOCATE_entry. rewrite next_grant_eq, Hg. done.
Qed.

Lemma ALLOCATE_entry_granted w s :
  granted w = Some s →
  ALLOCATE_entry w =
    Some (brk w, World (tables w)
                   (<[brk w := Entry 0 0 0 0 0 false false]> (entries w))
                   (octets w) (brk w + 1) (grants (after_grant w)) (status w)).
Proof.
  intros Hg. unfold ALLOCATE_entry. by rewrite next_grant_eq, Hg.
Qed.

Lemma ALLOCATE_octets_refused n w :
  granted w = None → ALLOCATE_octets n w = Some (NULL, after_grant w).
Proof.
  intros Hg. unfold ALLOCATE_octets. rewrite next_grant_eq, Hg. done.
Qed.

Lemma ALLOCATE_octets_granted n w s :
  granted w = Some s →
  ALLOCATE_octets n w =
    Some (brk w, World (tables w) (entries w)
                   (<[brk w := replicate (Z.to_nat n + s) 0]> (octets w))
                   (brk w + 1) (grants (after_grant w)) (status w)).
Proof.
  intros Hg. unfold ALLOCATE_octets. by rewrite next_grant_eq, Hg.
Qed.

Lemma new_entry_with_ref_refused k val siz nt w :
  granted w = None →
  _kvs_new_entry_with_ref k val siz nt w =
    Some ((NULL, KVS_STATUS_ALLOCATION_FAILED), after_grant w).
Proof.
  intros Hg. unfold _kvs_new_entry_with_ref.
  by run (ALLOCATE_entry_refused _ Hg).
Qed.

Lemma new_entry_with_ref_granted k val siz nt w s :
  granted w = Some s → brk w ≠ NULL →
  _kvs_new_entry_with_ref k val siz nt w =
    Some ((brk w, KVS_STATUS_SUCCESS),
          World (tables w)
            (<[brk w := new_entry_value k val siz nt]> (entries w))
            (octets w) (brk w + 1) (grants (after_grant w)) (status w)).
Proof.
  intros Hg Hb. unfold _kvs_new_entry_with_ref.
  run (ALLOCATE_entry_granted _ _ Hg).
  rewrite (proj2 (Z.eqb_neq _ _) Hb).
  repeat (erewrite bind_run;
          [|apply write_entry_run; simpl; apply lookup_insert_eq];
          unfold with_entries; simpl; rewrite insert_insert_eq).
  done.
Qed.

End NewEntry.

Section NewEntryCopy.

Context `{Platform}.

(** The copy loop only touches octet buffers. *)
Lemma copy_octets_frame fuel : ∀ source target index siz w w',
  copy_octets fuel source target index siz w = Some (tt, w') →
  tables w' = tables w ∧ entries w' = entries w ∧ brk w' = brk w ∧
  grants w' = grants w ∧ status w' = status w.
Proof.
  induction fuel as [|fuel IH]; intros source target index siz w w'; simpl;
    [done|].
  destruct (index <=? siz); [|by intros [= <-]].
  unfold bind at 1. unfold read_octet.
  destruct (octets w !! source) as [bs|]; [|done].
  destruct (bs !! Z.to_nat index) as [b|]; [|done].
  unfold bind at 1. unfold write_octet.
  destruct (octets w !! target) as [bt|]; [|done].
  case_decide; [|done].
  intros Hrun. apply IH in Hrun. done.
Qed.

Lemma new_entry_with_copy_refused k val siz nt w :
  granted w = None →
  _kvs_new_entry_with_copy k val siz nt w =
    Some ((NULL, KVS_STATUS_ALLOCATION_FAILED), after_grant w).
Proof.
  intros Hg. unfold _kvs_new_entry_with_copy.
  by run (ALLOCATE_entry_refused _ Hg).
Qed.

(** What [_kvs_new_entry_with_copy] does up to its second request. *)
Lemma new_entry_with_copy_unfold k val siz nt w s :
  granted w = Some s → brk w ≠ NULL →
  _kvs_new_entry_with_copy k val siz nt w =
    (let* storage := ALLOCATE_octets siz in
     write_entry (brk w) (fun e => set_value e storage) ;;
     if storage =? NULL then
       DEALLOCATE_entry (brk w) ;;
       ret (NULL, KVS_STATUS_ALLOCATION_FAILED)
     else
       copy_octets (copy_fuel siz) val storage 0 siz ;;
       ret (brk w, KVS_STATUS_SUCCESS))
      (World (tables w)
         (<[brk w := Entry k 0 siz NULL 1 nt false]> (entries w))
         (octets w) (brk w + 1) (grants (after_grant w)) (status w)).
Proof.
  intros Hg Hb. unfold _kvs_new_entry_with_copy.
  run (ALLOCATE_entry_granted _ _ Hg).
  rewrite (proj2 (Z.eqb_neq _ _) Hb).
  repeat (erewrite bind_run;
          [|apply write_entry_run; simpl; apply lookup_insert_eq];
          unfold with_entries; simpl; rewrite insert_insert_eq).
  done.
Qed.

Lemma new_entry_with_copy_refused_second k val siz nt w s :
  granted w = Some s → granted (after_grant w) = None →
  brk w ≠ NULL → entries w !! brk w = None →
  _kvs_new_entry_with_copy k val siz nt w =
    Some ((NULL, KVS_STATUS_ALLOCATION_FAILED), refused_copy_world w).
Proof.
  intros Hg Hg2 Hb Hfresh.
  rewrite (new_entry_with_copy_unfold _ _ _ _ _ _ Hg Hb).
  erewrite bind_run; [|apply ALLOCATE_octets_refused; exact Hg2].
  erewrite bind_run;
    [|apply write_entry_run; simpl; apply lookup_insert_eq].
  change (NULL =? NULL) with true. cbv iota.
  unfold bind, DEALLOCATE_entry, with_entries, after_grant; simpl.
  rewrite (proj2 (Z.eqb_neq _ _) Hb).
  rewrite lookup_insert_eq. unfold ret, refused_copy_world, after_grant.
  simpl. rewrite insert_insert_eq, delete_insert_eq, delete_id by done.
  done.
Qed.

(** Whatever [_kvs_new_entry_with_copy] returns, it leaves the tables and
    the entries that were there alone, and a new entry is as the callers
    expect it. *)
Lemma new_entry_with_copy_result k val siz nt w n st w1 :
  0 < brk w → entries w !! brk w = None →
  _kvs_new_entry_with_copy k val siz nt w = Some ((n, st), w1) →
  tables w1 = tables w ∧
  ((n = NULL ∧ entries w1 = entries w ∧ brk w ≤ brk w1)
   ∨ (n = brk w ∧ brk w < brk w1 ∧
      entries w1 = <[brk w := new_entry_value k (brk w + 1) siz nt]> (entries w))).
Proof.
  intros Hb Hfresh.
  destruct (granted w) as [s|] eqn:Hg.
  2: { rewrite (new_entry_with_copy_refused _ _ _ _ _ Hg). intros [= <- <- <-].
       simpl. split; [done|]. left. repeat split; try done; lia. }
  assert (brk w ≠ NULL) as Hnn by (unfold NULL; lia).
  destruct (granted (after_grant w)) as [s2|] eqn:Hg2.
  2: { rewrite (new_entry_with_copy_refused_second _ _ _ _ _ _ Hg Hg2 Hnn Hfresh).
       intros [= <- <- <-]. simpl. split; [done|]. left.
       repeat split; try done; lia. }
  rewrite (new_entry_with_copy_unfold _ _ _ _ _ _ Hg Hnn).
  erewrite bind_run; [|apply ALLOCATE_octets_granted; exact Hg2].
  erewrite bind_run;
    [|apply write_entry_run; simpl; apply lookup_insert_eq].
  cbn [brk]. assert (brk w + 1 ≠ NULL) as Hnn1 by (unfold NULL; lia).
  rewrite (proj2 (Z.eqb_neq _ _) Hnn1).
  unfold bind at 1.
  destruct (copy_octets _ _ _ _ _ _) as [[[] w2]|] eqn:Hcopy; [|done].
  apply copy_octets_frame in Hcopy as (Ht & He & Hbrk & _).
  unfold ret. intros [= <- <- <-]. rewrite Ht, He, Hbrk. simpl.
  split; [done|]. right. split; [done|]. split; [lia|].
  by rewrite insert_insert_eq.
Qed.

End NewEntryCopy.

(** * Changing one chain *)

Lemma linked_insert (cs : list (list Z)) i l l' x :
  cs !! i = Some l →
  linked (<[i := l']> cs) x ↔
    x ∈ l' ∨ ∃ j lj, j ≠ i ∧ cs !! j = Some lj ∧ x ∈ lj.
Proof.
  intros Hl. pose proof (lookup_lt_Some _ _ _ Hl) as Hlt. split.
  - intros (j & lj & Hj & Hx). destruct (decide (j = i)) as [->|Hne].
    + rewrite list_lookup_insert_eq in Hj by done. left. congruence.
    + rewrite list_lookup_insert_ne in Hj by done. right. by exists j, lj.
  - intros [Hx|(j & lj & Hne & Hj & Hx)].
    + exists i, l'. by rewrite list_lookup_insert_eq.
    + exists j, lj. by rewrite list_lookup_insert_ne.
Qed.

(** Replacing the head and the chain of bucket [i], in a store that agrees
    with the old one on the [next] of the entries of the other chains. *)
Lemma chains_update m m' (bs : list Z) (cs : list (list Z)) i h' l' :
  Forall2 (is_chain m) bs cs →
  (∀ j lj x e, j ≠ i → cs !! j = Some lj → x ∈ lj → m !! x = Some e →
     ∃ e', m' !! x = Some e' ∧ next e' = next e) →
  is_chain m' h' l' →
  Forall2 (is_chain m') (<[i := h']> bs) (<[i := l']> cs).
Proof.
  intros Hch Hframe Hnew.
  apply Forall2_same_length_lookup. split.
  { rewrite !length_insert. by eapply Forall2_length. }
  intros j a lj Ha Hlj.
  destruct (decide (j = i)) as [->|Hne].
  - pose proof (lookup_lt_Some _ _ _ Ha) as Hlt1.
    pose proof (lookup_lt_Some _ _ _ Hlj) as Hlt2.
    rewrite length_insert in Hlt1. rewrite length_insert in Hlt2.
    rewrite list_lookup_insert_eq in Ha by done.
    rewrite list_lookup_insert_eq in Hlj by done. by simplify_eq.
  - rewrite list_lookup_insert_ne in Ha by done.
    rewrite list_lookup_insert_ne in Hlj by done.
    pose proof (Forall2_lookup_lr _ _ _ _ _ _ Hch Ha Hlj) as Hc.
    eapply is_seg_frame; [exact Hc|].
    intros x e Hx He. by eapply Hframe.
Qed.

Lemma set_bucket_same (t : kvs_table_s) i a :
  bucket t !! Z.to_nat i = Some a → set_bucket t i a = t.
Proof.
  intros Ha. unfold set_bucket. rewrite list_insert_id by done.
  by destruct t.
Qed.

(** Linking a new entry [n] with an unused key at the end of the chain of
    its bucket. *)
Lemma wf_link w table t cs w' t' k n en idx l head' :
  wf w table t cs → unused_key w cs k → k ≠ 0 →
  idx = Z.to_nat (k mod bucket_count t) → cs !! idx = Some l →
  entries w !! n = None → key en = k →
  tables w' !! table = Some t' →
  bucket_count t' = bucket_count t →
  bucket t' = <[idx := head']> (bucket t) →
  last_retrieved_entry t' = last_retrieved_entry t →
  entries w' !! n = Some en →
  is_chain (entries w') head' (l ++ [n]) →
  (∀ x e, x ≠ n → entries w !! x = Some e →
     ∃ e', entries w' !! x = Some e' ∧ key e' = key e ∧
           (x ∉ l → next e' = next e)) →
  (0 < brk w' ∧ ∀ a e, entries w' !! a = Some e → a < brk w') →
  wf w' table t' (<[idx := l ++ [n]]> cs).
Proof.
  intros Hwf Hun Hk0 -> Hl Hfresh Hken Ht' Hbc Hb Hcache Hn Hchain Hframe Hbrk.
  pose proof (wf_bucket_count _ _ _ _ Hwf) as Hbcpos.
  assert (∀ x, linked cs x → x ≠ n) as Hold.
  { intros x Hx ->. destruct (linked_allocated _ _ _ _ Hwf n Hx) as [_ [e He]].
    congruence. }
  assert (∀ j lj x, cs !! j = Some lj → x ∈ lj → x ≠ n) as Hold'.
  { intros j lj x Hj Hx. apply Hold. by exists j, lj. }
  (* entries of the new store seen from the old one *)
  assert (∀ x e', linked cs x → entries w' !! x = Some e' →
            ∃ e, entries w !! x = Some e ∧ key e' = key e) as Hback.
  { intros x e' Hx He'.
    destruct (linked_allocated _ _ _ _ Hwf x Hx) as [_ [e He]].
    destruct (Hframe x e (Hold x Hx) He) as (e'' & He'' & Hk & _).
    exists e. split; [done|]. congruence. }
  assert (∀ x, linked (<[Z.to_nat (k mod bucket_count t) := l ++ [n]]> cs) x →
            x = n ∨ linked cs x) as Hlinked.
  { intros x Hx. apply (linked_insert _ _ _ _ _ Hl) in Hx
      as [Hx|(j & lj & _ & Hj & Hx)].
    - apply elem_of_app in Hx as [Hx|Hx].
      + right. by eexists _, l.
      + left. by apply list_elem_of_singleton in Hx.
    - right. by exists j, lj. }
  split.
  - apply (wf_handle _ _ _ _ Hwf).
  - done.
  - by rewrite Hbc.
  - rewrite Hbc, Hb, length_insert. apply (wf_length _ _ _ _ Hwf).
  - rewrite Hbc, Hb.
    rewrite take_insert_lt by (by eapply chain_index).
    eapply chains_update; [apply (wf_chains _ _ _ _ Hwf)| |done].
    intros j lj x e Hne Hj Hx He.
    destruct (Hframe x e (Hold' _ _ _ Hj Hx) He) as (e' & He' & _ & Hnext).
    exists e'. split; [done|]. apply Hnext. intros Hxl.
    destruct (wf_place _ _ _ _ Hwf j lj x e Hj Hx He) as [_ Hpj].
    destruct (wf_place _ _ _ _ Hwf _ l x e Hl Hxl He) as [_ Hpi].
    lia.
  - apply Forall_insert; [apply (wf_nodup _ _ _ _ Hwf)|].
    apply NoDup_app. split; [|split].
    + eapply Forall_lookup_1; [apply (wf_nodup _ _ _ _ Hwf)|done].
    + intros x Hx Hxn. apply list_elem_of_singleton in Hxn.
      by eapply Hold'.
    + apply NoDup_singleton.
  - intros i li x e' Hi Hx He'. rewrite Hbc.
    destruct (decide (i = Z.to_nat (k mod bucket_count t))) as [->|Hne].
    + pose proof (lookup_lt_Some _ _ _ Hl) as Hlt.
      rewrite list_lookup_insert_eq in Hi by done. injection Hi as <-.
      apply elem_of_app in Hx as [Hx|Hx].
      * destruct (Hback x e') as (e & He & ->); [by eexists _, l|done|].
        by eapply (wf_place _ _ _ _ Hwf).
      * apply list_elem_of_singleton in Hx. subst x.
        assert (e' = en) as -> by congruence. rewrite Hken.
        split; [done|].
        pose proof (Z.mod_pos_bound k (bucket_count t) Hbcpos). lia.
    + rewrite list_lookup_insert_ne in Hi by done.
      destruct (Hback x e') as (e & He & ->); [by exists i, li|done|].
      by eapply (wf_place _ _ _ _ Hwf).
  - intros x y ex' ey' Hx Hy Hex' Hey' Hkey.
    apply Hlinked in Hx as [->|Hx]; apply Hlinked in Hy as [->|Hy].
    + done.
    + destruct (Hback y ey' Hy Hey') as (ey & Hey & Hky).
      assert (ex' = en) as -> by congruence.
      destruct (Hun y ey Hy Hey). congruence.
    + destruct (Hback x ex' Hx Hex') as (ex & Hex & Hkx).
      assert (ey' = en) as -> by congruence.
      destruct (Hun x ex Hx Hex). congruence.
    + destruct (Hback x ex' Hx Hex') as (ex & Hex & Hkx).
      destruct (Hback y ey' Hy Hey') as (ey & Hey & Hky).
      eapply (wf_unique _ _ _ _ Hwf); try done. congruence.
  - rewrite Hcache. destruct (wf_cache _ _ _ _ Hwf) as [?|Hc]; [by left|].
    right. destruct Hc as (j & lj & Hj & Hx).
    apply (linked_insert _ _ _ _ _ Hl).
    destruct (decide (j = Z.to_nat (k mod bucket_count t))) as [->|Hne].
    + left. apply elem_of_app. left. congruence.
    + right. by exists j, lj.
  - done.
Qed.

(** * Storing *)

Section Store.

Context `{Platform}.
Context (w : world) (table : Z) (t : kvs_table_s) (cs : list (list Z)).
Context (Hwf : wf w table t cs).

(** A key that is in use: nothing but the status changes. *)
Lemma store_entry_used new_entry_with k x e :
  entry_of w cs k x e →
  store_entry new_entry_with table k w =
    Some (tt, with_status w (Some KVS_STATUS_KEY_NOT_UNIQUE)).
Proof.
  intros (Hx & He & Hk).
  pose proof (wf_table _ _ _ _ Hwf) as Ht.
  pose proof (wf_bucket_count _ _ _ _ Hwf) as Hbc.
  unfold store_entry.
  run (bucket_index_run _ _ k _ Ht ltac:(lia)).
  destruct (bucket_of_key w table t cs Hwf k) as (head & l & Hh & Hl & Hch & Hnd).
  run (read_bucket_run _ _ _ _ _ Ht Hh).
  assert (x ∈ l) as Hxl.
  { eapply linked_in_bucket; try done. by rewrite Hk. }
  assert (l ≠ []) as Hne.
  { intros ->. by apply elem_of_nil in Hxl. }
  assert (head ≠ NULL) as Hhead.
  { intros Hnull. by apply (is_chain_nil_iff _ _ _ Hch) in Hnull. }
  rewrite (proj2 (Z.eqb_neq _ _) Hhead).
  destruct (walk_prev_spec _ k _ (chain_fuel w) head head Hch Hne
              (chain_fuel_enough _ _ _ Hch Hnd))
    as (l1 & y & l2 & ey & -> & Hey & Habs & _ & Hwalk & Hcase).
  run (walk_chain_run _ _ _ _ Hwalk).
  run (the_entry_run _ _ _ Hey).
  destruct Hcase as [Hky|[Hky ->]].
  - by rewrite (proj2 (Z.eqb_eq _ _) Hky).
  - exfalso. apply elem_of_app in Hxl as [Hxl|Hxl].
    + by eapply Habs.
    + apply list_elem_of_singleton in Hxl. subst y. congruence.
Qed.

(** An unused key, and no new entry: only what [new_entry_with] did, and
    the status it passed back. *)
Lemma store_entry_failed new_entry_with k st w1 :
  unused_key w cs k →
  new_entry_with w = Some ((NULL, st), w1) →
  store_entry new_entry_with table k w = Some (tt, with_status w1 (Some st)).
Proof.
  intros Hun Hnew.
  pose proof (wf_table _ _ _ _ Hwf) as Ht.
  pose proof (wf_bucket_count _ _ _ _ Hwf) as Hbc.
  unfold store_entry.
  run (bucket_index_run _ _ k _ Ht ltac:(lia)).
  destruct (bucket_of_key w table t cs Hwf k) as (head & l & Hh & Hl & Hch & Hnd).
  run (read_bucket_run _ _ _ _ _ Ht Hh).
  destruct (head =? NULL) eqn:Hhead.
  { by run Hnew. }
  apply Z.eqb_neq in Hhead.
  assert (l ≠ []) as Hne.
  { intros Hnil. by apply (is_chain_nil_iff _ _ _ Hch) in Hnil. }
  destruct (walk_prev_spec _ k _ (chain_fuel w) head head Hch Hne
              (chain_fuel_enough _ _ _ Hch Hnd))
    as (l1 & y & l2 & ey & -> & Hey & Habs & _ & Hwalk & Hcase).
  run (walk_chain_run _ _ _ _ Hwalk).
  run (the_entry_run _ _ _ Hey).
  assert (key ey ≠ k) as Hky.
  { eapply Hun; [|done]. eexists _, _. split; [done|].
    apply elem_of_app. right. by left. }
  rewrite (proj2 (Z.eqb_neq _ _) Hky).
  by run Hnew.
Qed.

(** An unused key, and a new entry [en] at [n]: it is linked at the end
    of the chain of its bucket, and nothing else changes but the [next] of
    the entry before it and the entry count. *)
Lemma store_entry_linked new_entry_with k n st w1 en :
  unused_key w cs k → k ≠ 0 →
  new_entry_with w = Some ((n, st), w1) →
  n ≠ NULL → tables w1 = tables w →
  entries w !! n = None → entries w1 = <[n := en]> (entries w) →
  key en = k → next en = NULL →
  (0 < brk w1 ∧ ∀ a e, entries w1 !! a = Some e → a < brk w1) →
  ∃ w' t' l,
    store_entry new_entry_with table k w = Some (tt, w') ∧
    cs !! Z.to_nat (k mod bucket_count t) = Some l ∧
    wf w' table t' (<[Z.to_nat (k mod bucket_count t) := l ++ [n]]> cs) ∧
    status w' = Some KVS_STATUS_SUCCESS ∧
    octets w' = octets w1 ∧ grants w' = grants w1 ∧ brk w' = brk w1 ∧
    entry_count t' = (entry_count t + 1) mod cardinal_modulus ∧
    bucket_count t' = bucket_count t ∧
    last_retrieved_entry t' = last_retrieved_entry t ∧
    entries w' !! n = Some en ∧
    (∀ x e, x ≠ n → entries w !! x = Some e →
       ∃ e', entries w' !! x = Some e' ∧ e' = set_next e (next e')).
Proof.
  intros Hun Hk0 Hnew Hn Htb Hfresh Hent Hken Hnext Hbrk.
  pose proof (wf_table _ _ _ _ Hwf) as Ht.
  pose proof (wf_bucket_count _ _ _ _ Hwf) as Hbc.
  pose proof (wf_length _ _ _ _ Hwf) as Hlen.
  pose proof (Z.mod_pos_bound k (bucket_count t) Hbc) as Hidx.
  assert (tables w1 !! table = Some t) as Ht1 by (by rewrite Htb).
  unfold store_entry.
  run (bucket_index_run _ _ k _ Ht ltac:(lia)).
  destruct (bucket_of_key w table t cs Hwf k) as (head & l & Hh & Hl & Hch & Hnd).
  run (read_bucket_run _ _ _ _ _ Ht Hh).
  destruct (head =? NULL) eqn:Hhead.
  { apply Z.eqb_eq in Hhead.
    pose proof (proj1 (is_chain_nil_iff _ _ _ Hch) Hhead) as ->.
    run Hnew. rewrite (proj2 (Z.eqb_neq _ _) Hn).
    run (write_bucket_run table (k mod bucket_count t) t n w1 Ht1 ltac:(lia)).
    erewrite bind_run; [|apply write_table_run; simpl; apply lookup_insert_eq].
    eexists _, (set_entry_count (set_bucket t (k mod bucket_count t) n)
                  ((entry_count t + 1) mod cardinal_modulus)), [].
    split; [done|]. split; [done|].
    simpl. split; [|repeat split; try done].
    - eapply (wf_link w table t cs _ _ k n en _ [] n); try done; simpl.
      + apply lookup_insert_eq.
      + rewrite Hent. apply lookup_insert_eq.
      + split; [done|]. split; [done|]. exists en.
        rewrite Hent, lookup_insert_eq. by rewrite Hnext.
      + intros x e Hxn He. exists e. rewrite Hent.
        rewrite lookup_insert_ne by done. done.
    - rewrite Hent. apply lookup_insert_eq.
    - intros x e Hxn He. exists e. rewrite Hent.
      rewrite lookup_insert_ne by done. split; [done|]. by destruct e. }
  apply Z.eqb_neq in Hhead.
  assert (l ≠ []) as Hne.
  { intros Hnil. by apply (is_chain_nil_iff _ _ _ Hch) in Hnil. }
  destruct (walk_prev_spec _ k _ (chain_fuel w) head head Hch Hne
              (chain_fuel_enough _ _ _ Hch Hnd))
    as (l1 & z & l2 & ez & -> & Hez & Habs & _ & Hwalk & Hcase).
  run (walk_chain_run _ _ _ _ Hwalk).
  run (the_entry_run _ _ _ Hez).
  assert (key ez ≠ k) as Hky.
  { eapply Hun; [|done]. eexists _, _. split; [done|].
    apply elem_of_app. right. by left. }
  destruct Hcase as [?|[_ ->]]; [done|].
  rewrite (proj2 (Z.eqb_neq _ _) Hky).
  run Hnew. rewrite (proj2 (Z.eqb_neq _ _) Hn).
  assert (z ≠ n) as Hzn by congruence.
  assert (entries w1 !! z = Some ez) as Hez1.
  { rewrite Hent. by rewrite lookup_insert_ne. }
  run (write_entry_run z _ ez w1 Hez1).
  erewrite bind_run; [|apply write_table_run; simpl; exact Ht1].
  eexists _, (set_entry_count t ((entry_count t + 1) mod cardinal_modulus)),
    (l1 ++ [z]).
  split; [done|]. split; [done|].
  simpl. split; [|repeat split; try done].
  - eapply (wf_link w table t cs _ _ k n en _ _ head); try done; simpl.
    + apply lookup_insert_eq.
    + by rewrite list_insert_id.
    + rewrite lookup_insert_ne by done. rewrite Hent. apply lookup_insert_eq.
    + (* the new chain *)
      apply NoDup_app in Hnd as (_ & Hdisj & _).
      unfold is_chain in *. apply is_seg_app in Hch as (b & Hs1 & Hs2).
      destruct Hs2 as (-> & Hz0 & ez' & Hez' & Hnull).
      rewrite <- (assoc_L (++)). apply is_seg_app. exists z. split.
      * eapply is_seg_frame; [exact Hs1|].
        intros x e Hx He. exists e. split; [|done].
        rewrite lookup_insert_ne.
        -- rewrite Hent, lookup_insert_ne; [done|congruence].
        -- intros <-. apply (Hdisj z Hx). by left.
      * simpl. split; [done|]. split; [done|].
        exists (set_next ez n). split; [apply lookup_insert_eq|].
        simpl. split; [done|]. split; [done|]. exists en.
        rewrite lookup_insert_ne by done. rewrite Hent, lookup_insert_eq.
        by rewrite Hnext.
    + intros x e Hxn He. destruct (decide (x = z)) as [->|Hxz].
      * rewrite lookup_insert_eq. exists (set_next ez n).
        assert (e = ez) as -> by congruence.
        split; [done|]. split; [done|]. intros Hzl. destruct Hzl.
        apply elem_of_app. right. by left.
      * rewrite lookup_insert_ne by done. rewrite Hent.
        rewrite lookup_insert_ne by done. by exists e.
    + destruct Hbrk as [Hb0 Hb]. split; [done|]. intros a e.
      destruct (decide (a = z)) as [->|Haz].
      * intros _. by eapply Hb.
      * rewrite lookup_insert_ne by done. apply Hb.
  - rewrite lookup_insert_ne by done. rewrite Hent. apply lookup_insert_eq.
  - intros x e Hxn He. destruct (decide (x = z)) as [->|Hxz].
    + rewrite lookup_insert_eq. exists (set_next ez n).
      assert (e = ez) as -> by congruence. done.
    + rewrite lookup_insert_ne by done. rewrite Hent.
      rewrite lookup_insert_ne by done. exists e. split; [done|].
      by destruct e.
Qed.

End Store.

(** * Removing *)

(** Taking the entry [x] out of the chain of its bucket and freeing it. *)
Lemma wf_unlink w table t cs w' t' x e idx l1 l2 h' :
  wf w table t cs →
  cs !! idx = Some (l1 ++ x :: l2) → entries w !! x = Some e →
  tables w' !! table = Some t' →
  bucket_count t' = bucket_count t →
  bucket t' = <[idx := h']> (bucket t) →
  (last_retrieved_entry t' = NULL ∨
   (last_retrieved_entry t' = last_retrieved_entry t ∧
    last_retrieved_entry t ≠ x)) →
  entries w' !! x = None →
  is_chain (entries w') h' (l1 ++ l2) →
  (∀ y ey, y ≠ x → entries w !! y = Some ey →
     ∃ ey', entries w' !! y = Some ey' ∧ key ey' = key ey ∧
            (y ∉ l1 → next ey' = next ey)) →
  (0 < brk w' ∧ ∀ a ea, entries w' !! a = Some ea → a < brk w') →
  wf w' table t' (<[idx := l1 ++ l2]> cs).
Proof.
  intros Hwf Hl Hx Ht' Hbc Hb Hcache Hgone Hchain Hframe Hbrk.
  pose proof (Forall_lookup_1 _ _ _ _ (wf_nodup _ _ _ _ Hwf) Hl) as Hnd.
  apply NoDup_app in Hnd as (Hnd1 & Hdisj & Hnd2).
  apply NoDup_cons in Hnd2 as (Hx2 & Hnd2).
  assert (x ∉ l1) as Hx1.
  { intros Hin. apply (Hdisj x Hin). by left. }
  assert (x ∈ l1 ++ x :: l2) as Hxl.
  { apply elem_of_app. right. by left. }
  assert (∀ j lj y, j ≠ idx → cs !! j = Some lj → y ∈ lj →
            y ≠ x ∧ y ∉ l1) as Hother.
  { intros j lj y Hne Hj Hy.
    assert (y ∉ l1 ++ x :: l2) as Hny.
    { intros Hin.
      destruct (linked_allocated _ _ _ _ Hwf y) as [_ [ey Hey]];
        [by exists j, lj|].
      destruct (wf_place _ _ _ _ Hwf j lj y ey Hj Hy Hey) as [_ Hpj].
      destruct (wf_place _ _ _ _ Hwf idx _ y ey Hl Hin Hey) as [_ Hpi].
      lia. }
    split.
    - intros ->. done.
    - intros Hin. apply Hny, elem_of_app. by left. }
  assert (∀ y, linked (<[idx := l1 ++ l2]> cs) y → y ≠ x ∧ linked cs y)
    as Hlinked.
  { intros y Hy. apply (linked_insert _ _ _ _ _ Hl) in Hy
      as [Hy|(j & lj & Hne & Hj & Hy)].
    - split.
      + intros ->. apply elem_of_app in Hy as [?|?]; done.
      + exists idx, (l1 ++ x :: l2). split; [done|].
        apply elem_of_app in Hy as [Hy|Hy]; apply elem_of_app;
          [by left|right; by right].
    - split; [by eapply Hother|]. by exists j, lj. }
  assert (∀ y ey', y ≠ x → linked cs y → entries w' !! y = Some ey' →
            ∃ ey, entries w !! y = Some ey ∧ key ey' = key ey) as Hback.
  { intros y ey' Hyx Hy Hey'.
    destruct (linked_allocated _ _ _ _ Hwf y Hy) as [_ [ey Hey]].
    destruct (Hframe y ey Hyx Hey) as (ey'' & Hey'' & Hk & _).
    exists ey. split; [done|]. congruence. }
  split.
  - apply (wf_handle _ _ _ _ Hwf).
  - done.
  - rewrite Hbc. apply (wf_bucket_count _ _ _ _ Hwf).
  - rewrite Hbc, Hb, length_insert. apply (wf_length _ _ _ _ Hwf).
  - rewrite Hbc, Hb.
    rewrite take_insert_lt by (by eapply chain_index).
    eapply chains_update; [apply (wf_chains _ _ _ _ Hwf)| |done].
    intros j lj y ey Hne Hj Hy Hey.
    destruct (Hother j lj y Hne Hj Hy) as [Hyx Hy1].
    destruct (Hframe y ey Hyx Hey) as (ey' & Hey' & _ & Hnext).
    exists ey'. split; [done|]. by apply Hnext.
  - apply Forall_insert; [apply (wf_nodup _ _ _ _ Hwf)|].
    apply NoDup_app. split; [done|]. split; [|done].
    intros y Hy1 Hy2. apply (Hdisj y Hy1). by right.
  - intros i li y ey' Hi Hy Hey'. rewrite Hbc.
    assert (linked (<[idx := l1 ++ l2]> cs) y) as Hly by (by exists i, li).
    destruct (Hlinked y Hly) as [Hyx Hyc].
    destruct (Hback y ey' Hyx Hyc Hey') as (ey & Hey & ->).
    destruct (decide (i = idx)) as [->|Hne].
    + pose proof (lookup_lt_Some _ _ _ Hl) as Hlt.
      rewrite list_lookup_insert_eq in Hi by done. injection Hi as <-.
      eapply (wf_place _ _ _ _ Hwf); [exact Hl| |done].
      apply elem_of_app in Hy as [Hy|Hy]; apply elem_of_app;
        [by left|right; by right].
    + rewrite list_lookup_insert_ne in Hi by done.
      by eapply (wf_place _ _ _ _ Hwf).
  - intros y z ey' ez' Hy Hz Hey' Hez' Hkey.
    destruct (Hlinked y Hy) as [Hyx Hyc].
    destruct (Hlinked z Hz) as [Hzx Hzc].
    destruct (Hback y ey' Hyx Hyc Hey') as (ey & Hey & Hky).
    destruct (Hback z ez' Hzx Hzc Hez') as (ez & Hez & Hkz).
    eapply (wf_unique _ _ _ _ Hwf); try done. congruence.
  - destruct Hcache as [?|[Hc Hcx]]; [by left|]. rewrite Hc.
    destruct (wf_cache _ _ _ _ Hwf) as [?|(j & lj & Hj & Hin)]; [by left|].
    right. apply (linked_insert _ _ _ _ _ Hl).
    destruct (decide (j = idx)) as [->|Hne].
    + left. assert (lj = l1 ++ x :: l2) as -> by congruence.
      apply elem_of_app in Hin as [Hin|Hin]; apply elem_of_app; [by left|].
      apply elem_of_cons in Hin as [?|?]; [done|by right].
    + right. by exists j, lj.
  - done.
Qed.

Section Remove.

Context `{Platform}.
Context (w : world) (table : Z) (t : kvs_table_s) (cs : list (list Z)).
Context (Hwf : wf w table t cs).

Lemma entry_key_not_zero k x e : entry_of w cs k x e → k ≠ 0.
Proof.
  intros ((i & l & Hl & Hx) & He & <-).
  by destruct (wf_place _ _ _ _ Hwf i l x e Hl Hx He).
Qed.

Lemma kvs_remove_entry_unused k :
  k ≠ 0 → unused_key w cs k →
  kvs_remove_entry table k w =
    Some (tt, with_status w (Some KVS_STATUS_ENTRY_NOT_FOUND)).
Proof.
  intros Hk0 Hun.
  pose proof (wf_table _ _ _ _ Hwf) as Ht.
  pose proof (wf_bucket_count _ _ _ _ Hwf) as Hbc.
  unfold kvs_remove_entry. rewrite (table_not_null _ _ _ _ Hwf).
  rewrite (proj2 (Z.eqb_neq _ _) Hk0).
  run (bucket_index_run _ _ k _ Ht ltac:(lia)).
  destruct (bucket_of_key w table t cs Hwf k) as (head & l & Hh & Hl & Hch & Hnd).
  run (read_bucket_run _ _ _ _ _ Ht Hh).
  destruct (head =? NULL) eqn:Hhead; [done|].
  apply Z.eqb_neq in Hhead.
  assert (l ≠ []) as Hne.
  { intros Hnil. by apply (is_chain_nil_iff _ _ _ Hch) in Hnil. }
  destruct (walk_prev_spec _ k _ (chain_fuel w) head head Hch Hne
              (chain_fuel_enough _ _ _ Hch Hnd))
    as (l1 & y & l2 & ey & -> & Hey & Habs & Hwalk & _ & Hcase).
  run (walk_chain_prev_run _ _ _ _ Hwalk).
  run (the_entry_run _ _ _ Hey).
  assert (key ey ≠ k) as Hky.
  { eapply Hun; [|done]. eexists _, _. split; [done|].
    apply elem_of_app. right. by left. }
  by rewrite (proj2 (Z.eqb_neq _ _) Hky).
Qed.

(** The walk of [kvs_remove_entry] stops at the entry with the key, with
    [prev_entry] at the entry before it. *)
Lemma remove_walk k x e :
  entry_of w cs k x e →
  ∃ head l1 l2,
    bucket t !! Z.to_nat (k mod bucket_count t) = Some head ∧
    cs !! Z.to_nat (k mod bucket_count t) = Some (l1 ++ x :: l2) ∧
    is_chain (entries w) head (l1 ++ x :: l2) ∧ NoDup (l1 ++ x :: l2) ∧
    head ≠ NULL ∧
    walk_prev (chain_fuel w) (entries w) k head head
      = Some (default head (last l1), x).
Proof.
  intros (Hx & He & Hk).
  destruct (bucket_of_key w table t cs Hwf k) as (head & l & Hh & Hl & Hch & Hnd).
  assert (x ∈ l) as Hxl.
  { eapply linked_in_bucket; try done. by rewrite Hk. }
  assert (l ≠ []) as Hne.
  { intros ->. by apply elem_of_nil in Hxl. }
  assert (head ≠ NULL) as Hhead.
  { intros Hnull. by apply (is_chain_nil_iff _ _ _ Hch) in Hnull. }
  destruct (walk_prev_spec _ k _ (chain_fuel w) head head Hch Hne
              (chain_fuel_enough _ _ _ Hch Hnd))
    as (l1 & y & l2 & ey & -> & Hey & Habs & Hwalk & _ & Hcase).
  assert (y = x) as ->.
  { destruct Hcase as [Hky|[Hky ->]].
    - eapply (wf_unique _ _ _ _ Hwf); try done; [|congruence].
      eexists _, _. split; [done|]. apply elem_of_app. right. by left.
    - apply elem_of_app in Hxl as [Hxl|Hxl].
      + by destruct (Habs x e Hxl He).
      + by apply list_elem_of_singleton in Hxl. }
  by exists head, l1, l2.
Qed.

Lemma kvs_remove_entry_marks k x e :
  entry_of w cs k x e → 1 < ref_count e →
  kvs_remove_entry table k w =
    Some (tt, World (tables w)
                (<[x := set_marked_for_removal e true]> (entries w))
                (octets w) (brk w) (grants w) (Some KVS_STATUS_SUCCESS)).
Proof.
  intros Hx Hrc.
  pose proof (entry_key_not_zero _ _ _ Hx) as Hk0.
  destruct (remove_walk _ _ _ Hx) as (head & l1 & l2 & Hh & Hl & Hch & Hnd & Hhead & Hwalk).
  destruct Hx as (Hx & He & Hk).
  pose proof (wf_table _ _ _ _ Hwf) as Ht.
  pose proof (wf_bucket_count _ _ _ _ Hwf) as Hbc.
  unfold kvs_remove_entry. rewrite (table_not_null _ _ _ _ Hwf).
  rewrite (proj2 (Z.eqb_neq _ _) Hk0).
  run (bucket_index_run _ _ k _ Ht ltac:(lia)).
  run (read_bucket_run _ _ _ _ _ Ht Hh).
  rewrite (proj2 (Z.eqb_neq _ _) Hhead).
  run (walk_chain_prev_run _ _ _ _ Hwalk).
  run (the_entry_run _ _ _ He).
  rewrite (proj2 (Z.eqb_eq _ _) Hk).
  rewrite (proj2 (Z.leb_gt _ _) Hrc).
  by run (write_entry_run _ _ _ _ He).
Qed.

Lemma marked_world_wf k x e s :
  entry_of w cs k x e →
  wf (World (tables w) (<[x := set_marked_for_removal e true]> (entries w))
        (octets w) (brk w) (grants w) s) table t cs.
Proof.
  intros (Hx & He & _).
  apply (wf_entry_update _ _ _ _ x e _ _ _ Hwf He); [|done..].
  apply (wf_table _ _ _ _ Hwf).
Qed.

(** The store [kvs_remove_entry] hands to [_kvs_dispose_entry] when the
    reference count allows the removal: the cache no longer points at [x]
    and [x] is out of its chain, but still allocated. *)
Lemma kvs_remove_entry_unlinks k x e :
  entry_of w cs k x e → ref_count e <= 1 →
  ∃ l1 l2 t2 en h',
    cs !! Z.to_nat (k mod bucket_count t) = Some (l1 ++ x :: l2) ∧
    kvs_remove_entry table k w =
      (_kvs_dispose_entry x true ;;
       write_table table
         (fun t => set_entry_count t ((entry_count t - 1) mod cardinal_modulus)))
        (World (<[table := t2]> (tables w)) en (octets w) (brk w) (grants w)
           (status w)) ∧
    bucket_count t2 = bucket_count t ∧ entry_count t2 = entry_count t ∧
    bucket t2 = <[Z.to_nat (k mod bucket_count t) := h']> (bucket t) ∧
    (last_retrieved_entry t2 = NULL ∨
     (last_retrieved_entry t2 = last_retrieved_entry t ∧
      last_retrieved_entry t ≠ x)) ∧
    en !! x = Some e ∧
    is_chain (delete x en) h' (l1 ++ l2) ∧
    (∀ y ey, y ≠ x → entries w !! y = Some ey →
       ∃ ey', en !! y = Some ey' ∧ ey' = set_next ey (next ey') ∧
              (y ∉ l1 → next ey' = next ey)) ∧
    (∀ a ea, en !! a = Some ea → is_Some (entries w !! a)).
Proof.
  intros Hx Hrc.
  pose proof (entry_key_not_zero _ _ _ Hx) as Hk0.
  destruct (remove_walk _ _ _ Hx)
    as (head & l1 & l2 & Hh & Hl & Hch & Hnd & Hhead & Hwalk).
  destruct Hx as (Hx & He & Hk).
  pose proof (wf_table _ _ _ _ Hwf) as Ht.
  pose proof (wf_bucket_count _ _ _ _ Hwf) as Hbc.
  pose proof (wf_length _ _ _ _ Hwf) as Hlen.
  pose proof (Z.mod_pos_bound k (bucket_count t) Hbc) as Hidx.
  exists l1, l2.
  unfold kvs_remove_entry. rewrite (table_not_null _ _ _ _ Hwf).
  rewrite (proj2 (Z.eqb_neq _ _) Hk0).
  run (bucket_index_run _ _ k _ Ht ltac:(lia)).
  run (read_bucket_run _ _ _ _ _ Ht Hh).
  rewrite (proj2 (Z.eqb_neq _ _) Hhead).
  run (walk_chain_prev_run _ _ _ _ Hwalk).
  run (the_entry_run _ _ _ He).
  rewrite (proj2 (Z.eqb_eq _ _) Hk).
  rewrite (proj2 (Z.leb_le _ _) Hrc).
  run (the_table_run _ _ _ Ht).
  (* the cache *)
  set (t1 := if last_retrieved_entry t =? x
             then set_last_retrieved_entry t NULL else t).
  assert ((if last_retrieved_entry t =? x
           then write_table table (λ t0, set_last_retrieved_entry t0 NULL)
           else ret tt) w
          = Some (tt, with_tables w (<[table := t1]> (tables w)))) as Hcache.
  { unfold t1. destruct (last_retrieved_entry t =? x).
    - apply (write_table_run table
               (λ t0, set_last_retrieved_entry t0 NULL) t w Ht).
    - unfold ret, with_tables. rewrite insert_id by done. by destruct w. }
  run Hcache. clear Hcache.
  assert (bucket_count t1 = bucket_count t ∧ entry_count t1 = entry_count t ∧
          bucket t1 = bucket t ∧
          (last_retrieved_entry t1 = NULL ∨
           (last_retrieved_entry t1 = last_retrieved_entry t ∧
            last_retrieved_entry t ≠ x))) as (Hbc1 & Hec1 & Hb1 & Hc1).
  { unfold t1. destruct (last_retrieved_entry t =? x) eqn:Hc; simpl.
    - repeat split; try done. by left.
    - repeat split; try done. right. split; [done|]. by apply Z.eqb_neq. }
  clearbody t1.
  erewrite bind_run;
    [|eapply read_bucket_run; [simpl; apply lookup_insert_eq|by rewrite Hb1]].
  (* the chain *)
  pose proof Hnd as Hnd'.
  apply NoDup_app in Hnd' as (Hnd1 & Hdisj & Hnd2).
  apply NoDup_cons in Hnd2 as (Hx2 & Hnd2).
  destruct (last l1) as [p|] eqn:Hlast.
  - (* not the first entry *)
    apply last_Some in Hlast as [l1' ->].
    assert (head ≠ x) as Hhx.
    { intros Heq. unfold is_chain in Hch. apply (Hdisj head).
      - destruct l1' as [|y l1']; simpl in Hch; destruct Hch as (Hhd & _);
          simpl; rewrite Hhd; by left.
      - rewrite Heq. by left. }
    rewrite (proj2 (Z.eqb_neq _ _) Hhx).
    unfold is_chain in Hch. rewrite <- (assoc_L (++)) in Hch.
    apply is_seg_app in Hch as (b & Hs1 & Hs2).
    destruct Hs2 as (-> & Hp0 & ep & Hep & Hs2).
    destruct Hs2 as (Hnx & Hx0 & e' & He' & Hs3).
    assert (e' = e) as -> by congruence.
    assert (p ≠ x) as Hpx.
    { intros ->. apply (Hdisj x); [|by left].
      apply elem_of_app. right. by left. }
    simpl default.
    erewrite bind_run; [|apply write_entry_run; simpl; exact Hep].
    exists t1, (<[p := set_next ep (next e)]> (entries w)), head.
    split; [done|]. split; [done|].
    split; [done|]. split; [done|].
    split; [by rewrite Hb1, list_insert_id|].
    split; [done|].
    split; [by rewrite lookup_insert_ne|].
    split; [|split].
    + assert (NoDup (l1' ++ [p])) as Hndp by done.
      apply NoDup_app in Hndp as (_ & Hdisjp & _).
      rewrite <- (assoc_L (++)). apply is_seg_app. exists p. split.
      * eapply is_seg_frame; [exact Hs1|].
        intros y ey Hy Hey. exists ey. split; [|done].
        rewrite lookup_delete_ne.
        -- rewrite lookup_insert_ne; [done|].
           intros <-. apply (Hdisjp p Hy). by left.
        -- intros <-. apply (Hdisj x); [|by left].
           apply elem_of_app. by left.
      * simpl. split; [done|]. split; [done|].
        exists (set_next ep (next e)). split.
        -- rewrite lookup_delete_ne by done. apply lookup_insert_eq.
        -- simpl. eapply is_seg_frame; [exact Hs3|].
           intros y ey Hy Hey. exists ey. split; [|done].
           rewrite lookup_delete_ne.
           ++ rewrite lookup_insert_ne; [done|].
              intros <-. apply (Hdisj p); [|by right].
              apply elem_of_app. right. by left.
           ++ intros <-. done.
    + intros y ey Hyx Hey. destruct (decide (y = p)) as [->|Hyp].
      * rewrite lookup_insert_eq. exists (set_next ep (next e)).
        assert (ey = ep) as -> by congruence.
        split; [done|]. split; [done|]. intros Hnp. destruct Hnp.
        apply elem_of_app. right. by left.
      * rewrite lookup_insert_ne by done. exists ey.
        split; [done|]. split; [by destruct ey|done].
    + intros a ea. destruct (decide (a = p)) as [->|Hap].
      * intros _. by exists ep.
      * rewrite lookup_insert_ne by done. intros Ha. by exists ea.
  - (* the first entry *)
    apply last_None in Hlast. subst l1. simpl in *.
    destruct Hch as (-> & Hx0 & e' & He' & Hs).
    assert (e' = e) as -> by congruence.
    rewrite Z.eqb_refl.
    erewrite bind_run;
      [|eapply write_bucket_run;
        [simpl; apply lookup_insert_eq|rewrite Hb1; lia]].
    exists (set_bucket t1 (k mod bucket_count t) (next e)), (entries w), (next e).
    split; [done|]. split.
    { unfold with_tables; simpl. by rewrite insert_insert_eq. }
    split; [done|]. split; [done|].
    split; [by simpl; rewrite Hb1|].
    split; [done|]. split; [done|].
    split; [|split].
    + eapply is_seg_frame; [exact Hs|].
      intros y ey Hy Hey. exists ey. split; [|done].
      rewrite lookup_delete_ne; [done|]. by intros <-.
    + intros y ey Hyx Hey. exists ey. split; [done|].
      split; [by destruct ey|done].
    + intros a ea Ha. by exists ea.
Qed.

End Remove.

(** What is linked once [x] is out of its chain. *)
Lemma linked_unlink w table t cs idx l1 x l2 y :
  wf w table t cs → cs !! idx = Some (l1 ++ x :: l2) →
  linked (<[idx := l1 ++ l2]> cs) y ↔ y ≠ x ∧ linked cs y.
Proof.
  intros Hwf Hl.
  pose proof (Forall_lookup_1 _ _ _ _ (wf_nodup _ _ _ _ Hwf) Hl) as Hnd.
  apply NoDup_app in Hnd as (Hnd1 & Hdisj & Hnd2).
  apply NoDup_cons in Hnd2 as (Hx2 & Hnd2).
  assert (x ∈ l1 ++ x :: l2) as Hxl.
  { apply elem_of_app. right. by left. }
  rewrite (linked_insert _ _ _ _ _ Hl). split.
  - intros [Hy|(j & lj & Hne & Hj & Hy)].
    + split.
      * intros ->. apply elem_of_app in Hy as [Hy|?]; [|done].
        apply (Hdisj x Hy). by left.
      * exists idx, (l1 ++ x :: l2). split; [done|].
        apply elem_of_app in Hy as [Hy|Hy]; apply elem_of_app;
          [by left|right; by right].
    + split; [|by exists j, lj].
      intros ->.
      destruct (linked_allocated _ _ _ _ Hwf x) as [_ [ex Hex]];
        [by exists j, lj|].
      destruct (wf_place _ _ _ _ Hwf j lj x ex Hj Hy Hex) as [_ Hpj].
      destruct (wf_place _ _ _ _ Hwf idx _ x ex Hl Hxl Hex) as [_ Hpi].
      lia.
  - intros [Hyx (j & lj & Hj & Hy)].
    destruct (decide (j = idx)) as [->|Hne].
    + left. assert (lj = l1 ++ x :: l2) as -> by congruence.
      apply elem_of_app in Hy as [Hy|Hy]; apply elem_of_app; [by left|].
      apply elem_of_cons in Hy as [?|?]; [done|by right].
    + right. by exists j, lj.
Qed.

Section Dispose.

Context `{Platform}.

Lemma dispose_entry_run tb en oc b g st x e :
  x ≠ NULL → en !! x = Some e →
  _kvs_dispose_entry x true (World tb en oc b g st) =
    if value e =? NULL then Some (tt, World tb (delete x en) oc b g st)
    else match oc !! value e with
         | Some _ =>
             Some (tt, World tb (delete x en) (delete (value e) oc) b g
                         (Some KVS_STATUS_SUCCESS))
         | None => None
         end.
Proof.
  intros Hx He. unfold _kvs_dispose_entry.
  rewrite (proj2 (Z.eqb_neq _ _) Hx).
  erewrite bind_run; [|apply the_entry_run; simpl; exact He].
  destruct (value e =? NULL) eqn:Hv.
  - unfold bind, ret, DEALLOCATE_entry; simpl.
    rewrite (proj2 (Z.eqb_neq _ _) Hx). by rewrite He.
  - unfold bind at 1. unfold bind at 1. unfold DEALLOCATE_octets; simpl.
    rewrite Hv. destruct (oc !! value e); [|done].
    unfold _kvs_set_status, DEALLOCATE_entry; simpl.
    rewrite (proj2 (Z.eqb_neq _ _) Hx). by rewrite He.
Qed.

Context (w : world) (table : Z) (t : kvs_table_s) (cs : list (list Z)).
Context (Hwf : wf w table t cs).

(** [kvs_remove_entry] on an entry whose count allows it, and whose value
    can be freed. *)
Lemma kvs_remove_entry_frees k x e :
  entry_of w cs k x e → ref_count e <= 1 →
  value e = NULL ∨ is_Some (octets w !! value e) →
  ∃ w' t' l1 l2,
    kvs_remove_entry table k w = Some (tt, w') ∧
    cs !! Z.to_nat (k mod bucket_count t) = Some (l1 ++ x :: l2) ∧
    wf w' table t' (<[Z.to_nat (k mod bucket_count t) := l1 ++ l2]> cs) ∧
    entries w' !! x = None ∧
    entry_count t' = (entry_count t - 1) mod cardinal_modulus ∧
    bucket_count t' = bucket_count t ∧
    (∀ y ey, y ≠ x → entries w !! y = Some ey →
       ∃ ey', entries w' !! y = Some ey' ∧ ey' = set_next ey (next ey')) ∧
    brk w' = brk w ∧ grants w' = grants w ∧
    octets w' = (if value e =? NULL then octets w
                 else delete (value e) (octets w)).
Proof.
  intros Hx Hrc Hval.
  destruct (kvs_remove_entry_unlinks w table t cs Hwf k x e Hx Hrc)
    as (l1 & l2 & t2 & en & h' & Hl & Hrun & Hbc & Hec & Hb & Hc & Hex & Hch
        & Hframe & Hdom).
  destruct Hx as (Hx & He & Hk).
  destruct (linked_allocated _ _ _ _ Hwf x Hx) as [Hx0 _].
  destruct (wf_brk _ _ _ _ Hwf) as [Hb0 Hbrk].
  rewrite Hrun. clear Hrun.
  unfold bind at 1. rewrite (dispose_entry_run _ _ _ _ _ _ _ _ Hx0 Hex).
  assert (∃ oc st,
    (if value e =? NULL
     then Some (tt, World (<[table:=t2]> (tables w)) (delete x en) (octets w)
                      (brk w) (grants w) (status w))
     else match octets w !! value e with
          | Some _ =>
              Some (tt, World (<[table:=t2]> (tables w)) (delete x en)
                          (delete (value e) (octets w)) (brk w) (grants w)
                          (Some KVS_STATUS_SUCCESS))
          | None => None
          end)
    = Some (tt, World (<[table:=t2]> (tables w)) (delete x en) oc
                  (brk w) (grants w) st) ∧
    oc = (if value e =? NULL then octets w else delete (value e) (octets w)))
    as (oc & st & -> & Hoc).
  { destruct (value e =? NULL) eqn:Hv.
    - by eexists _, _.
    - destruct Hval as [Hval|[bs Hbs]].
      + apply Z.eqb_neq in Hv. done.
      + rewrite Hbs. by eexists _, _. }
  cbv beta iota.
  erewrite write_table_run; [|simpl; apply lookup_insert_eq].
  unfold with_tables; simpl. rewrite insert_insert_eq.
  eexists _, (set_entry_count t2 ((entry_count t - 1) mod cardinal_modulus)),
    l1, l2.
  split; [by rewrite Hec|]. split; [done|].
  simpl. split; [|repeat split; try done].
  - eapply (wf_unlink w table t cs _ _ x e); try done; simpl.
    + apply lookup_insert_eq.
    + apply lookup_delete_eq.
    + intros y ey Hyx Hey.
      destruct (Hframe y ey Hyx Hey) as (ey' & Hey' & Heq & Hnext).
      exists ey'. rewrite lookup_delete_ne by done.
      split; [done|]. split; [|done]. rewrite Heq. done.
    + split; [done|]. intros a ea Ha.
      destruct (decide (a = x)) as [->|Hne].
      * by rewrite lookup_delete_eq in Ha.
      * rewrite lookup_delete_ne in Ha by done.
        destruct (Hdom a ea Ha) as [ea' Hea']. by eapply Hbrk.
  - apply lookup_delete_eq.
  - intros y ey Hyx Hey.
    destruct (Hframe y ey Hyx Hey) as (ey' & Hey' & Heq & _).
    exists ey'. by rewrite lookup_delete_ne.
Qed.

(** ... and whose value cannot be freed: the call is undefined. *)
Lemma kvs_remove_entry_undefined k x e :
  entry_of w cs k x e → ref_count e <= 1 →
  value e ≠ NULL → octets w !! value e = None →
  kvs_remove_entry table k w = None.
Proof.
  intros Hx Hrc Hv Hoc.
  destruct (kvs_remove_entry_unlinks w table t cs Hwf k x e Hx Hrc)
    as (l1 & l2 & t2 & en & h' & Hl & Hrun & Hbc & Hec & Hb & Hc & Hex & _).
  destruct Hx as (Hx & He & Hk).
  destruct (linked_allocated _ _ _ _ Hwf x Hx) as [Hx0 _].
  rewrite Hrun. unfold bind at 1.
  rewrite (dispose_entry_run _ _ _ _ _ _ _ _ Hx0 Hex).
  rewrite (proj2 (Z.eqb_neq _ _) Hv). by rewrite Hoc.
Qed.

End Dispose.

(** * Releasing *)

Section Release.

Context `{Platform}.
Context (w : world) (table : Z) (t : kvs_table_s) (cs : list (list Z)).
Context (Hwf : wf w table t cs).

Lemma kvs_release_entry_found k x e :
  entry_of w cs k x e →
  kvs_release_entry table k w =
    if 1 <? ref_count e then
      if ((ref_count e - 1) mod word_modulus =? 1) && marked_for_removal e
      then kvs_remove_entry table k (released_world w table t x e)
      else Some (tt, released_world w table t x e)
    else Some (tt, found_world w table t x).
Proof.
  intros Hx. unfold kvs_release_entry. rewrite (table_not_null _ _ _ _ Hwf).
  run (find_entry_found _ _ _ _ Hwf _ _ _ Hx).
  rewrite (entry_not_null _ _ _ _ Hwf _ _ _ Hx).
  destruct Hx as (_ & He & _).
  run (found_world_entry w table t x _ _ He).
  destruct (1 <? ref_count e); [|done].
  run (write_entry_run x _ e (found_world w table t x) He).
  erewrite bind_run; [|apply the_entry_run; simpl; apply lookup_insert_eq].
  simpl.
  by destruct (((ref_count e - 1) mod word_modulus =? 1)
               && marked_for_removal e).
Qed.

Lemma released_world_wf k x e :
  entry_of w cs k x e →
  wf (released_world w table t x e) table (set_last_retrieved_entry t x) cs.
Proof.
  intros (Hx & He & _).
  pose proof (found_world_wf _ _ _ _ Hwf x Hx) as Hwf'.
  apply (wf_entry_update _ _ _ _ x e _ _ _ Hwf' He); [|done..].
  apply lookup_insert_eq.
Qed.

End Release.

(** * A new table *)

Section NewTable.

Context `{Platform}.

Lemma init_buckets_run todo : ∀ table index w t,
  tables w !! table = Some t →
  Forall (eq NULL) (bucket t) →
  (Z.to_nat index + todo ≤ length (bucket t))%nat → 0 <= index →
  init_buckets todo table index w = Some (tt, w).
Proof.
  induction todo as [|todo IH]; intros table index w t Ht Hz Hlen Hi; simpl.
  - done.
  - assert (bucket t !! Z.to_nat index = Some NULL) as Hb.
    { destruct (lookup_lt_is_Some_2 (bucket t) (Z.to_nat index)) as [a Ha];
        [lia|].
      rewrite Ha. f_equal. symmetry.
      eapply (Forall_lookup_1 _ _ _ _ Hz Ha). }
    erewrite bind_run; [|apply (write_bucket_run _ _ _ _ _ Ht); lia].
    rewrite (set_bucket_same _ _ _ Hb).
    assert (with_tables w (<[table := t]> (tables w)) = w) as ->.
    { unfold with_tables. rewrite insert_id by done. by destruct w. }
    apply (IH _ _ _ _ Ht Hz); [|lia].
    rewrite Z2Nat.inj_add by lia. simpl. lia.
Qed.

Lemma kvs_new_table_refused siz w :
  granted w = None →
  kvs_new_table siz w =
    Some (NULL, with_status (after_grant w)
                  (Some KVS_STATUS_ALLOCATION_FAILED)).
Proof.
  intros Hg. unfold kvs_new_table, bind at 1, ALLOCATE_table.
  by rewrite next_grant_eq, Hg.
Qed.

(** The loop that runs beyond the storage of the table base. *)
Lemma init_buckets_overrun todo : ∀ table index w t,
  tables w !! table = Some t →
  Forall (eq NULL) (bucket t) → 0 <= index →
  (Z.to_nat index ≤ length (bucket t))%nat →
  (length (bucket t) < Z.to_nat index + todo)%nat →
  init_buckets todo table index w = None.
Proof.
  induction todo as [|todo IH]; intros table index w t Ht Hz Hi Hin Hout;
    simpl; [lia|].
  destruct (decide (Z.to_nat index < length (bucket t))%nat) as [Hlt|Hge].
  - assert (bucket t !! Z.to_nat index = Some NULL) as Hb.
    { destruct (lookup_lt_is_Some_2 (bucket t) (Z.to_nat index)) as [a Ha];
        [lia|].
      rewrite Ha. f_equal. symmetry.
      eapply (Forall_lookup_1 _ _ _ _ Hz Ha). }
    erewrite bind_run; [|apply (write_bucket_run _ _ _ _ _ Ht); lia].
    rewrite (set_bucket_same _ _ _ Hb).
    assert (with_tables w (<[table := t]> (tables w)) = w) as ->.
    { unfold with_tables. rewrite insert_id by done. by destruct w. }
    apply (IH _ _ _ _ Ht Hz); [lia| |].
    + rewrite Z2Nat.inj_add by lia. simpl. lia.
    + rewrite Z2Nat.inj_add by lia. simpl. lia.
  - unfold bind, write_bucket. rewrite Ht. by rewrite decide_False.
Qed.

Lemma kvs_new_table_granted siz w s :
  granted w = Some s → (1 ≤ s)%nat → 0 < brk w → 0 <= siz →
  kvs_new_table siz w =
    Some (brk w,
          World (<[brk w := new_table_value siz s]> (tables w))
            (entries w) (octets w) (brk w + 1) (tail (grants w))
            (Some KVS_STATUS_SUCCESS)).
Proof.
  intros Hg Hslack Hb Hs. unfold kvs_new_table, bind at 1, ALLOCATE_table.
  rewrite next_grant_eq, Hg. simpl.
  rewrite (proj2 (Z.eqb_neq (brk w) NULL)) by (unfold NULL; lia).
  repeat (erewrite bind_run;
          [|apply write_table_run; simpl; apply lookup_insert_eq];
          unfold with_tables; simpl; rewrite insert_insert_eq).
  erewrite bind_run.
  2: { eapply init_buckets_run.
       - simpl. apply lookup_insert_eq.
       - simpl. apply Forall_replicate. done.
       - simpl. rewrite length_replicate.
         unfold KVS_DEFAULT_TABLE_SIZE. destruct (siz =? 0) eqn:Hz; [lia|].
         apply Z.eqb_neq in Hz. lia.
       - lia. }
  done.
Qed.

(** In storage of exactly the size asked for, the loop of [kvs_new_table]
    sets the last bucket outside the storage. *)
Lemma kvs_new_table_overrun siz w :
  granted w = Some 0%nat → 0 < brk w → 0 <= siz →
  kvs_new_table siz w = None.
Proof.
  intros Hg Hb Hs. unfold kvs_new_table, bind at 1, ALLOCATE_table.
  rewrite next_grant_eq, Hg. simpl.
  rewrite (proj2 (Z.eqb_neq (brk w) NULL)) by (unfold NULL; lia).
  repeat (erewrite bind_run;
          [|apply write_table_run; simpl; apply lookup_insert_eq];
          unfold with_tables; simpl; rewrite insert_insert_eq).
  unfold bind at 1. erewrite init_buckets_overrun; [done| | | | |].
  - simpl. apply lookup_insert_eq.
  - simpl. apply Forall_replicate. done.
  - lia.
  - simpl. lia.
  - simpl. rewrite length_replicate.
    unfold KVS_DEFAULT_TABLE_SIZE. destruct (siz =? 0) eqn:Hz; [lia|].
    apply Z.eqb_neq in Hz. lia.
Qed.

(** What [kvs_new_table] returns tells what the allocator answered. *)
Lemma kvs_new_table_cases siz w a w' :
  0 < brk w → 0 <= siz →
  kvs_new_table siz w = Some (a, w') →
  (a = NULL ∧ granted w = None) ∨
  (a = brk w ∧ ∃ s, granted w = Some s ∧ (1 ≤ s)%nat).
Proof.
  intros Hb Hs. destruct (granted w) as [[|s]|] eqn:Hg.
  - by rewrite (kvs_new_table_overrun _ _ Hg Hb Hs).
  - rewrite (kvs_new_table_granted _ _ _ Hg ltac:(lia) Hb Hs).
    intros [= <- _]. right. split; [done|]. exists (S s). split; [done|lia].
  - rewrite (kvs_new_table_refused _ _ Hg). intros [= <- _]. by left.
Qed.

(** A new table is well formed, with empty chains. *)
Lemma kvs_new_table_wf siz w s :
  granted w = Some s → (1 ≤ s)%nat → 0 < brk w → 0 <= siz →
  (∀ a e, entries w !! a = Some e → a < brk w) →
  ∃ w', kvs_new_table siz w = Some (brk w, w') ∧
        wf w' (brk w) (new_table_value siz s)
          (replicate (Z.to_nat (bucket_count (new_table_value siz s))) []) ∧
        entries w' = entries w ∧ octets w' = octets w.
Proof.
  intros Hg Hslack Hb Hs Hfresh.
  rewrite (kvs_new_table_granted _ _ _ Hg Hslack Hb Hs).
  eexists. split; [done|]. split; [|done].
  assert (0 < bucket_count (new_table_value siz s)) as Hbc.
  { unfold new_table_value, KVS_DEFAULT_TABLE_SIZE. simpl.
    destruct (siz =? 0) eqn:Hz; [lia|]. apply Z.eqb_neq in Hz. lia. }
  split; simpl.
  - unfold NULL. lia.
  - apply lookup_insert_eq.
  - done.
  - rewrite length_replicate. simpl in Hbc. lia.
  - rewrite take_replicate.
    apply Forall2_same_length_lookup. split.
    + rewrite !length_replicate. simpl in Hbc. lia.
    + intros i a l Ha Hl.
      apply lookup_replicate_1 in Ha as [-> _].
      apply lookup_replicate_1 in Hl as [-> _]. done.
  - apply Forall_replicate. apply NoDup_nil_2.
  - intros i l x e Hl Hx. apply lookup_replicate_1 in Hl as [-> _].
    by apply elem_of_nil in Hx.
  - intros x y ex ey (i & l & Hl & Hx).
    apply lookup_replicate_1 in Hl as [-> _]. by apply elem_of_nil in Hx.
  - by left.
  - split; [lia|]. intros a e Ha. pose proof (Hfresh a e Ha). lia.
Qed.

End NewTable.

(** * Checking well-formedness by computation *)

Lemma chain_list_sound fuel : ∀ m a l,
  chain_list fuel m a = Some l → is_chain m a l.
Proof.
  induction fuel as [|fuel IH]; intros m a l; simpl; [done|].
  destruct (a =? NULL) eqn:Ha.
  - intros [= <-]. by apply Z.eqb_eq in Ha.
  - apply Z.eqb_neq in Ha. destruct (m !! a) as [e|] eqn:He; [|done].
    destruct (chain_list fuel m (next e)) as [l'|] eqn:Hl; [|done].
    intros [= <-]. split; [done|]. split; [done|]. exists e. split; [done|].
    by apply IH.
Qed.

Lemma chains_ok_sound fuel m : ∀ bs cs,
  chains_ok fuel m bs cs = true → Forall2 (is_chain m) bs cs.
Proof.
  induction bs as [|a bs IH]; intros [|l cs]; simpl; try done.
  intros Hok. apply andb_prop in Hok as [Ha Hok].
  apply bool_decide_eq_true_1 in Ha. constructor.
  - by eapply chain_list_sound.
  - by apply IH.
Qed.

Lemma place_ok_sound m bc : ∀ cs i j l x e,
  place_ok m bc i cs = true → cs !! j = Some l → x ∈ l → m !! x = Some e →
  key e ≠ 0 ∧ key e mod bc = Z.of_nat (i + j).
Proof.
  induction cs as [|l0 cs IH]; intros i j l x e Hok Hl Hx He; [done|].
  simpl in Hok. apply andb_prop in Hok as [Hl0 Hok].
  destruct j as [|j]; simpl in Hl.
  - injection Hl as ->.
    rewrite forallb_forall in Hl0. apply list_elem_of_In in Hx.
    specialize (Hl0 x Hx). rewrite He in Hl0.
    apply andb_prop in Hl0 as [Hk0 Hki].
    apply negb_true_iff, Z.eqb_neq in Hk0. apply Z.eqb_eq in Hki.
    split; [done|]. rewrite Hki. f_equal. lia.
  - destruct (IH (S i) j l x e Hok Hl Hx He) as [Hk0 Hki].
    split; [done|]. rewrite Hki. f_equal. lia.
Qed.

Lemma linked_join cs x : linked cs x ↔ x ∈ mjoin cs.
Proof.
  rewrite list_elem_of_join. split.
  - intros (i & l & Hl & Hx). exists l. split; [done|].
    apply list_elem_of_lookup. by exists i.
  - intros (l & Hx & Hl). apply list_elem_of_lookup in Hl as [i Hi].
    by exists i, l.
Qed.

Lemma NoDup_fmap_elem {A B} (f : A → B) (l : list A) x y :
  NoDup (f <$> l) → x ∈ l → y ∈ l → f x = f y → x = y.
Proof.
  induction l as [|a l IH]; intros Hnd Hx Hy Hf.
  - by apply elem_of_nil in Hx.
  - rewrite fmap_cons in Hnd. apply NoDup_cons in Hnd as [Ha Hnd].
    apply elem_of_cons in Hx as [->|Hx]; apply elem_of_cons in Hy as [->|Hy].
    + done.
    + destruct Ha. rewrite Hf. by apply list_elem_of_fmap_2.
    + destruct Ha. rewrite <- Hf. by apply list_elem_of_fmap_2.
    + by apply IH.
Qed.

Lemma wf_check_sound w table t cs :
  wf_check w table t cs = true → wf w table t cs.
Proof.
  unfold wf_check. intros Hok.
  apply andb_prop in Hok as [Hok Hfresh].
  apply andb_prop in Hok as [Hok Hbrk].
  apply andb_prop in Hok as [Hok Hcache].
  apply andb_prop in Hok as [Hok Hunique].
  apply andb_prop in Hok as [Hok Hplace].
  apply andb_prop in Hok as [Hok Hnodup].
  apply andb_prop in Hok as [Hok Hchains].
  apply andb_prop in Hok as [Hok Hlen].
  apply andb_prop in Hok as [Hok Hbc].
  apply andb_prop in Hok as [Hnull Htable].
  split.
  - by apply Z.eqb_neq, negb_true_iff.
  - by eapply bool_decide_eq_true_1.
  - by apply Z.ltb_lt.
  - by apply Z.leb_le.
  - by eapply chains_ok_sound.
  - apply Forall_forall. intros l Hl.
    rewrite forallb_forall in Hnodup. apply list_elem_of_In in Hl.
    specialize (Hnodup l Hl). by apply bool_decide_eq_true_1 in Hnodup.
  - intros i l x e Hl Hx He.
    by eapply (place_ok_sound _ _ cs 0%nat i).
  - intros x y ex ey Hx Hy Hex Hey Hk.
    apply linked_join in Hx, Hy.
    eapply (NoDup_fmap_elem (key_at (entries w))); try done.
    + by eapply bool_decide_eq_true_1.
    + unfold key_at. by rewrite Hex, Hey.
  - apply orb_prop in Hcache as [Hc|Hc].
    + left. by apply Z.eqb_eq.
    + right. apply linked_join. by eapply bool_decide_eq_true_1.
  - split; [by apply Z.ltb_lt|]. intros a e Ha.
    rewrite forallb_forall in Hfresh.
    specialize (Hfresh (a, e)). simpl in Hfresh. apply Z.ltb_lt, Hfresh.
    apply list_elem_of_In. by apply elem_of_map_to_list.
Qed.

(** * Example stores

    Each example store is what the calls that describe it return. *)

Lemma new_table_world_run :
  kvs_new_table 4 caller_world = Some (1000, new_table_world).
Proof. vm_compute. reflexivity. Qed.

Lemma one_reference_world_run :
  kvs_store_reference (H := lp64) 1000 7 100 2 false new_table_world
  = Some (tt, one_reference_world).
Proof. vm_compute. reflexivity. Qed.

Lemma three_references_world_run :
  (let* p := kvs_reference_for_key (H := lp64) 1000 7 in
   let* q := kvs_reference_for_key (H := lp64) 1000 7 in
   ret (p, q)) one_reference_world
  = Some ((100, 100), three_references_world).
Proof. vm_compute. reflexivity. Qed.

Lemma one_bucket_world_run :
  (let* table := kvs_new_table 1 in
   kvs_store_value (H := lp64) table 1 100 2 false ;;
   kvs_store_value (H := lp64) table 2 200 2 false ;;
   ret table) caller_world
  = Some (1000, one_bucket_world) ∧
  status one_bucket_world = Some KVS_STATUS_SUCCESS ∧
  key <$> entries one_bucket_world !! 1001 = Some 1 ∧
  key <$> entries one_bucket_world !! 1003 = Some 2.
Proof. repeat split; vm_compute; reflexivity. Qed.

Lemma one_reference_world_wf :
  wf one_reference_world 1000 one_reference_table [[]; []; []; [1001]].
Proof. apply wf_check_sound. vm_compute. reflexivity. Qed.

(** * Properties of the specification *)

(** ** The key zero *)

(** C10: on a table that is not [NULL], the lookup and release functions
    called with the key zero do not reject it: they report "entry not
    found" and return [false], [NULL] or [0], as no entry has the key zero;
    [kvs_store_value], [kvs_store_reference] and [kvs_remove_entry] are the
    ones that report "invalid key". *)
Theorem zero_key_is_not_found `{Platform} w table t cs :
  wf w table t cs → zero_key_outcomes w table.
Proof.
  intros Hwf. pose proof (zero_unused _ _ _ _ Hwf) as Hun.
  pose proof (table_not_null _ _ _ _ Hwf) as Hnn.
  unfold zero_key_outcomes. repeat split.
  - by eapply kvs_entry_exists_unused.
  - intros copy g. by eapply kvs_get_entry_unused.
  - intros g. by eapply kvs_value_for_key_unused.
  - by eapply kvs_reference_for_key_unused.
  - by eapply kvs_size_for_key_unused.
  - by eapply kvs_data_for_key_is_null_terminated_unused.
  - by eapply kvs_reference_count_for_key_unused.
  - by eapply kvs_release_entry_unused.
  - intros val siz nt. unfold kvs_store_value. by rewrite Hnn.
  - intros val siz nt. unfold kvs_store_reference. by rewrite Hnn.
  - unfold kvs_remove_entry. by rewrite Hnn.
Qed.

Lemma zero_key_is_not_found_witness :
  wf one_reference_world 1000 one_reference_table [[]; []; []; [1001]] ∧
  zero_key_outcomes (H := lp64) one_reference_world 1000.
Proof.
  split.
  - apply wf_check_sound. vm_compute. reflexivity.
  - apply (zero_key_is_not_found (H := lp64) one_reference_world 1000
             one_reference_table [[]; []; []; [1001]]).
    apply wf_check_sound. vm_compute. reflexivity.
Defined.

(** ** Storing under a key *)

Section StoreCalls.

Context `{Platform}.

Lemma kvs_store_value_settled table k val siz nt n w :
  table ≠ NULL → k ≠ 0 → val ≠ NULL → settled_size val siz nt n →
  kvs_store_value table k val siz nt w =
    store_entry (_kvs_new_entry_with_copy k val n nt) table k w.
Proof.
  intros Ht Hk Hv [Hn Hs]. unfold kvs_store_value.
  rewrite (proj2 (Z.eqb_neq _ _) Ht), (proj2 (Z.eqb_neq _ _) Hk),
    (proj2 (Z.eqb_neq _ _) Hv).
  destruct Hs as [[Hs ->]|(-> & -> & Hscan)].
  - rewrite (proj2 (Z.eqb_neq _ _) Hs). simpl. unfold bind at 1, ret.
    by rewrite (proj2 (Z.eqb_neq _ _) Hs).
  - simpl. unfold bind at 1, _kvs_calc_null_terminated_data_size.
    rewrite Hscan. by rewrite (proj2 (Z.eqb_neq _ _) Hn).
Qed.

Lemma kvs_store_reference_settled table k val siz nt n w :
  table ≠ NULL → k ≠ 0 → val ≠ NULL → settled_size val siz nt n →
  kvs_store_reference table k val siz nt w =
    store_entry (_kvs_new_entry_with_ref k val n nt) table k w.
Proof.
  intros Ht Hk Hv [Hn Hs]. unfold kvs_store_reference.
  rewrite (proj2 (Z.eqb_neq _ _) Ht), (proj2 (Z.eqb_neq _ _) Hk),
    (proj2 (Z.eqb_neq _ _) Hv).
  destruct Hs as [[Hs ->]|(-> & -> & Hscan)].
  - rewrite (proj2 (Z.eqb_neq _ _) Hs). simpl. unfold bind at 1, ret.
    by rewrite (proj2 (Z.eqb_neq _ _) Hs).
  - simpl. unfold bind at 1, _kvs_calc_null_terminated_data_size.
    rewrite Hscan. by rewrite (proj2 (Z.eqb_neq _ _) Hn).
Qed.

(** The calls that end before a place in a chain is looked for. *)
Lemma kvs_store_reference_rejected table k val siz nt w w' :
  kvs_store_reference table k val siz nt w = Some (tt, w') →
  status w' = Some KVS_STATUS_SUCCESS →
  table ≠ NULL ∧ k ≠ 0 ∧ val ≠ NULL ∧ ∃ n, settled_size val siz nt n.
Proof.
  unfold kvs_store_reference.
  destruct (table =? NULL) eqn:Ht; [by intros [= <-]|].
  destruct (k =? 0) eqn:Hk; [by intros [= <-]|].
  destruct (val =? NULL) eqn:Hv; [by intros [= <-]|].
  apply Z.eqb_neq in Ht, Hk, Hv.
  destruct ((siz =? 0) && negb nt) eqn:Hs; [by intros [= <-]|].
  destruct (siz =? 0) eqn:Hz.
  - destruct nt; [|done]. simpl.
    unfold bind at 1, _kvs_calc_null_terminated_data_size.
    destruct (scan_octets (pointer_octets val) 0) as [n|] eqn:Hscan; [|done].
    destruct (n =? 0) eqn:Hn; [by intros [= <-]|].
    intros _ _. apply Z.eqb_neq in Hn. apply Z.eqb_eq in Hz.
    repeat split; try done. exists n. split; [done|]. by right.
  - simpl. unfold bind at 1, ret. rewrite Hz. intros _ _.
    apply Z.eqb_neq in Hz. repeat split; try done.
    exists siz. split; [done|]. by left.
Qed.

End StoreCalls.

(** C7: when an entry for the key is linked in the table, pending removal
    or not, [kvs_store_value] and [kvs_store_reference] called with a
    value and a size they accept report "key not unique" and leave the
    store as it is: no entry is made, and the entries, the chains, the
    entry count and the buffers stay what they were. *)
Theorem duplicate_key_is_rejected `{Platform} w table t cs k x e val siz nt n :
  wf w table t cs → entry_of w cs k x e →
  val ≠ NULL → settled_size val siz nt n →
  kvs_store_value table k val siz nt w =
    Some (tt, with_status w (Some KVS_STATUS_KEY_NOT_UNIQUE)) ∧
  kvs_store_reference table k val siz nt w =
    Some (tt, with_status w (Some KVS_STATUS_KEY_NOT_UNIQUE)).
Proof.
  intros Hwf Hx Hv Hs.
  pose proof (wf_handle _ _ _ _ Hwf) as Ht.
  pose proof (entry_key_not_zero _ _ _ _ Hwf _ _ _ Hx) as Hk.
  split.
  - rewrite (kvs_store_value_settled _ _ _ _ _ _ _ Ht Hk Hv Hs).
    by eapply store_entry_used.
  - rewrite (kvs_store_reference_settled _ _ _ _ _ _ _ Ht Hk Hv Hs).
    by eapply store_entry_used.
Qed.

(** [entry_of] on a given store, by computation. *)
Lemma entry_of_check w cs k x e :
  bool_decide (x ∈ mjoin cs) && bool_decide (entries w !! x = Some e)
    && (key e =? k) = true →
  entry_of w cs k x e.
Proof.
  intros Hok. apply andb_prop in Hok as [Hok Hk].
  apply andb_prop in Hok as [Hx He].
  split; [|split].
  - apply linked_join. by eapply bool_decide_eq_true_1.
  - by eapply bool_decide_eq_true_1.
  - by apply Z.eqb_eq.
Qed.

Lemma duplicate_key_is_rejected_witness :
  kvs_store_value (H := lp64) 1000 7 200 2 false one_reference_world =
    Some (tt, with_status one_reference_world
                (Some KVS_STATUS_KEY_NOT_UNIQUE)) ∧
  kvs_store_reference (H := lp64) 1000 7 200 0 true one_reference_world =
    Some (tt, with_status one_reference_world
                (Some KVS_STATUS_KEY_NOT_UNIQUE)).
Proof.
  split.
  - apply (duplicate_key_is_rejected (H := lp64) one_reference_world 1000
             one_reference_table [[]; []; []; [1001]] 7 1001
             (Entry 7 100 2 0 1 false false) 200 2 false 2).
    + apply wf_check_sound. vm_compute. reflexivity.
    + apply entry_of_check. vm_compute. reflexivity.
    + discriminate.
    + split; [discriminate|]. left. split; [discriminate|reflexivity].
  - apply (duplicate_key_is_rejected (H := lp64) one_reference_world 1000
             one_reference_table [[]; []; []; [1001]] 7 1001
             (Entry 7 100 2 0 1 false false) 200 0 true 1).
    + apply wf_check_sound. vm_compute. reflexivity.
    + apply entry_of_check. vm_compute. reflexivity.
    + discriminate.
    + split; [discriminate|]. right. repeat split.
Defined.

(** ** What a store function leaves behind *)

Section StorePreserves.

Context `{Platform}.
Context (w : world) (table : Z) (t : kvs_table_s) (cs : list (list Z)).
Context (Hwf : wf w table t cs).

Lemma with_ref_makes_entry k val siz nt :
  makes_entry (_kvs_new_entry_with_ref k val siz nt) w k.
Proof.
  intros n st w1. destruct (wf_brk _ _ _ _ Hwf) as [Hb0 Hb].
  destruct (granted w) as [s|] eqn:Hg.
  - rewrite (new_entry_with_ref_granted _ _ _ _ _ _ Hg)
      by (unfold NULL; lia).
    intros [= <- <- <-]. simpl. split; [done|]. right.
    repeat split; [lia|]. by exists val, siz, nt.
  - rewrite (new_entry_with_ref_refused _ _ _ _ _ Hg).
    intros [= <- <- <-]. simpl. split; [done|]. left.
    repeat split; try done; lia.
Qed.

Lemma brk_fresh : entries w !! brk w = None.
Proof.
  destruct (wf_brk _ _ _ _ Hwf) as [Hb0 Hb].
  destruct (entries w !! brk w) as [e|] eqn:He; [|done].
  pose proof (Hb _ _ He). lia.
Qed.

Lemma with_copy_makes_entry k val siz nt :
  makes_entry (_kvs_new_entry_with_copy k val siz nt) w k.
Proof.
  intros n st w1 Hrun. destruct (wf_brk _ _ _ _ Hwf) as [Hb0 Hb].
  destruct (new_entry_with_copy_result _ _ _ _ _ _ _ _ Hb0 brk_fresh Hrun)
    as [Ht [Hn|(Hn & Hlt & He)]].
  - split; [done|]. by left.
  - split; [done|]. right. repeat split; try done.
    by exists (brk w + 1), siz, nt.
Qed.

(** With an unused key, [store_entry] is undefined where [new_entry_with]
    is. *)
Lemma store_entry_undefined new_entry_with k :
  unused_key w cs k → new_entry_with w = None →
  store_entry new_entry_with table k w = None.
Proof.
  intros Hun Hnew.
  pose proof (wf_table _ _ _ _ Hwf) as Ht.
  pose proof (wf_bucket_count _ _ _ _ Hwf) as Hbc.
  unfold store_entry.
  run (bucket_index_run _ _ k _ Ht ltac:(lia)).
  destruct (bucket_of_key w table t cs Hwf k) as (head & l & Hh & Hl & Hch & Hnd).
  run (read_bucket_run _ _ _ _ _ Ht Hh).
  destruct (head =? NULL) eqn:Hhead.
  { unfold bind. by rewrite Hnew. }
  apply Z.eqb_neq in Hhead.
  assert (l ≠ []) as Hne.
  { intros Hnil. by apply (is_chain_nil_iff _ _ _ Hch) in Hnil. }
  destruct (walk_prev_spec _ k _ (chain_fuel w) head head Hch Hne
              (chain_fuel_enough _ _ _ Hch Hnd))
    as (l1 & y & l2 & ey & -> & Hey & Habs & _ & Hwalk & Hcase).
  run (walk_chain_run _ _ _ _ Hwalk).
  run (the_entry_run _ _ _ Hey).
  assert (key ey ≠ k) as Hky.
  { eapply Hun; [|done]. eexists _, _. split; [done|].
    apply elem_of_app. right. by left. }
  rewrite (proj2 (Z.eqb_neq _ _) Hky). simpl negb. cbv iota.
  unfold bind. by rewrite Hnew.
Qed.

(** Whatever [store_entry] returns, the table stays well formed; the
    entries linked before are linked after, with the count and the mark
    they had, and an entry linked by the call has count one and no mark. *)
Lemma store_entry_preserves new_entry_with k w' :
  k ≠ 0 → makes_entry new_entry_with w k →
  store_entry new_entry_with table k w = Some (tt, w') →
  ∃ t' cs',
    wf w' table t' cs' ∧
    ∀ x e', linked cs' x → entries w' !! x = Some e' →
      (∃ e, linked cs x ∧ entries w !! x = Some e ∧
            ref_count e' = ref_count e ∧
            marked_for_removal e' = marked_for_removal e)
      ∨ (ref_count e' = 1 ∧ marked_for_removal e' = false).
Proof.
  intros Hk0 Hmk Hrun.
  destruct (find_entry_spec w table t cs Hwf k)
    as [(x & e & Hx & _)|[Hun _]].
  { rewrite (store_entry_used _ _ _ _ Hwf _ _ _ _ Hx) in Hrun.
    injection Hrun as <-. exists t, cs. split; [by apply wf_with_status|].
    intros y ey Hy Hey. left. by exists ey. }
  destruct (new_entry_with w) as [[[n st] w1]|] eqn:Hnew.
  2: { by rewrite (store_entry_undefined _ _ Hun Hnew) in Hrun. }
  destruct (Hmk n st w1 Hnew) as [Htb [(-> & Hent & Hbrk)|(-> & Hbrk & Hent)]].
  - rewrite (store_entry_failed _ _ _ _ Hwf _ _ _ _ Hun Hnew) in Hrun.
    injection Hrun as <-. exists t, cs. split.
    + destruct (wf_brk _ _ _ _ Hwf) as [Hb0 Hb].
      eapply wf_update; try done; simpl.
      * rewrite Htb. apply (wf_table _ _ _ _ Hwf).
      * apply (wf_cache _ _ _ _ Hwf).
      * intros y ey _ Hey. exists ey. by rewrite Hent.
      * split; [lia|]. intros a ea. rewrite Hent. intros Ha.
        pose proof (Hb _ _ Ha). lia.
    + intros y ey Hy Hey. left. exists ey. simpl in Hey.
      by rewrite Hent in Hey.
  - destruct Hent as (val & siz & nt & Hent).
    destruct (wf_brk _ _ _ _ Hwf) as [Hb0 Hb].
    destruct (store_entry_linked _ _ _ _ Hwf new_entry_with k (brk w) st w1
                (new_entry_value k val siz nt) Hun Hk0 Hnew)
      as (w'' & t' & l & Hrun' & Hl & Hwf' & _ & _ & _ & _ & _ & _ & _ & Hn
          & Hframe); try done.
    + unfold NULL. lia.
    + apply brk_fresh.
    + split; [lia|]. intros a ea. rewrite Hent.
      destruct (decide (a = brk w)) as [->|Hne]; [lia|].
      rewrite lookup_insert_ne by done. intros Ha.
      pose proof (Hb _ _ Ha). lia.
    + rewrite Hrun' in Hrun. injection Hrun as <-.
      eexists _, _. split; [exact Hwf'|].
      intros y ey' Hy Hey'.
      destruct (decide (y = brk w)) as [->|Hne].
      * right. rewrite Hn in Hey'. by injection Hey' as <-.
      * left. apply (linked_insert _ _ _ _ _ Hl) in Hy.
        assert (linked cs y) as Hyc.
        { destruct Hy as [Hy|(j & lj & _ & Hj & Hy)].
          - apply elem_of_app in Hy as [Hy|Hy].
            + by eexists _, l.
            + by apply list_elem_of_singleton in Hy.
          - by exists j, lj. }
        destruct (linked_allocated _ _ _ _ Hwf y Hyc) as [_ [ey Hey]].
        destruct (Hframe y ey Hne Hey) as (ey'' & Hey'' & Heq).
        exists ey. repeat split; try done.
        -- assert (ey' = ey'') as -> by congruence. by rewrite Heq.
        -- assert (ey' = ey'') as -> by congruence. by rewrite Heq.
Qed.

End StorePreserves.

Section StoreReference.

Context `{Platform}.
Context (w : world) (table : Z) (t : kvs_table_s) (cs : list (list Z)).
Context (Hwf : wf w table t cs).

(** A call of [kvs_store_reference] that reports success: the key was not
    in use, and the new entry is linked with the pointer passed, the size
    settled on, count one and no mark. *)
Lemma kvs_store_reference_success k val siz nt w1 :
  kvs_store_reference table k val siz nt w = Some (tt, w1) →
  status w1 = Some KVS_STATUS_SUCCESS →
  ∃ n t' cs',
    settled_size val siz nt n ∧ unused_key w cs k ∧
    wf w1 table t' cs' ∧
    entry_of w1 cs' k (brk w) (new_entry_value k val n nt).
Proof.
  intros Hrun Hst.
  destruct (kvs_store_reference_rejected _ _ _ _ _ _ _ Hrun Hst)
    as (Ht & Hk & Hv & n & Hn).
  rewrite (kvs_store_reference_settled _ _ _ _ _ _ _ Ht Hk Hv Hn) in Hrun.
  exists n.
  destruct (find_entry_spec w table t cs Hwf k)
    as [(x & e & Hx & _)|[Hun _]].
  { rewrite (store_entry_used _ _ _ _ Hwf _ _ _ _ Hx) in Hrun.
    injection Hrun as <-. simpl in Hst. discriminate. }
  destruct (wf_brk _ _ _ _ Hwf) as [Hb0 Hb].
  destruct (granted w) as [s|] eqn:Hg.
  2: { pose proof (new_entry_with_ref_refused k val n nt _ Hg) as Hnew.
       rewrite (store_entry_failed _ _ _ _ Hwf _ _ _ _ Hun Hnew) in Hrun.
       injection Hrun as <-. simpl in Hst. discriminate. }
  assert (brk w ≠ NULL) as Hnn by (unfold NULL; lia).
  pose proof (new_entry_with_ref_granted k val n nt _ _ Hg Hnn) as Hnew.
  destruct (store_entry_linked _ _ _ _ Hwf _ k (brk w) _ _
              (new_entry_value k val n nt) Hun Hk Hnew)
    as (w'' & t' & l & Hrun' & Hl & Hwf' & _ & _ & _ & _ & _ & _ & _ & Hen
        & _); try done.
  - by eapply brk_fresh.
  - simpl. split; [lia|]. intros a ea.
    destruct (decide (a = brk w)) as [->|Hne]; [lia|].
    rewrite lookup_insert_ne by done. intros Ha.
    pose proof (Hb _ _ Ha). lia.
  - rewrite Hrun' in Hrun. injection Hrun as <-.
    eexists _, _. split; [done|]. split; [done|]. split; [exact Hwf'|].
    split; [|done].
    apply (linked_insert _ _ _ _ _ Hl). left. apply elem_of_app.
    right. by left.
Qed.

End StoreReference.

(** ** Retrieval by reference *)

(** C4: after [kvs_store_reference(k, v, size = N, null_terminated = false)]
    has reported success, [kvs_reference_for_key(k)] returns the pointer
    [v] itself, and [kvs_reference_count_for_key(k)] then returns 2. *)
Theorem stored_reference_is_returned `{Platform} w table t cs k v N w1 :
  wf w table t cs →
  kvs_store_reference table k v N false w = Some (tt, w1) →
  status w1 = Some KVS_STATUS_SUCCESS →
  ∃ w2 w3,
    kvs_reference_for_key table k w1 = Some (v, w2) ∧
    status w2 = Some KVS_STATUS_SUCCESS ∧
    kvs_reference_count_for_key table k w2 = Some (2, w3).
Proof.
  intros Hwf Hrun Hst.
  destruct (kvs_store_reference_success _ _ _ _ Hwf _ _ _ _ _ Hrun Hst)
    as (n & t' & cs' & _ & _ & Hwf1 & Hx).
  pose proof (kvs_reference_for_key_found _ _ _ _ Hwf1 _ _ _ Hx) as Href.
  simpl in Href.
  eexists _, _. split; [exact Href|]. split; [done|].
  pose proof (referenced_world_wf _ _ _ _ Hwf1 _ _ _ Hx) as Hwf2.
  destruct Hx as (Hl & He & Hk).
  pose proof word_modulus_min as Hwm.
  pose proof cardinal_modulus_min as Hcm.
  assert (entry_of (referenced_world w1 table t' (brk w)
                      (new_entry_value k v n false)) cs' k (brk w)
            (set_ref_count (new_entry_value k v n false) 2)) as Hx2.
  { split; [done|]. split; [|done]. simpl.
    rewrite (Z.mod_small (1 + 1)) by lia. apply lookup_insert_eq. }
  rewrite (kvs_reference_count_for_key_found _ _ _ _ Hwf2 _ _ _ Hx2).
  simpl. by rewrite Z.mod_small by lia.
Qed.

Lemma stored_reference_is_returned_witness :
  ∃ w2 w3,
    kvs_reference_for_key (H := lp64) 1000 7 one_reference_world
      = Some (100, w2) ∧
    status w2 = Some KVS_STATUS_SUCCESS ∧
    kvs_reference_count_for_key (H := lp64) 1000 7 w2 = Some (2, w3).
Proof.
  apply (stored_reference_is_returned (H := lp64) new_table_world 1000
           (Table 0 0 4 [0; 0; 0; 0]) [[]; []; []; []] 7 100 2
           one_reference_world).
  - apply wf_check_sound. vm_compute. reflexivity.
  - vm_compute. reflexivity.
  - reflexivity.
Defined.

(** On the table with key [7] stored once, the count of the entry is [1]
    before [kvs_reference_for_key(7)] and [2] after it. *)
Lemma reference_for_key_changes_count :
  ¬ reference_for_key_keeps_count (H := lp64).
Proof.
  intros Hkeep.
  destruct (Hkeep one_reference_world 1000 one_reference_table
              [[]; []; []; [1001]] 7 1001 (Entry 7 100 2 0 1 false false) 100
              (after (kvs_reference_for_key (H := lp64) 1000 7)
                 one_reference_world))
    as (e' & He' & Hrc).
  - apply wf_check_sound. vm_compute. reflexivity.
  - apply entry_of_check. vm_compute. reflexivity.
  - reflexivity.
  - vm_compute. reflexivity.
  - vm_compute. reflexivity.
  - vm_compute in He'. injection He' as <-. simpl in Hrc. discriminate.
Qed.

(** C3 (as the code has it): [kvs_reference_for_key] on a live entry
    returns the pointer to the entry's value and adds one to its reference
    count (wrapping around in [word_t]), and leaves the entry in the
    cache; [kvs_get_entry] with [copy == false] does the same and also
    passes back the size and the null-terminated flag.  The two do not
    differ in what they do to the count. *)
Theorem reference_retrieval_increments `{Platform} w table t cs k x e :
  wf w table t cs → entry_of w cs k x e → marked_for_removal e = false →
  kvs_reference_for_key table k w =
    Some (value e, referenced_world w table t x e) ∧
  (∀ g, kvs_get_entry table false k g w =
          Some ((value e, Some (size e), Some (null_terminated e)),
                referenced_world w table t x e)) ∧
  entries (referenced_world w table t x e) !! x =
    Some (set_ref_count e ((ref_count e + 1) mod word_modulus)) ∧
  status (referenced_world w table t x e) = Some KVS_STATUS_SUCCESS.
Proof.
  intros Hwf Hx Hm. split; [|split; [|split]].
  - rewrite (kvs_reference_for_key_found _ _ _ _ Hwf _ _ _ Hx).
    by rewrite Hm.
  - intros g. rewrite (kvs_get_entry_reference_found _ _ _ _ Hwf _ g _ _ Hx).
    by rewrite Hm.
  - simpl. apply lookup_insert_eq.
  - done.
Qed.

Lemma reference_retrieval_increments_witness :
  kvs_reference_for_key (H := lp64) 1000 7 one_reference_world =
    Some (100, referenced_world (H := lp64) one_reference_world 1000
                 one_reference_table 1001 (Entry 7 100 2 0 1 false false)) ∧
  entries (referenced_world (H := lp64) one_reference_world 1000
             one_reference_table 1001 (Entry 7 100 2 0 1 false false))
    !! 1001 = Some (Entry 7 100 2 0 2 false false).
Proof.
  destruct (reference_retrieval_increments (H := lp64) one_reference_world
              1000 one_reference_table [[]; []; []; [1001]] 7 1001
              (Entry 7 100 2 0 1 false false)) as (Href & _ & He & _).
  - apply wf_check_sound. vm_compute. reflexivity.
  - apply entry_of_check. vm_compute. reflexivity.
  - reflexivity.
  - split; [exact Href|exact He].
Defined.

(** ** Disposal *)

(** C2 (what the code does instead): the loop of [kvs_dispose_table] runs
    [index] up to [entry_count], not up to [bucket_count].  With one entry
    in bucket 3 of 4 it looks at bucket 0 only: the table base is freed and
    success is reported while the entry at [1001] stays allocated.  With two
    entries in a table of one bucket it reads [bucket[1]], outside the
    array. *)
Theorem dispose_table_counts_entries :
  (∃ w', kvs_dispose_table (H := lp64) 1000 one_reference_world
           = Some (tt, w') ∧
         status w' = Some KVS_STATUS_SUCCESS ∧
         tables w' !! 1000 = None ∧
         entries w' !! 1001 = entries one_reference_world !! 1001 ∧
         is_Some (entries w' !! 1001)) ∧
  kvs_dispose_table (H := lp64) 1000 one_bucket_world = None.
Proof.
  split.
  - eexists. split; [vm_compute; reflexivity|].
    repeat split; try (vm_compute; reflexivity).
    eexists. vm_compute. reflexivity.
  - vm_compute. reflexivity.
Qed.

(** ** Retrieval by copy *)

(** C1 (what the code does instead): [_kvs_retrieve_copy] copies from
    [new_entry->value], where [new_entry] is a local that is never
    assigned, not from [entry->value].  On the table of one bucket with
    ["Hi"] stored by value under key [1] and ["Yo"] under key [2]:
    where that local happens to hold the address of the entry of key [1],
    [kvs_value_for_key(2)] reports success and returns a new buffer that
    holds ["Hi"], not the ["Yo"] stored under key [2]; where it holds
    [NULL], or an address that is not an entry, the call is undefined. *)
Theorem value_for_key_copies_from_unset_pointer :
  (∃ p w',
     kvs_value_for_key (H := lp64) 1000 2 1001 one_bucket_world
       = Some (p, w') ∧
     status w' = Some KVS_STATUS_SUCCESS ∧
     octets one_bucket_world !! p = None ∧
     take 2 <$> octets w' !! p = Some [72; 105] ∧
     (∃ e, entries one_bucket_world !! 1003 = Some e ∧ key e = 2 ∧
           take 2 <$> octets one_bucket_world !! value e = Some [89; 111])) ∧
  kvs_value_for_key (H := lp64) 1000 2 NULL one_bucket_world = None ∧
  kvs_value_for_key (H := lp64) 1000 2 5000 one_bucket_world = None.
Proof.
  split; [|split].
  - eexists _, _. split; [vm_compute; reflexivity|].
    repeat split; try (vm_compute; reflexivity).
    eexists. split; [vm_compute; reflexivity|].
    split; vm_compute; reflexivity.
  - vm_compute. reflexivity.
  - vm_compute. reflexivity.
Qed.

(** The copy loops run while [index <= size], one octet further than the
    [size] octets asked of [ALLOCATE]: with storage of exactly the size
    asked for, [kvs_store_value] writes outside its new buffer. *)
Lemma store_value_overruns_exact_storage :
  kvs_store_value (H := lp64) 1000 1 100 2 false
    (World (tables new_table_world) (entries new_table_world)
       (octets new_table_world) (brk new_table_world)
       [Some 0%nat; Some 0%nat] None) = None.
Proof. vm_compute. reflexivity. Qed.

(** ** The size of null-terminated data *)

(** C8 (what the code does instead): [_kvs_calc_null_terminated_data_size]
    scans [(octet_t * ) &data], the octets of the pointer passed, not the
    octets it points at.  On 64-bit little-endian pointers: the buffer at
    [256] holds ["Hi"] and its terminator at index 2, but the pointer [256]
    has a zero octet first, so [kvs_store_value] with size [0] and
    [null_terminated] reports "invalid size" and stores nothing; the buffer
    at [100] holds the same, and the pointer [100] has its first zero octet
    at index 1, so [kvs_store_reference] stores the entry with size 1. *)
Theorem null_terminated_size_is_of_the_pointer :
  (λ payload, payload_terminator payload 0)
    <$> octets new_table_world !! 256 = Some (Some 2) ∧
  kvs_store_value (H := lp64) 1000 1 256 0 true new_table_world =
    Some (tt, with_status new_table_world (Some KVS_STATUS_INVALID_SIZE)) ∧
  (λ payload, payload_terminator payload 0)
    <$> octets new_table_world !! 100 = Some (Some 2) ∧
  (∃ w', kvs_store_reference (H := lp64) 1000 1 100 0 true new_table_world
           = Some (tt, w') ∧
         status w' = Some KVS_STATUS_SUCCESS ∧
         size <$> entries w' !! 1001 = Some 1).
Proof.
  split; [vm_compute; reflexivity|].
  split; [vm_compute; reflexivity|].
  split; [vm_compute; reflexivity|].
  eexists. split; [vm_compute; reflexivity|].
  split; vm_compute; reflexivity.
Qed.

(** The size counted does not depend on what is stored anywhere. *)
Lemma null_terminated_size_ignores_the_store `{Platform} data w w' :
  outcome (_kvs_calc_null_terminated_data_size data w)
  = outcome (_kvs_calc_null_terminated_data_size data w').
Proof.
  unfold _kvs_calc_null_terminated_data_size.
  by destruct (scan_octets (pointer_octets data) 0).
Qed.

(** ** Allocation failure *)

Section Refused.

Context `{Platform}.
Context (w : world) (table : Z) (t : kvs_table_s) (cs : list (list Z)).
Context (Hwf : wf w table t cs).

Lemma retrieve_copy_refused x e g w0 :
  entries w0 !! x = Some e → granted w0 = None →
  _kvs_retrieve_copy x g w0 =
    Some (NULL, with_status (after_grant w0)
                  (Some KVS_STATUS_ALLOCATION_FAILED)).
Proof.
  intros He Hg. unfold _kvs_retrieve_copy.
  run (the_entry_run _ _ _ He).
  by run (ALLOCATE_octets_refused (size e) _ Hg).
Qed.

Lemma kvs_value_for_key_refused k x e g :
  entry_of w cs k x e → marked_for_removal e = false → size e ≠ 0 →
  granted w = None →
  kvs_value_for_key table k g w =
    Some (NULL, with_status (after_grant (found_world w table t x))
                  (Some KVS_STATUS_ALLOCATION_FAILED)).
Proof.
  intros Hx Hm Hs Hg. unfold kvs_value_for_key.
  rewrite (table_not_null _ _ _ _ Hwf).
  run (find_entry_found _ _ _ _ Hwf _ _ _ Hx).
  rewrite (entry_not_null _ _ _ _ Hwf _ _ _ Hx).
  destruct Hx as (_ & He & _).
  run (found_world_entry w table t x _ _ He).
  rewrite Hm, (proj2 (Z.eqb_neq _ _) Hs).
  by apply (retrieve_copy_refused x e).
Qed.

Lemma kvs_get_entry_copy_refused k x e g :
  entry_of w cs k x e → marked_for_removal e = false → size e ≠ 0 →
  granted w = None →
  kvs_get_entry table true k g w =
    Some ((NULL, Some (size e), Some (null_terminated e)),
          with_status (after_grant (found_world w table t x))
            (Some KVS_STATUS_ALLOCATION_FAILED)).
Proof.
  intros Hx Hm Hs Hg. unfold kvs_get_entry.
  rewrite (table_not_null _ _ _ _ Hwf).
  run (find_entry_found _ _ _ _ Hwf _ _ _ Hx).
  rewrite (entry_not_null _ _ _ _ Hwf _ _ _ Hx).
  destruct Hx as (_ & He & _).
  run (found_world_entry w table t x _ _ He).
  rewrite Hm, (proj2 (Z.eqb_neq _ _) Hs).
  erewrite bind_run; [|by apply (retrieve_copy_refused x e)].
  done.
Qed.

End Refused.

(** On the table with key [7] stored once and an allocator that refuses,
    [kvs_value_for_key(7)] reports the failed allocation and returns
    [NULL], and the lookup cache, empty before the call, points at the
    entry [1001] after it. *)
Lemma failed_copy_changes_cache : ¬ failed_copy_keeps_table (H := lp64).
Proof.
  intros Hkeep.
  destruct (Hkeep (exhausted one_reference_world) 1000 one_reference_table
              [[]; []; []; [1001]] 7 1001 (Entry 7 100 2 0 1 false false) 0)
    as (w' & Hrun & _ & Htb & _).
  - apply wf_check_sound. vm_compute. reflexivity.
  - apply entry_of_check. vm_compute. reflexivity.
  - reflexivity.
  - discriminate.
  - reflexivity.
  - vm_compute in Hrun. injection Hrun as <-.
    assert (last_retrieved_entry <$> tables (exhausted one_reference_world)
              !! 1000 = Some 0) as Hc by (vm_compute; reflexivity).
    rewrite <- Htb in Hc. vm_compute in Hc. discriminate.
Qed.

(** C9 (as the code has it): where an allocation is refused, the call
    reports "allocation failed" and the entries, the chains, the buckets,
    the entry count and the buffers are as before the call: the store
    functions leave the whole table base alone, also where the entry was
    allocated and the storage for the copy was not; the retrievals by copy
    return [NULL] and leave the entry they looked up in the lookup cache. *)
Theorem allocation_failure_is_rolled_back `{Platform} w table t cs :
  wf w table t cs →
  (∀ k val siz nt n,
     k ≠ 0 → val ≠ NULL → settled_size val siz nt n → unused_key w cs k →
     (granted w = None →
        failed_leaving (kvs_store_value table k val siz nt w) tt (tables w) w ∧
        failed_leaving (kvs_store_reference table k val siz nt w) tt
          (tables w) w) ∧
     (is_Some (granted w) → granted (after_grant w) = None →
        failed_leaving (kvs_store_value table k val siz nt w) tt (tables w) w))
  ∧
  (∀ k x e g,
     entry_of w cs k x e → marked_for_removal e = false → size e ≠ 0 →
     granted w = None →
     failed_leaving (kvs_value_for_key table k g w) NULL
       (<[table := set_last_retrieved_entry t x]> (tables w)) w ∧
     failed_leaving (kvs_get_entry table true k g w)
       (NULL, Some (size e), Some (null_terminated e))
       (<[table := set_last_retrieved_entry t x]> (tables w)) w).
Proof.
  intros Hwf. pose proof (wf_handle _ _ _ _ Hwf) as Ht. split.
  - intros k val siz nt n Hk Hv Hs Hun. split.
    + intros Hg. split.
      * rewrite (kvs_store_value_settled _ _ _ _ _ _ _ Ht Hk Hv Hs).
        pose proof (new_entry_with_copy_refused k val n nt _ Hg) as Hnew.
        rewrite (store_entry_failed _ _ _ _ Hwf _ _ _ _ Hun Hnew).
        by eexists.
      * rewrite (kvs_store_reference_settled _ _ _ _ _ _ _ Ht Hk Hv Hs).
        pose proof (new_entry_with_ref_refused k val n nt _ Hg) as Hnew.
        rewrite (store_entry_failed _ _ _ _ Hwf _ _ _ _ Hun Hnew).
        by eexists.
    + intros [s Hg] Hg2.
      rewrite (kvs_store_value_settled _ _ _ _ _ _ _ Ht Hk Hv Hs).
      destruct (wf_brk _ _ _ _ Hwf) as [Hb0 _].
      assert (brk w ≠ NULL) as Hnn by (unfold NULL; lia).
      pose proof (new_entry_with_copy_refused_second k val n nt _ _ Hg Hg2
                    Hnn (brk_fresh _ _ _ _ Hwf)) as Hnew.
      rewrite (store_entry_failed _ _ _ _ Hwf _ _ _ _ Hun Hnew).
      by eexists.
  - intros k x e g Hx Hm Hs Hg. split.
    + rewrite (kvs_value_for_key_refused _ _ _ _ Hwf _ _ _ _ Hx Hm Hs Hg).
      by eexists.
    + rewrite (kvs_get_entry_copy_refused _ _ _ _ Hwf _ _ _ _ Hx Hm Hs Hg).
      by eexists.
Qed.

(** [unused_key] on a given store, by computation. *)
Lemma unused_key_check w cs k :
  forallb (fun x => negb (key_at (entries w) x =? k)) (mjoin cs) = true →
  unused_key w cs k.
Proof.
  intros Hok x e Hx He. rewrite forallb_forall in Hok.
  apply linked_join, list_elem_of_In in Hx. specialize (Hok x Hx).
  unfold key_at in Hok. rewrite He in Hok.
  by apply negb_true_iff, Z.eqb_neq in Hok.
Qed.

Lemma allocation_failure_is_rolled_back_witness :
  failed_leaving
    (kvs_value_for_key (H := lp64) 1000 7 0 (exhausted one_reference_world))
    NULL
    (<[1000 := set_last_retrieved_entry one_reference_table 1001]>
       (tables one_reference_world))
    one_reference_world ∧
  failed_leaving
    (kvs_store_reference (H := lp64) 1000 3 200 2 false
       (exhausted one_reference_world))
    tt (tables one_reference_world) one_reference_world ∧
  failed_leaving
    (kvs_store_value (H := lp64) 1000 3 200 2 false
       (nearly_exhausted one_reference_world))
    tt (tables one_reference_world) one_reference_world.
Proof.
  assert (settled_size (H := lp64) 200 2 false 2) as Hs.
  { split; [discriminate|]. left. split; [discriminate|reflexivity]. }
  destruct (allocation_failure_is_rolled_back (H := lp64)
              (exhausted one_reference_world) 1000 one_reference_table
              [[]; []; []; [1001]]) as [Hstore Hcopy].
  { apply wf_check_sound. vm_compute. reflexivity. }
  destruct (allocation_failure_is_rolled_back (H := lp64)
              (nearly_exhausted one_reference_world) 1000 one_reference_table
              [[]; []; []; [1001]]) as [Hstore' _].
  { apply wf_check_sound. vm_compute. reflexivity. }
  split; [|split].
  - refine (proj1 (Hcopy 7 1001 (Entry 7 100 2 0 1 false false) 0 _ _ _ _));
      try done.
    apply entry_of_check. vm_compute. reflexivity.
  - refine (proj2 (proj1 (Hstore 3 200 2 false 2 _ _ Hs _) _)); try done.
    apply unused_key_check. vm_compute. reflexivity.
  - refine (proj2 (Hstore' 3 200 2 false 2 _ _ Hs _) _ _); try done.
    apply unused_key_check. vm_compute. reflexivity.
Defined.

(** ** Deferred removal *)

(** The second release of an entry marked for removal runs
    [_kvs_dispose_entry], which hands [entry->value] to [DEALLOCATE]
    whether the table owns it or not.  On the table whose key [7] was
    stored by reference to the caller's storage at [300] the calls up to
    the first release go as the claim says, and the second release is
    undefined. *)
Lemma deferred_removal_of_a_borrowed_value :
  ¬ deferred_removal_always_completes (H := lp64).
Proof.
  intros Hclaim.
  destruct (Hclaim borrowed_value_world 1000
              (Table 1001 1 4 [0; 0; 0; 1001]) [[]; []; []; [1001]] 7 1001
              (Entry 7 300 2 0 3 false false))
    as (w1 & w2 & w3 & w4 & w5 & w6 & H1 & H2 & H3 & H4 & H5 & _).
  - apply wf_check_sound. vm_compute. reflexivity.
  - apply entry_of_check. vm_compute. reflexivity.
  - reflexivity.
  - vm_compute in H1. injection H1 as <-.
    vm_compute in H2. injection H2 as <-.
    vm_compute in H3. injection H3 as <-.
    vm_compute in H4. injection H4 as <-.
    vm_compute in H5. discriminate H5.
Qed.

(** C5 (as the code has it): for a linked entry with reference count 3,
    whose value pointer is [NULL] or points at a buffer that exists,
    [kvs_entry_exists(k)] returns [true] before the removal exactly if the
    entry is not yet marked, and [kvs_remove_entry(k)] leaves the entry
    linked; after it
    [kvs_entry_exists(k)] returns [false] while [kvs_size_for_key(k)]
    returns the size of the entry; the first [kvs_release_entry(k)] brings
    the count to 2 and leaves the entry linked, the second one frees it,
    takes it out of its chain and takes one off the entry count; and
    [kvs_size_for_key(k)] then returns 0. *)
Theorem deferred_removal_completes `{Platform} w table t cs k x e :
  wf w table t cs → entry_of w cs k x e → ref_count e = 3 →
  value e = NULL ∨ is_Some (octets w !! value e) →
  ∃ w0 w1 w2 w3 w4 w5 w6 t4 t5 cs5,
    kvs_entry_exists table k w = Some (negb (marked_for_removal e), w0) ∧
    kvs_remove_entry table k w = Some (tt, w1) ∧
    kvs_entry_exists table k w1 = Some (false, w2) ∧
    kvs_size_for_key table k w2 = Some (size e, w3) ∧
    kvs_release_entry table k w3 = Some (tt, w4) ∧
    wf w4 table t4 cs ∧
    ref_count <$> entries w4 !! x = Some 2 ∧
    kvs_release_entry table k w4 = Some (tt, w5) ∧
    wf w5 table t5 cs5 ∧
    entries w5 !! x = None ∧ ¬ linked cs5 x ∧
    entry_count t5 = (entry_count t - 1) mod cardinal_modulus ∧
    kvs_size_for_key table k w5 = Some (0, w6).
Proof.
  intros Hwf Hx Hrc Hoc.
  pose proof word_modulus_min as Hwm.
  (* kvs_remove_entry marks the entry *)
  set (e1 := set_marked_for_removal e true).
  pose proof (kvs_remove_entry_marks _ _ _ _ Hwf _ _ _ Hx ltac:(lia)) as Hrun1.
  pose proof (marked_world_wf _ _ _ _ Hwf _ _ _ (Some KVS_STATUS_SUCCESS) Hx)
    as Hwf1.
  fold e1 in Hrun1, Hwf1.
  set (w1 := World (tables w) (<[x := e1]> (entries w)) (octets w) (brk w)
               (grants w) (Some KVS_STATUS_SUCCESS)) in *.
  assert (entry_of w1 cs k x e1) as Hx1.
  { destruct Hx as (Hl & He & Hk). split; [done|]. split; [|done].
    apply lookup_insert_eq. }
  (* kvs_entry_exists *)
  pose proof (kvs_entry_exists_found _ _ _ _ Hwf1 _ _ _ Hx1) as Hrun2.
  simpl in Hrun2.
  set (t2 := set_last_retrieved_entry t x) in *.
  set (w2 := with_status (found_world w1 table t x)
               (Some KVS_STATUS_ENTRY_PENDING_REMOVAL)) in *.
  assert (wf w2 table t2 cs) as Hwf2.
  { apply wf_with_status. apply found_world_wf; [done|]. by destruct Hx. }
  assert (entry_of w2 cs k x e1) as Hx2.
  { destruct Hx1 as (Hl & He & Hk). by split. }
  (* kvs_size_for_key *)
  pose proof (kvs_size_for_key_found _ _ _ _ Hwf2 _ _ _ Hx2) as Hrun3.
  simpl in Hrun3.
  set (t3 := set_last_retrieved_entry t2 x) in *.
  set (w3 := found_world w2 table t2 x) in *.
  assert (wf w3 table t3 cs) as Hwf3.
  { apply found_world_wf; [done|]. by destruct Hx. }
  assert (entry_of w3 cs k x e1) as Hx3.
  { destruct Hx2 as (Hl & He & Hk). by split. }
  (* the first kvs_release_entry *)
  pose proof (kvs_release_entry_found _ _ _ _ Hwf3 _ _ _ Hx3) as Hrun4.
  simpl in Hrun4. rewrite Hrc in Hrun4.
  change (3 - 1) with 2 in Hrun4. rewrite (Z.mod_small 2) in Hrun4 by lia.
  simpl in Hrun4.
  pose proof (released_world_wf _ _ _ _ Hwf3 _ _ _ Hx3) as Hwf4.
  set (t4 := set_last_retrieved_entry t3 x) in *.
  set (w4 := released_world w3 table t3 x e1) in *.
  set (e4 := set_ref_count e1 2).
  assert (entry_of w4 cs k x e4) as Hx4.
  { destruct Hx3 as (Hl & He & Hk). split; [done|]. split; [|done].
    unfold w4, released_world. simpl. rewrite Hrc.
    change (3 - 1) with 2. rewrite (Z.mod_small 2) by lia.
    apply lookup_insert_eq. }
  (* the second kvs_release_entry *)
  pose proof (kvs_release_entry_found _ _ _ _ Hwf4 _ _ _ Hx4) as Hrun5.
  simpl in Hrun5. change (2 - 1) with 1 in Hrun5.
  rewrite (Z.mod_small 1) in Hrun5 by lia. simpl in Hrun5.
  pose proof (released_world_wf _ _ _ _ Hwf4 _ _ _ Hx4) as Hwf4'.
  set (w4' := released_world w4 table t4 x e4) in *.
  set (e5 := set_ref_count e4 1).
  assert (entry_of w4' cs k x e5) as Hx4'.
  { destruct Hx4 as (Hl & He & Hk). split; [done|]. split; [|done].
    unfold w4', released_world. simpl. change (2 - 1) with 1.
    rewrite (Z.mod_small 1) by lia. apply lookup_insert_eq. }
  destruct (kvs_remove_entry_frees _ _ _ _ Hwf4' k x e5 Hx4')
    as (w5 & t5 & l1 & l2 & Hrun5' & Hl & Hwf5 & Hgone & Hec & _ & Hframe & _);
    [simpl; lia|exact Hoc|].
  rewrite Hrun5' in Hrun5.
  (* the key is unused in the end *)
  assert (unused_key w5 (<[Z.to_nat (k mod bucket_count
                             (set_last_retrieved_entry t4 x)) := l1 ++ l2]> cs) k)
    as Hun.
  { intros y ey' Hy Hey' Hky.
    apply (linked_unlink _ _ _ _ _ _ _ _ _ Hwf4' Hl) in Hy as [Hyx Hy].
    destruct (linked_allocated _ _ _ _ Hwf4' y Hy) as [_ [ey Hey]].
    destruct (Hframe y ey Hyx Hey) as (ey'' & Hey'' & Heq).
    assert (ey' = ey'') as -> by congruence.
    apply Hyx. destruct Hx4' as (Hlx & Hex & Hkx).
    eapply (wf_unique _ _ _ _ Hwf4'); try done.
    rewrite Hkx, <- Hky, Heq. done. }
  pose proof (kvs_size_for_key_unused _ _ _ _ Hwf5 _ Hun) as Hrun6.
  eexists _, w1, w2, w3, w4, w5. eexists _, t4, t5, _.
  split; [exact (kvs_entry_exists_found _ _ _ _ Hwf _ _ _ Hx)|].
  split; [exact Hrun1|]. split; [exact Hrun2|]. split; [exact Hrun3|].
  split; [exact Hrun4|]. split; [exact Hwf4|].
  split.
  { destruct Hx4 as (_ & -> & _). done. }
  split; [exact Hrun5|]. split; [exact Hwf5|]. split; [exact Hgone|].
  split.
  { intros Hlx. by apply (linked_unlink _ _ _ _ _ _ _ _ _ Hwf4' Hl) in Hlx
      as [? _]. }
  split; [exact Hec|exact Hrun6].
Qed.

Lemma deferred_removal_completes_witness :
  ∃ w0 w1 w2 w3 w4 w5 w6 t4 t5 cs5,
    kvs_entry_exists 1000 7 three_references_world = Some (true, w0) ∧
    kvs_remove_entry (H := lp64) 1000 7 three_references_world
      = Some (tt, w1) ∧
    kvs_entry_exists 1000 7 w1 = Some (false, w2) ∧
    kvs_size_for_key 1000 7 w2 = Some (2, w3) ∧
    kvs_release_entry (H := lp64) 1000 7 w3 = Some (tt, w4) ∧
    wf w4 1000 t4 [[]; []; []; [1001]] ∧
    ref_count <$> entries w4 !! 1001 = Some 2 ∧
    kvs_release_entry (H := lp64) 1000 7 w4 = Some (tt, w5) ∧
    wf w5 1000 t5 cs5 ∧
    entries w5 !! 1001 = None ∧ ¬ linked cs5 1001 ∧
    entry_count t5 = (1 - 1) mod 2 ^ 32 ∧
    kvs_size_for_key 1000 7 w5 = Some (0, w6).
Proof.
  apply (deferred_removal_completes (H := lp64) three_references_world 1000
           (Table 1001 1 4 [0; 0; 0; 1001]) [[]; []; []; [1001]] 7 1001
           (Entry 7 100 2 0 3 false false)).
  - apply wf_check_sound. vm_compute. reflexivity.
  - apply entry_of_check. vm_compute. reflexivity.
  - reflexivity.
  - right. eexists. vm_compute. reflexivity.
Defined.

(** ** The floor of the reference count *)

Section Floor.

Context `{Platform}.

Lemma counted_transfer w cs w' cs' :
  (∀ x e', linked cs' x → entries w' !! x = Some e' →
     (∃ e, linked cs x ∧ entries w !! x = Some e ∧
           ref_count e' = ref_count e ∧
           marked_for_removal e' = marked_for_removal e)
     ∨ (ref_count e' = 1 ∧ marked_for_removal e' = false)) →
  counted w cs → counted w' cs'.
Proof.
  intros Hrel Hc x e' Hx He'. pose proof word_modulus_min as Hwm.
  destruct (Hrel x e' Hx He') as [(e & Hl & He & -> & ->)|[-> ->]].
  - by apply (Hc x e).
  - split; [lia|done].
Qed.

(** A call that leaves the entries alone and at most moves the cache. *)
Lemma floor_same_entries table w w' t cs t' :
  wf w table t cs → counted w cs →
  tables w' !! table = Some t' →
  bucket_count t' = bucket_count t → bucket t' = bucket t →
  (last_retrieved_entry t' = NULL ∨ linked cs (last_retrieved_entry t')) →
  entries w' = entries w → brk w <= brk w' →
  floor_invariant table w'.
Proof.
  intros Hwf Hc Ht' Hbc Hb Hcache Hent Hbrk. exists t', cs. split.
  - destruct (wf_brk _ _ _ _ Hwf) as [Hb0 Hfresh].
    eapply wf_update; try done.
    + intros x e _ He. exists e. by rewrite Hent.
    + split; [lia|]. intros a e. rewrite Hent. intros Ha.
      pose proof (Hfresh _ _ Ha). lia.
  - intros x e Hx He. rewrite Hent in He. by apply (Hc x e).
Qed.

(** The store after a lookup, whichever way it went. *)
Lemma floor_after_find table w t cs k a w' :
  wf w table t cs → counted w cs →
  _kvs_find_entry table k w = Some (a, w') →
  ∃ t', wf w' table t' cs ∧ counted w' cs ∧ entries w' = entries w ∧
        octets w' = octets w ∧ brk w' = brk w ∧ grants w' = grants w ∧
        bucket_count t' = bucket_count t ∧ bucket t' = bucket t ∧
        ((a = NULL ∧ unused_key w cs k)
         ∨ (∃ e, entry_of w cs k a e ∧ a ≠ NULL)).
Proof.
  intros Hwf Hc.
  destruct (find_entry_spec w table t cs Hwf k)
    as [(x & e & Hx & ->)|[Hun ->]]; intros [= <- <-].
  - exists (set_last_retrieved_entry t x).
    split; [apply found_world_wf; [done|by destruct Hx]|].
    split; [exact Hc|]. do 6 (split; [done|]).
    right. exists e. split; [done|].
    destruct Hx as (Hl & _). by destruct (linked_allocated _ _ _ _ Hwf x Hl).
  - exists t. split; [by apply wf_with_status|].
    split; [exact Hc|]. do 6 (split; [done|]). by left.
Qed.

End Floor.

Section FloorCalls.

Context `{Platform}.
Context (table : Z).

(** The end of a computation: only status writes and [ret] are left. *)
Ltac leaf :=
  unfold bind, _kvs_set_status, ret; cbv beta iota; intros [= <- <-].

Lemma retrieve_copy_frame x g w0 p w' :
  _kvs_retrieve_copy x g w0 = Some (p, w') →
  tables w' = tables w0 ∧ entries w' = entries w0 ∧ brk w0 <= brk w'.
Proof.
  unfold _kvs_retrieve_copy. unfold bind at 1, the_entry.
  destruct (entries w0 !! x) as [e|] eqn:He; [|done].
  destruct (granted w0) as [s|] eqn:Hg.
  - run (ALLOCATE_octets_granted (size e) _ _ Hg).
    destruct (brk w0 =? NULL).
    + leaf. simpl. repeat split; try done. lia.
    + unfold bind at 1, the_entry. simpl entries. rewrite He.
      unfold bind at 1, the_entry. simpl entries.
      destruct (entries w0 !! g) as [eg|]; [|done].
      unfold bind at 1.
      destruct (copy_octets _ _ _ _ _ _) as [[[] w2]|] eqn:Hcopy; [|done].
      apply copy_octets_frame in Hcopy as (Ht & Hen & Hb & _).
      leaf. simpl. rewrite Ht, Hen, Hb. simpl.
      repeat split; try done. lia.
  - run (ALLOCATE_octets_refused (size e) _ Hg).
    change (NULL =? NULL) with true. leaf. simpl. repeat split; try done.
Qed.

Lemma floor_entry_exists w k b w' :
  floor_invariant table w →
  kvs_entry_exists table k w = Some (b, w') → floor_invariant table w'.
Proof.
  intros (t & cs & Hwf & Hc). unfold kvs_entry_exists.
  rewrite (table_not_null _ _ _ _ Hwf). unfold bind at 1.
  destruct (_kvs_find_entry table k w) as [[a w1]|] eqn:Hfind; [|done].
  destruct (floor_after_find _ _ _ _ _ _ _ Hwf Hc Hfind)
    as (t1 & Hwf1 & Hc1 & Hen & _ & _ & _ & _ & _ & Hcase).
  destruct Hcase as [[-> _]|(e & (_ & He & _) & Ha)].
  - leaf. by exists t1, cs.
  - rewrite (proj2 (Z.eqb_neq _ _) Ha).
    rewrite <- Hen in He. run (the_entry_run _ _ _ He).
    destruct (marked_for_removal e); leaf.
    + exists t1, cs. split; [by apply wf_with_status|done].
    + by exists t1, cs.
Qed.

(** The three functions that return a field of the entry. *)
Lemma floor_field {A} (field : kvs_entry_s → A) (none : A) w k r w' :
  floor_invariant table w →
  (let* this_entry := _kvs_find_entry table k in
   if negb (this_entry =? NULL) then
     let* e := the_entry this_entry in ret (field e)
   else ret none) w = Some (r, w') →
  floor_invariant table w'.
Proof.
  intros (t & cs & Hwf & Hc). unfold bind at 1.
  destruct (_kvs_find_entry table k w) as [[a w1]|] eqn:Hfind; [|done].
  destruct (floor_after_find _ _ _ _ _ _ _ Hwf Hc Hfind)
    as (t1 & Hwf1 & Hc1 & Hen & _ & _ & _ & _ & _ & Hcase).
  destruct Hcase as [[-> _]|(e & (_ & He & _) & Ha)].
  - leaf. by exists t1, cs.
  - rewrite (proj2 (Z.eqb_neq _ _) Ha). simpl negb. cbv iota.
    rewrite <- Hen in He. run (the_entry_run _ _ _ He).
    leaf. by exists t1, cs.
Qed.

Lemma floor_size_for_key w k r w' :
  floor_invariant table w →
  kvs_size_for_key table k w = Some (r, w') → floor_invariant table w'.
Proof.
  intros Hinv. pose proof Hinv as (t & cs & Hwf & _).
  unfold kvs_size_for_key. rewrite (table_not_null _ _ _ _ Hwf).
  by apply floor_field.
Qed.

Lemma floor_null_terminated w k r w' :
  floor_invariant table w →
  kvs_data_for_key_is_null_terminated table k w = Some (r, w') →
  floor_invariant table w'.
Proof.
  intros Hinv. pose proof Hinv as (t & cs & Hwf & _).
  unfold kvs_data_for_key_is_null_terminated.
  rewrite (table_not_null _ _ _ _ Hwf). by apply floor_field.
Qed.

Lemma floor_reference_count w k r w' :
  floor_invariant table w →
  kvs_reference_count_for_key table k w = Some (r, w') →
  floor_invariant table w'.
Proof.
  intros Hinv. pose proof Hinv as (t & cs & Hwf & _).
  unfold kvs_reference_count_for_key.
  rewrite (table_not_null _ _ _ _ Hwf).
  by apply (floor_field (fun e => ref_count e mod cardinal_modulus)).
Qed.

(** Raising the count of a live entry that has room. *)
Lemma floor_referenced w t cs x e s :
  wf w table t cs → counted w cs →
  linked cs x → entries w !! x = Some e →
  marked_for_removal e = false → ref_count e + 1 < word_modulus →
  floor_invariant table
    (World (tables w)
       (<[x := set_ref_count e ((ref_count e + 1) mod word_modulus)]>
          (entries w))
       (octets w) (brk w) (grants w) s).
Proof.
  intros Hwf Hc Hx He Hm Hroom. exists t, cs. split.
  - apply (wf_entry_update _ _ _ _ x e _ _ _ Hwf He); [|done..].
    apply (wf_table _ _ _ _ Hwf).
  - intros y ey Hy. simpl. destruct (decide (x = y)) as [->|Hne].
    + rewrite lookup_insert_eq. intros [= <-]. simpl. rewrite Hm.
      destruct (Hc y e Hy He) as [Hrc _].
      rewrite Z.mod_small by lia. split; [lia|done].
    + rewrite lookup_insert_ne by done. by apply Hc.
Qed.

Lemma floor_reference_for_key w k r w' :
  floor_invariant table w → count_has_room w (reference_for_key k) →
  kvs_reference_for_key table k w = Some (r, w') →
  floor_invariant table w'.
Proof.
  intros (t & cs & Hwf & Hc) Hroom. unfold kvs_reference_for_key.
  rewrite (table_not_null _ _ _ _ Hwf). unfold bind at 1.
  destruct (_kvs_find_entry table k w) as [[a w1]|] eqn:Hfind; [|done].
  destruct (floor_after_find _ _ _ _ _ _ _ Hwf Hc Hfind)
    as (t1 & Hwf1 & Hc1 & Hen & _ & _ & _ & _ & _ & Hcase).
  destruct Hcase as [[-> _]|(e & (Hl & He & Hk) & Ha)].
  - leaf. exists t1, cs. split; [by apply wf_with_status|done].
  - rewrite (proj2 (Z.eqb_neq _ _) Ha). simpl negb. cbv iota.
    pose proof He as He1. rewrite <- Hen in He1.
    run (the_entry_run _ _ _ He1).
    destruct (marked_for_removal e) eqn:Hm.
    + leaf. exists t1, cs.
      split; [by apply wf_with_status|done].
    + run (write_entry_run a _ e w1 He1). leaf.
      apply (floor_referenced w1 t1 cs a e); try done.
      by apply (Hroom a e).
Qed.

Lemma floor_value_for_key w k g r w' :
  floor_invariant table w →
  kvs_value_for_key table k g w = Some (r, w') → floor_invariant table w'.
Proof.
  intros (t & cs & Hwf & Hc). unfold kvs_value_for_key.
  rewrite (table_not_null _ _ _ _ Hwf). unfold bind at 1.
  destruct (_kvs_find_entry table k w) as [[a w1]|] eqn:Hfind; [|done].
  destruct (floor_after_find _ _ _ _ _ _ _ Hwf Hc Hfind)
    as (t1 & Hwf1 & Hc1 & Hen & _ & _ & _ & _ & _ & Hcase).
  destruct Hcase as [[-> _]|(e & (Hl & He & Hk) & Ha)].
  - leaf. exists t1, cs. split; [by apply wf_with_status|done].
  - rewrite (proj2 (Z.eqb_neq _ _) Ha). simpl negb. cbv iota.
    pose proof He as He1. rewrite <- Hen in He1.
    run (the_entry_run _ _ _ He1).
    destruct (marked_for_removal e) eqn:Hm.
    { leaf. exists t1, cs.
      split; [by apply wf_with_status|done]. }
    destruct (size e =? 0).
    { leaf. exists t1, cs.
      split; [by apply wf_with_status|done]. }
    intros Hcopy. apply retrieve_copy_frame in Hcopy as (Htb & Hent & Hbrk).
    eapply (floor_same_entries _ w1); try done.
    + rewrite Htb. apply (wf_table _ _ _ _ Hwf1).
    + apply (wf_cache _ _ _ _ Hwf1).
Qed.

Lemma floor_get_entry w copy k g r w' :
  floor_invariant table w → count_has_room w (get_entry copy k g) →
  kvs_get_entry table copy k g w = Some (r, w') → floor_invariant table w'.
Proof.
  intros (t & cs & Hwf & Hc) Hroom. unfold kvs_get_entry.
  rewrite (table_not_null _ _ _ _ Hwf). unfold bind at 1.
  destruct (_kvs_find_entry table k w) as [[a w1]|] eqn:Hfind; [|done].
  destruct (floor_after_find _ _ _ _ _ _ _ Hwf Hc Hfind)
    as (t1 & Hwf1 & Hc1 & Hen & _ & _ & _ & _ & _ & Hcase).
  destruct Hcase as [[-> _]|(e & (Hl & He & Hk) & Ha)].
  - leaf. exists t1, cs. split; [by apply wf_with_status|done].
  - rewrite (proj2 (Z.eqb_neq _ _) Ha). simpl negb. cbv iota.
    pose proof He as He1. rewrite <- Hen in He1.
    run (the_entry_run _ _ _ He1).
    destruct (marked_for_removal e) eqn:Hm.
    { leaf. exists t1, cs.
      split; [by apply wf_with_status|done]. }
    destruct copy.
    + destruct (size e =? 0).
      { leaf. exists t1, cs.
        split; [by apply wf_with_status|done]. }
      unfold bind at 1.
      destruct (_kvs_retrieve_copy a g w1) as [[p w2]|] eqn:Hcopy; [|done].
      leaf.
      apply retrieve_copy_frame in Hcopy as (Htb & Hent & Hbrk).
      eapply (floor_same_entries _ w1); try done.
      * rewrite Htb. apply (wf_table _ _ _ _ Hwf1).
      * apply (wf_cache _ _ _ _ Hwf1).
    + run (write_entry_run a _ e w1 He1). leaf.
      apply (floor_referenced w1 t1 cs a e); try done.
      by apply (Hroom a e).
Qed.

End FloorCalls.

Section FloorChanges.

Context `{Platform}.
Context (table : Z).

Ltac leaf :=
  unfold bind, _kvs_set_status, ret; cbv beta iota; intros [= <-].

(** [kvs_remove_entry] on a linked entry: whatever the other entries
    satisfy goes on; the entry itself is marked with a count above one, or
    is gone. *)
Lemma floor_remove_found w t cs k x e w' :
  wf w table t cs →
  (∀ y ey, y ≠ x → linked cs y → entries w !! y = Some ey →
     1 <= ref_count ey < word_modulus ∧
     (marked_for_removal ey = true → 2 <= ref_count ey)) →
  ref_count e < word_modulus →
  entry_of w cs k x e →
  kvs_remove_entry table k w = Some (tt, w') →
  floor_invariant table w'.
Proof.
  intros Hwf Hc Hlt Hx.
  destruct (decide (1 < ref_count e)) as [Hrc|Hrc].
  - rewrite (kvs_remove_entry_marks _ _ _ _ Hwf _ _ _ Hx Hrc).
    intros [= <-]. exists t, cs. split; [by eapply marked_world_wf|].
    destruct Hx as (Hl & He & _).
    intros y ey Hy. simpl. destruct (decide (x = y)) as [->|Hne].
    + rewrite lookup_insert_eq. intros [= <-]. simpl. split; lia.
    + rewrite lookup_insert_ne by done. by apply Hc.
  - assert (ref_count e <= 1) as Hle by lia.
    destruct (decide (value e = NULL)) as [Hv|Hv];
      [|destruct (octets w !! value e) as [bs|] eqn:Hoc].
    3: { by rewrite (kvs_remove_entry_undefined _ _ _ _ Hwf _ _ _ Hx Hle Hv Hoc). }
    all: destruct (kvs_remove_entry_frees _ _ _ _ Hwf k x e Hx Hle)
           as (w'' & t' & l1 & l2 & -> & Hl & Hwf' & Hgone & _ & _ & Hframe & _);
        [first [by left|right; by rewrite ?Hoc]|];
        intros [= <-]; eexists _, _; (split; [exact Hwf'|]);
        intros y ey' Hy Hey';
        apply (linked_unlink _ _ _ _ _ _ _ _ _ Hwf Hl) in Hy as [Hyx Hy];
        destruct (linked_allocated _ _ _ _ Hwf y Hy) as [_ [ey Hey]];
        destruct (Hframe y ey Hyx Hey) as (ey'' & Hey'' & Heq);
        assert (ey' = ey'') as -> by congruence;
        rewrite Heq; simpl; by apply (Hc y ey).
Qed.

Lemma floor_remove_entry w k w' :
  floor_invariant table w →
  kvs_remove_entry table k w = Some (tt, w') → floor_invariant table w'.
Proof.
  intros (t & cs & Hwf & Hc).
  destruct (decide (k = 0)) as [->|Hk].
  { unfold kvs_remove_entry. rewrite (table_not_null _ _ _ _ Hwf).
    change (0 =? 0) with true. cbv iota. intros [= <-].
    exists t, cs. split; [by apply wf_with_status|done]. }
  destruct (find_entry_spec w table t cs Hwf k)
    as [(x & e & Hx & _)|[Hun _]].
  - apply (floor_remove_found w t cs k x e); try done.
    + intros y ey _ Hy Hey. by apply (Hc y ey).
    + destruct Hx as (Hl & He & _). by destruct (Hc x e Hl He) as [[_ ?] _].
  - rewrite (kvs_remove_entry_unused _ _ _ _ Hwf _ Hk Hun). intros [= <-].
    exists t, cs. split; [by apply wf_with_status|done].
Qed.

Lemma floor_release_entry w k w' :
  floor_invariant table w →
  kvs_release_entry table k w = Some (tt, w') → floor_invariant table w'.
Proof.
  intros (t & cs & Hwf & Hc).
  destruct (find_entry_spec w table t cs Hwf k)
    as [(x & e & Hx & _)|[Hun _]].
  2: { rewrite (kvs_release_entry_unused _ _ _ _ Hwf _ Hun). intros [= <-].
       exists t, cs. split; [by apply wf_with_status|done]. }
  rewrite (kvs_release_entry_found _ _ _ _ Hwf _ _ _ Hx).
  pose proof (released_world_wf _ _ _ _ Hwf _ _ _ Hx) as Hwf'.
  pose proof Hx as (Hl & He & Hk).
  destruct (Hc x e Hl He) as [[Hrc1 Hrc2] Hm].
  destruct (1 <? ref_count e) eqn:Hgt.
  2: { intros [= <-]. exists (set_last_retrieved_entry t x), cs.
       split; [by apply found_world_wf|done]. }
  apply Z.ltb_lt in Hgt.
  assert ((ref_count e - 1) mod word_modulus = ref_count e - 1) as Hmod
    by (apply Z.mod_small; lia).
  assert (∀ y ey, y ≠ x → linked cs y →
            entries (released_world w table t x e) !! y = Some ey →
            1 <= ref_count ey < word_modulus ∧
            (marked_for_removal ey = true → 2 <= ref_count ey)) as Hothers.
  { intros y ey Hyx Hy. simpl. rewrite lookup_insert_ne by done.
    by apply Hc. }
  rewrite Hmod.
  destruct ((ref_count e - 1 =? 1) && marked_for_removal e) eqn:Hlast.
  - apply (floor_remove_found (released_world w table t x e)
             (set_last_retrieved_entry t x) cs k x
             (set_ref_count e ((ref_count e - 1) mod word_modulus)));
      try done.
    + simpl. lia.
    + split; [done|]. split; [|done]. simpl. apply lookup_insert_eq.
  - intros [= <-]. exists (set_last_retrieved_entry t x), cs.
    split; [done|].
    intros y ey Hy. destruct (decide (y = x)) as [->|Hne].
    + simpl. rewrite lookup_insert_eq. intros [= <-]. simpl. rewrite Hmod.
      split; [lia|]. intros Hmk. rewrite Hmk, andb_true_r in Hlast.
      apply Z.eqb_neq in Hlast. lia.
    + by apply (Hothers y ey Hne Hy).
Qed.

Lemma floor_store_value w k val siz nt w' :
  floor_invariant table w →
  kvs_store_value table k val siz nt w = Some (tt, w') →
  floor_invariant table w'.
Proof.
  intros (t & cs & Hwf & Hc). unfold kvs_store_value.
  assert (∀ s, floor_invariant table (with_status w s)) as Hsame.
  { intros s. exists t, cs. split; [by apply wf_with_status|done]. }
  rewrite (table_not_null _ _ _ _ Hwf).
  destruct (k =? 0) eqn:Hk; [by leaf|].
  destruct (val =? NULL); [by leaf|].
  destruct ((siz =? 0) && negb nt); [by leaf|].
  apply Z.eqb_neq in Hk.
  assert (∀ n, (if n =? 0 then _kvs_set_status KVS_STATUS_INVALID_SIZE
                else store_entry (_kvs_new_entry_with_copy k val n nt) table k)
                 w = Some (tt, w') → floor_invariant table w') as Hstore.
  { intros n. destruct (n =? 0); [by leaf|]. intros Hrun.
    destruct (store_entry_preserves _ _ _ _ Hwf _ _ _ Hk
                (with_copy_makes_entry _ _ _ _ Hwf _ _ _ _) Hrun)
      as (t' & cs' & Hwf' & Hrel).
    exists t', cs'. split; [done|]. by eapply counted_transfer. }
  destruct (siz =? 0).
  - destruct nt.
    + unfold bind at 1, _kvs_calc_null_terminated_data_size.
      destruct (scan_octets (pointer_octets val) 0) as [n|]; [|done].
      apply Hstore.
    + unfold bind at 1, ret. apply Hstore.
  - unfold bind at 1, ret. apply Hstore.
Qed.

Lemma floor_store_reference w k val siz nt w' :
  floor_invariant table w →
  kvs_store_reference table k val siz nt w = Some (tt, w') →
  floor_invariant table w'.
Proof.
  intros (t & cs & Hwf & Hc). unfold kvs_store_reference.
  assert (∀ s, floor_invariant table (with_status w s)) as Hsame.
  { intros s. exists t, cs. split; [by apply wf_with_status|done]. }
  rewrite (table_not_null _ _ _ _ Hwf).
  destruct (k =? 0) eqn:Hk; [by leaf|].
  destruct (val =? NULL); [by leaf|].
  destruct ((siz =? 0) && negb nt); [by leaf|].
  apply Z.eqb_neq in Hk.
  assert (∀ n, (if n =? 0 then _kvs_set_status KVS_STATUS_INVALID_SIZE
                else store_entry (_kvs_new_entry_with_ref k val n nt) table k)
                 w = Some (tt, w') → floor_invariant table w') as Hstore.
  { intros n. destruct (n =? 0); [by leaf|]. intros Hrun.
    destruct (store_entry_preserves _ _ _ _ Hwf _ _ _ Hk
                (with_ref_makes_entry _ _ _ _ Hwf _ _ _ _) Hrun)
      as (t' & cs' & Hwf' & Hrel).
    exists t', cs'. split; [done|]. by eapply counted_transfer. }
  destruct ((siz =? 0) && nt).
  - unfold bind at 1, _kvs_calc_null_terminated_data_size.
    destruct (scan_octets (pointer_octets val) 0) as [n|]; [|done].
    apply Hstore.
  - unfold bind at 1, ret. apply Hstore.
Qed.

End FloorChanges.

Section FloorReachable.

Context `{Platform}.
Context (table : Z).

Lemma perform_preserves w c w' :
  floor_invariant table w → count_has_room w c →
  perform table c w = Some (tt, w') → floor_invariant table w'.
Proof.
  intros Hinv Hroom. destruct c; simpl.
  - by apply floor_store_value.
  - by apply floor_store_reference.
  - unfold bind. destruct (kvs_entry_exists table k w) as [[r w1]|] eqn:Hrun;
      [|done]. intros [= <-]. by eapply floor_entry_exists.
  - unfold bind.
    destruct (kvs_get_entry table copy k new_entry w) as [[r w1]|] eqn:Hrun;
      [|done]. intros [= <-]. by eapply floor_get_entry.
  - unfold bind.
    destruct (kvs_value_for_key table k new_entry w) as [[r w1]|] eqn:Hrun;
      [|done]. intros [= <-]. by eapply floor_value_for_key.
  - unfold bind.
    destruct (kvs_reference_for_key table k w) as [[r w1]|] eqn:Hrun;
      [|done]. intros [= <-]. by eapply floor_reference_for_key.
  - unfold bind. destruct (kvs_size_for_key table k w) as [[r w1]|] eqn:Hrun;
      [|done]. intros [= <-]. by eapply floor_size_for_key.
  - unfold bind.
    destruct (kvs_data_for_key_is_null_terminated table k w)
      as [[r w1]|] eqn:Hrun; [|done].
    intros [= <-]. by eapply floor_null_terminated.
  - unfold bind.
    destruct (kvs_reference_count_for_key table k w) as [[r w1]|] eqn:Hrun;
      [|done]. intros [= <-]. by eapply floor_reference_count.
  - by apply floor_release_entry.
  - by apply floor_remove_entry.
  - unfold kvs_number_of_buckets, bind, the_table, ret.
    destruct (negb (table =? NULL)); [|by intros [= <-]].
    destruct (tables w !! table); [|done]. by intros [= <-].
  - unfold kvs_number_of_entries, bind, the_table, ret.
    destruct (negb (table =? NULL)); [|by intros [= <-]].
    destruct (tables w !! table); [|done]. by intros [= <-].
Qed.

Lemma floor_new_table w0 siz w :
  0 < brk w0 → (∀ a e, entries w0 !! a = Some e → a < brk w0) →
  0 <= siz → table ≠ NULL →
  kvs_new_table siz w0 = Some (table, w) → floor_invariant table w.
Proof.
  intros Hb Hfresh Hs Ht Hrun.
  destruct (kvs_new_table_cases _ _ _ _ Hb Hs Hrun)
    as [[-> _]|[_ (s & Hg & Hslack)]]; [done|].
  destruct (kvs_new_table_wf siz w0 s Hg Hslack Hb Hs Hfresh)
    as (w1 & Hrun1 & Hwf & _).
  rewrite Hrun1 in Hrun. injection Hrun as <- <-.
  eexists _, _. split; [exact Hwf|].
  intros x e (i & l & Hl & Hx).
  apply lookup_replicate_1 in Hl as [-> _]. by apply elem_of_nil in Hx.
Qed.

Lemma floor_reachable w :
  reachable count_has_room table w → floor_invariant table w.
Proof.
  induction 1 as [w0 siz w Hb Hfresh Hs Ht Hnew|w c w' _ IH Hroom Hrun
                 |w w' _ IH Htb Hen Hbrk].
  - by eapply floor_new_table.
  - by eapply perform_preserves.
  - destruct IH as (t & cs & Hwf & Hc).
    eapply floor_same_entries; try done.
    + rewrite Htb. apply (wf_table _ _ _ _ Hwf).
    + apply (wf_cache _ _ _ _ Hwf).
Qed.

End FloorReachable.

(** X20: in every store reached by the public functions other than
    [kvs_dispose_table] from a table that a call of [kvs_new_table]
    returned, as long as no retrieval by reference takes a count beyond
    the largest value of [word_t], every linked entry has a reference
    count of at least one.  [kvs_release_entry] on an entry with
    count one takes nothing off the count: the entries, the chains, the
    entry count and the buffers stay as they are, the entry is in the
    lookup cache afterwards, it is not marked for removal, and it can
    still be found and retrieved. *)
Theorem reference_count_floor `{Platform} table w :
  reachable count_has_room table w →
  ∃ t cs,
    wf w table t cs ∧
    (∀ x e, linked cs x → entries w !! x = Some e → 1 <= ref_count e) ∧
    (∀ k x e, entry_of w cs k x e → ref_count e = 1 →
       let w' := found_world w table t x in
       kvs_release_entry table k w = Some (tt, w') ∧
       entries w' = entries w ∧ octets w' = octets w ∧
       tables w' = <[table := set_last_retrieved_entry t x]> (tables w) ∧
       wf w' table (set_last_retrieved_entry t x) cs ∧
       kvs_entry_exists table k w' = Some (true, found_world w' table
                                           (set_last_retrieved_entry t x) x) ∧
       ∃ w'', kvs_reference_for_key table k w' = Some (value e, w'') ∧
              status w'' = Some KVS_STATUS_SUCCESS).
Proof.
  intros Hreach. destruct (floor_reachable _ _ Hreach) as (t & cs & Hwf & Hc).
  exists t, cs. split; [done|]. split.
  { intros x e Hx He. by destruct (Hc x e Hx He) as [[? _] _]. }
  intros k x e Hx Hrc. cbv zeta. set (w' := found_world w table t x).
  pose proof Hx as (Hl & He & Hk).
  assert (marked_for_removal e = false) as Hm.
  { destruct (Hc x e Hl He) as [_ Hm].
    destruct (marked_for_removal e); [|done]. specialize (Hm eq_refl). lia. }
  pose proof (found_world_wf _ _ _ _ Hwf x Hl) as Hwf'.
  assert (entry_of w' cs k x e) as Hx' by done.
  fold w' in Hwf'.
  split.
  { rewrite (kvs_release_entry_found _ _ _ _ Hwf _ _ _ Hx). by rewrite Hrc. }
  do 4 (split; [done|]). split.
  - rewrite (kvs_entry_exists_found _ _ _ _ Hwf' _ _ _ Hx'). by rewrite Hm.
  - rewrite (kvs_reference_for_key_found _ _ _ _ Hwf' _ _ _ Hx'). rewrite Hm.
    by eexists.
Qed.

Lemma one_reference_world_reachable allowed :
  (∀ w c, allowed w c) →
  reachable (H := lp64) allowed 1000 one_reference_world.
Proof.
  intros Hall.
  apply (reachable_call (H := lp64) allowed 1000 new_table_world
           (store_reference 7 100 2 false)).
  - apply (reachable_new (H := lp64) allowed 1000 caller_world 4).
    + reflexivity.
    + intros a e Ha. simpl in Ha. by rewrite lookup_empty in Ha.
    + discriminate.
    + discriminate.
    + vm_compute. reflexivity.
  - apply Hall.
  - vm_compute. reflexivity.
Qed.

Lemma reference_count_floor_witness :
  ∃ t cs,
    wf one_reference_world 1000 t cs ∧
    (∀ x e, linked cs x → entries one_reference_world !! x = Some e →
            1 <= ref_count e) ∧
    (∀ k x e, entry_of one_reference_world cs k x e → ref_count e = 1 →
       let w' := found_world one_reference_world 1000 t x in
       kvs_release_entry (H := lp64) 1000 k one_reference_world
         = Some (tt, w') ∧
       entries w' = entries one_reference_world ∧
       octets w' = octets one_reference_world ∧
       tables w' = <[1000 := set_last_retrieved_entry t x]>
                     (tables one_reference_world) ∧
       wf w' 1000 (set_last_retrieved_entry t x) cs ∧
       kvs_entry_exists 1000 k w' =
         Some (true, found_world w' 1000 (set_last_retrieved_entry t x) x) ∧
       ∃ w'', kvs_reference_for_key (H := lp64) 1000 k w'
                = Some (value e, w'') ∧
              status w'' = Some KVS_STATUS_SUCCESS).
Proof.
  apply (reference_count_floor (H := lp64) 1000 one_reference_world).
  apply (reachable_call (H := lp64) count_has_room 1000 new_table_world
           (store_reference 7 100 2 false)).
  - apply (reachable_new (H := lp64) count_has_room 1000 caller_world 4).
    + reflexivity.
    + intros a e Ha. simpl in Ha. by rewrite lookup_empty in Ha.
    + discriminate.
    + discriminate.
    + vm_compute. reflexivity.
  - exact I.
  - vm_compute. reflexivity.
Defined.

(** [n] retrievals by reference of a live entry add [n] to its count,
    within [word_t]. *)
Lemma referenced_many_times `{Platform} table cs k x e w t n :
  0 <= n → 0 <= ref_count e < word_modulus →
  reachable any_call table w → wf w table t cs →
  entry_of w cs k x e → marked_for_removal e = false →
  ∃ w' t',
    referenced_times table k n w w' ∧
    reachable any_call table w' ∧ wf w' table t' cs ∧
    entry_of w' cs k x
      (set_ref_count e ((ref_count e + n) mod word_modulus)).
Proof.
  intros Hn Hrc Hreach Hwf Hx Hm. revert n Hn.
  apply natlike_ind.
  - exists w, t. split; [constructor|]. split; [done|]. split; [done|].
    rewrite Z.add_0_r, Z.mod_small by done.
    destruct Hx as (Hl & He & Hk). split; [done|]. split; [|done].
    rewrite He. by destruct e.
  - intros n Hn (w' & t' & Htimes & Hreach' & Hwf' & Hx').
    set (en := set_ref_count e ((ref_count e + n) mod word_modulus)) in *.
    pose proof (kvs_reference_for_key_found _ _ _ _ Hwf' _ _ _ Hx') as Hrun.
    assert (marked_for_removal en = false) as Hmn by done.
    rewrite Hmn in Hrun.
    exists (referenced_world w' table t' x en),
      (set_last_retrieved_entry t' x).
    split; [|split; [|split]].
    + by eapply referenced_again.
    + apply (reachable_call any_call table w' (reference_for_key k));
        [done|done|].
      simpl. unfold bind. by rewrite Hrun.
    + by eapply referenced_world_wf.
    + destruct Hx' as (Hl & He & Hk). split; [done|]. split; [|done].
      simpl. rewrite lookup_insert_eq. f_equal. unfold set_ref_count. simpl.
      f_equal. rewrite Z.add_mod_idemp_l by (pose proof word_modulus_min; lia).
      f_equal. lia.
Qed.

(** C6 (what the code does instead): [kvs_reference_for_key] and
    [kvs_get_entry] add one to [ref_count] without looking at it.  With a
    [word_t] of 32 bits, on the table with key [7] stored once,
    [2 ^ 32 - 1] calls of [kvs_reference_for_key(7)] all return and take
    the count of the entry from [1] to [0]: the table is well formed, the
    entry is linked and not marked for removal, [kvs_entry_exists(7)]
    returns [true], and [kvs_reference_count_for_key(7)] returns [0], the
    value its own description keeps for a key that is absent. *)
Theorem reference_count_reaches_zero :
  ∃ w t,
    referenced_times (H := lp64) 1000 7 (2 ^ 32 - 1) one_reference_world w ∧
    reachable (H := lp64) any_call 1000 w ∧
    wf w 1000 t [[]; []; []; [1001]] ∧
    entry_of w [[]; []; []; [1001]] 7 1001 (Entry 7 100 2 0 0 false false) ∧
    outcome (kvs_entry_exists 1000 7 w) = Some true ∧
    outcome (kvs_reference_count_for_key (H := lp64) 1000 7 w) = Some 0.
Proof.
  destruct (referenced_many_times (H := lp64) 1000 [[]; []; []; [1001]] 7 1001
              (Entry 7 100 2 0 1 false false) one_reference_world
              one_reference_table (2 ^ 32 - 1))
    as (w' & t' & Htimes & Hreach & Hwf & Hx).
  - lia.
  - simpl. unfold word_modulus. simpl. lia.
  - by apply one_reference_world_reachable.
  - apply wf_check_sound. vm_compute. reflexivity.
  - apply entry_of_check. vm_compute. reflexivity.
  - reflexivity.
  - exists w', t'. do 4 (split; [done|]). split.
    + by rewrite (kvs_entry_exists_found _ _ _ _ Hwf _ _ _ Hx).
    + by rewrite (kvs_reference_count_for_key_found _ _ _ _ Hwf _ _ _ Hx).
Qed.

(** * Further properties of the functions *)

(** ** Calls that are turned down *)

(** X1: every function called with [NULL] for the table returns at once,
    whatever the store holds: it reports "invalid table" and returns
    [NULL], [false] or [0]; the two counting functions, which take no
    status, return [0] and leave the status alone. *)
Theorem null_table_is_rejected `{Platform} w : null_table_outcomes w.
Proof. repeat split. Qed.

(** X2: the store functions check their arguments in the order table,
    key, value, size, before anything of the table is read: on any store,
    a zero key is reported as "invalid key" whatever value and size are, a
    [NULL] value under a key that is not zero as "invalid data", and a size
    of zero for data not said to be null-terminated as "invalid size";
    nothing but the status changes. *)
Theorem store_arguments_are_checked `{Platform} w table k val siz nt :
  table ≠ NULL →
  (kvs_store_value table 0 val siz nt w
     = Some (tt, with_status w (Some KVS_STATUS_INVALID_KEY)) ∧
   kvs_store_reference table 0 val siz nt w
     = Some (tt, with_status w (Some KVS_STATUS_INVALID_KEY))) ∧
  (k ≠ 0 →
   kvs_store_value table k NULL siz nt w
     = Some (tt, with_status w (Some KVS_STATUS_INVALID_DATA)) ∧
   kvs_store_reference table k NULL siz nt w
     = Some (tt, with_status w (Some KVS_STATUS_INVALID_DATA))) ∧
  (k ≠ 0 → val ≠ NULL →
   kvs_store_value table k val 0 false w
     = Some (tt, with_status w (Some KVS_STATUS_INVALID_SIZE)) ∧
   kvs_store_reference table k val 0 false w
     = Some (tt, with_status w (Some KVS_STATUS_INVALID_SIZE))).
Proof.
  intros Ht. apply Z.eqb_neq in Ht.
  unfold kvs_store_value, kvs_store_reference. rewrite Ht.
  split; [done|]. split.
  - intros Hk. apply Z.eqb_neq in Hk. by rewrite Hk.
  - intros Hk Hv. apply Z.eqb_neq in Hk, Hv. by rewrite Hk, Hv.
Qed.

Lemma store_arguments_are_checked_witness :
  (kvs_store_value (H := lp64) 1000 0 100 2 false one_reference_world
     = Some (tt, with_status one_reference_world
                   (Some KVS_STATUS_INVALID_KEY)) ∧
   kvs_store_reference (H := lp64) 1000 0 100 2 false one_reference_world
     = Some (tt, with_status one_reference_world
                   (Some KVS_STATUS_INVALID_KEY))) ∧
  (kvs_store_value (H := lp64) 1000 3 NULL 2 false one_reference_world
     = Some (tt, with_status one_reference_world
                   (Some KVS_STATUS_INVALID_DATA)) ∧
   kvs_store_reference (H := lp64) 1000 3 NULL 2 false one_reference_world
     = Some (tt, with_status one_reference_world
                   (Some KVS_STATUS_INVALID_DATA))) ∧
  (kvs_store_value (H := lp64) 1000 3 100 0 false one_reference_world
     = Some (tt, with_status one_reference_world
                   (Some KVS_STATUS_INVALID_SIZE)) ∧
   kvs_store_reference (H := lp64) 1000 3 100 0 false one_reference_world
     = Some (tt, with_status one_reference_world
                   (Some KVS_STATUS_INVALID_SIZE))).
Proof.
  destruct (store_arguments_are_checked (H := lp64) one_reference_world 1000
              3 100 2 false) as (Hkey & Hdata & Hsize); [discriminate|].
  split; [exact Hkey|]. split.
  - apply Hdata. discriminate.
  - apply Hsize; discriminate.
Defined.

(** X3: [kvs_reference_for_key] is [kvs_get_entry] in reference mode with
    its two out-parameters left out: on every store, also a broken one, it
    returns the same pointer with the same status and the same effect,
    whatever the never-assigned local of [_kvs_retrieve_copy] holds.
    [kvs_value_for_key] agrees in the same way with [kvs_get_entry] in copy
    mode under one condition: that this local, of which each of the two
    calls has its own, holds the same content [g] in both. *)
Theorem convenience_retrievals_agree `{Platform} table k w :
  (∀ g, kvs_reference_for_key table k w
          = (λ r, (r.1.1.1, r.2)) <$> kvs_get_entry table false k g w) ∧
  (∀ g, kvs_value_for_key table k g w
          = (λ r, (r.1.1.1, r.2)) <$> kvs_get_entry table true k g w).
Proof.
  unfold kvs_value_for_key, kvs_reference_for_key, kvs_get_entry.
  destruct (table =? NULL); [done|].
  unfold bind. destruct (_kvs_find_entry table k w) as [[a w1]|]; [|done].
  destruct (a =? NULL); simpl; [done|].
  destruct (the_entry a w1) as [[e w2]|]; [|done].
  destruct (marked_for_removal e); [done|].
  split; intros g.
  - by destruct (write_entry a _ w2) as [[[] w3]|].
  - destruct (size e =? 0); [done|].
    by destruct (_kvs_retrieve_copy a g w2) as [[p w3]|].
Qed.

(** ** Keys without an entry *)

Lemma unused_key_outcomes `{Platform} w table t cs k :
  wf w table t cs → unused_key w cs k → missing_key_outcomes w table k.
Proof.
  intros Hwf Hun. unfold missing_key_outcomes. cbv zeta.
  split; [by eapply kvs_entry_exists_unused|].
  split; [intros; by eapply kvs_get_entry_unused|].
  split; [intros; by eapply kvs_value_for_key_unused|].
  split; [by eapply kvs_reference_for_key_unused|].
  split; [by eapply kvs_size_for_key_unused|].
  split; [by eapply kvs_data_for_key_is_null_terminated_unused|].
  split; [by eapply kvs_reference_count_for_key_unused|].
  split; [by eapply kvs_release_entry_unused|].
  intros Hk. by eapply kvs_remove_entry_unused.
Qed.

(** X4: on a well-formed table, for a key that no linked entry has, every
    lookup reports "entry not found" and returns [NULL], [false] or [0];
    [kvs_release_entry] does nothing and [kvs_remove_entry] (for a key that
    is not zero) removes nothing.  Nothing but the status changes: no
    entry, no bucket and not the lookup cache. *)
Theorem missing_key_is_not_found `{Platform} w table t cs k :
  wf w table t cs → unused_key w cs k → missing_key_outcomes w table k.
Proof. apply unused_key_outcomes. Qed.


Lemma missing_key_is_not_found_witness :
  missing_key_outcomes (H := lp64) one_reference_world 1000 3.
Proof.
  apply (missing_key_is_not_found (H := lp64) one_reference_world 1000
           one_reference_table [[]; []; []; [1001]] 3).
  - apply wf_check_sound. vm_compute. reflexivity.
  - apply unused_key_check. vm_compute. reflexivity.
Defined.

(** ** Entries pending removal *)

Section Pending.

Context `{Platform}.
Context (w : world) (table : Z) (t : kvs_table_s) (cs : list (list Z)).
Context (Hwf : wf w table t cs).

Lemma kvs_value_for_key_pending k x e g :
  entry_of w cs k x e → marked_for_removal e = true →
  kvs_value_for_key table k g w =
    Some (NULL, with_status (found_world w table t x)
                  (Some KVS_STATUS_ENTRY_PENDING_REMOVAL)).
Proof.
  intros Hx Hm. unfold kvs_value_for_key.
  rewrite (table_not_null _ _ _ _ Hwf).
  run (find_entry_found _ _ _ _ Hwf _ _ _ Hx).
  rewrite (entry_not_null _ _ _ _ Hwf _ _ _ Hx).
  destruct Hx as (_ & He & _).
  run (found_world_entry w table t x _ _ He).
  by rewrite Hm.
Qed.

Lemma kvs_get_entry_pending copy k x e g :
  entry_of w cs k x e → marked_for_removal e = true →
  kvs_get_entry table copy k g w =
    Some ((NULL, None, None),
          with_status (found_world w table t x)
            (Some KVS_STATUS_ENTRY_PENDING_REMOVAL)).
Proof.
  intros Hx Hm. unfold kvs_get_entry.
  rewrite (table_not_null _ _ _ _ Hwf).
  run (find_entry_found _ _ _ _ Hwf _ _ _ Hx).
  rewrite (entry_not_null _ _ _ _ Hwf _ _ _ Hx).
  destruct Hx as (_ & He & _).
  run (found_world_entry w table t x _ _ He).
  by rewrite Hm.
Qed.

End Pending.

(** X5: while an entry is marked for removal, [kvs_entry_exists] returns
    [false] and every retrieval, by copy or by reference, returns [NULL],
    all reporting "entry pending removal"; they allocate nothing and leave
    the reference count as it is.  [kvs_size_for_key],
    [kvs_data_for_key_is_null_terminated] and [kvs_reference_count_for_key]
    do not look at the mark and still return the fields of the entry. *)
Theorem pending_removal_hides_the_entry `{Platform} w table t cs k x e :
  wf w table t cs → entry_of w cs k x e → marked_for_removal e = true →
  pending_removal_outcomes w table t k x e ∧
  entries (found_world w table t x) = entries w ∧
  octets (found_world w table t x) = octets w ∧
  grants (found_world w table t x) = grants w.
Proof.
  intros Hwf Hx Hm. split; [|done].
  unfold pending_removal_outcomes. cbv zeta.
  split.
  { rewrite (kvs_entry_exists_found _ _ _ _ Hwf _ _ _ Hx). by rewrite Hm. }
  split; [intros; by eapply kvs_get_entry_pending|].
  split; [intros; by eapply kvs_value_for_key_pending|].
  split.
  { rewrite (kvs_reference_for_key_found _ _ _ _ Hwf _ _ _ Hx).
    by rewrite Hm. }
  split; [by eapply kvs_size_for_key_found|].
  split; [by eapply kvs_data_for_key_is_null_terminated_found|].
  by eapply kvs_reference_count_for_key_found.
Qed.

Lemma pending_removal_world_run :
  kvs_remove_entry (H := lp64) 1000 7 three_references_world
  = Some (tt, pending_removal_world).
Proof. vm_compute. reflexivity. Qed.

Lemma pending_removal_hides_the_entry_witness :
  pending_removal_outcomes (H := lp64) pending_removal_world 1000
    (Table 1001 1 4 [0; 0; 0; 1001]) 7 1001 (Entry 7 100 2 0 3 false true) ∧
  entries (found_world pending_removal_world 1000
             (Table 1001 1 4 [0; 0; 0; 1001]) 1001)
    = entries pending_removal_world ∧
  octets (found_world pending_removal_world 1000
            (Table 1001 1 4 [0; 0; 0; 1001]) 1001)
    = octets pending_removal_world ∧
  grants (found_world pending_removal_world 1000
            (Table 1001 1 4 [0; 0; 0; 1001]) 1001)
    = grants pending_removal_world.
Proof.
  apply (pending_removal_hides_the_entry (H := lp64) pending_removal_world
           1000 (Table 1001 1 4 [0; 0; 0; 1001]) [[]; []; []; [1001]]).
  - apply wf_check_sound. vm_compute. reflexivity.
  - apply entry_of_check. vm_compute. reflexivity.
  - reflexivity.
Defined.

(** ** Removal *)

(** X6: [kvs_remove_entry] on an entry with a count above one removes
    nothing: it sets the mark and reports success; the table base, the
    buckets, the entry count, the buffers and every other entry are as
    before and the entry stays linked.  Called again it changes nothing
    more. *)
Theorem remove_marks_a_referenced_entry `{Platform} w table t cs k x e :
  wf w table t cs → entry_of w cs k x e → 1 < ref_count e →
  kvs_remove_entry table k w = Some (tt, marked_world w x e) ∧
  wf (marked_world w x e) table t cs ∧
  entry_of (marked_world w x e) cs k x (set_marked_for_removal e true) ∧
  kvs_remove_entry table k (marked_world w x e)
    = Some (tt, marked_world w x e).
Proof.
  intros Hwf Hx Hrc.
  pose proof (marked_world_wf _ _ _ _ Hwf _ _ _ (Some KVS_STATUS_SUCCESS) Hx)
    as Hwf1.
  assert (entry_of (marked_world w x e) cs k x (set_marked_for_removal e true))
    as Hx1.
  { destruct Hx as (Hl & He & Hk). split; [done|]. split; [|done].
    apply lookup_insert_eq. }
  split; [by apply (kvs_remove_entry_marks _ _ _ _ Hwf)|].
  split; [exact Hwf1|].
  split; [exact Hx1|].
  rewrite (kvs_remove_entry_marks _ _ _ _ Hwf1 _ _ _ Hx1 Hrc).
  unfold marked_world. simpl. by rewrite insert_insert_eq.
Qed.

Lemma remove_marks_a_referenced_entry_witness :
  kvs_remove_entry (H := lp64) 1000 7 three_references_world
    = Some (tt, marked_world three_references_world 1001
                  (Entry 7 100 2 0 3 false false)) ∧
  wf (marked_world three_references_world 1001
        (Entry 7 100 2 0 3 false false))
     1000 (Table 1001 1 4 [0; 0; 0; 1001]) [[]; []; []; [1001]] ∧
  entry_of (marked_world three_references_world 1001
              (Entry 7 100 2 0 3 false false))
    [[]; []; []; [1001]] 7 1001 (Entry 7 100 2 0 3 false true) ∧
  kvs_remove_entry (H := lp64) 1000 7
      (marked_world three_references_world 1001
         (Entry 7 100 2 0 3 false false))
    = Some (tt, marked_world three_references_world 1001
                  (Entry 7 100 2 0 3 false false)).
Proof.
  apply (remove_marks_a_referenced_entry (H := lp64) three_references_world
           1000 (Table 1001 1 4 [0; 0; 0; 1001]) [[]; []; []; [1001]] 7 1001
           (Entry 7 100 2 0 3 false false)).
  - apply wf_check_sound. vm_compute. reflexivity.
  - apply entry_of_check. vm_compute. reflexivity.
  - reflexivity.
Defined.

Section Removed.

Context `{Platform}.
Context (w : world) (table : Z) (t : kvs_table_s) (cs : list (list Z)).
Context (Hwf : wf w table t cs).

(** What [kvs_remove_entry] leaves in the status when it unlinks. *)
Lemma kvs_remove_entry_status k x e w' :
  entry_of w cs k x e → ref_count e <= 1 →
  kvs_remove_entry table k w = Some (tt, w') →
  status w' = if value e =? NULL then status w else Some KVS_STATUS_SUCCESS.
Proof.
  intros Hx Hrc.
  destruct (kvs_remove_entry_unlinks w table t cs Hwf k x e Hx Hrc)
    as (l1 & l2 & t2 & en & h' & Hl & Hrun & _ & _ & _ & _ & Hex & _).
  destruct Hx as (Hx & He & Hk).
  destruct (linked_allocated _ _ _ _ Hwf x Hx) as [Hx0 _].
  rewrite Hrun. unfold bind at 1.
  rewrite (dispose_entry_run _ _ _ _ _ _ _ _ Hx0 Hex).
  destruct (value e =? NULL).
  - unfold write_table. simpl. rewrite lookup_insert_eq. by intros [= <-].
  - destruct (octets w !! value e); [|done].
    unfold write_table. simpl. rewrite lookup_insert_eq. by intros [= <-].
Qed.

(** Once the entry of a key is unlinked, no linked entry has the key. *)
Lemma unlinked_key_is_unused k x e w' l1 l2 :
  entry_of w cs k x e →
  cs !! Z.to_nat (k mod bucket_count t) = Some (l1 ++ x :: l2) →
  (∀ y ey, y ≠ x → entries w !! y = Some ey →
     ∃ ey', entries w' !! y = Some ey' ∧ ey' = set_next ey (next ey')) →
  unused_key w' (<[Z.to_nat (k mod bucket_count t) := l1 ++ l2]> cs) k.
Proof.
  intros (Hlx & Hex & Hkx) Hl Hframe y ey' Hy Hey' Hky.
  apply (linked_unlink _ _ _ _ _ _ _ _ _ Hwf Hl) in Hy as [Hyx Hy].
  destruct (linked_allocated _ _ _ _ Hwf y Hy) as [_ [ey Hey]].
  destruct (Hframe y ey Hyx Hey) as (ey'' & Hey'' & Heq).
  assert (ey' = ey'') as -> by congruence.
  apply Hyx. eapply (wf_unique _ _ _ _ Hwf); try done.
  rewrite Hkx, <- Hky, Heq. done.
Qed.

End Removed.

(** X7: [kvs_remove_entry] on an entry with a count of one (or less) whose
    value is an allocated buffer takes the entry out of its chain, frees
    the buffer and the entry, takes one off the entry count and reports
    success.  The buffer is freed also where the entry was stored by
    reference, so that it is the caller's own.  The other entries stay
    linked and keep every field but [next]; the key has no entry any more
    and [kvs_entry_exists] reports "entry not found". *)
Theorem remove_frees_an_unreferenced_entry `{Platform} w table t cs k x e :
  wf w table t cs → entry_of w cs k x e → ref_count e <= 1 →
  value e ≠ NULL → is_Some (octets w !! value e) →
  ∃ w' t' cs',
    kvs_remove_entry table k w = Some (tt, w') ∧
    status w' = Some KVS_STATUS_SUCCESS ∧
    wf w' table t' cs' ∧
    entries w' !! x = None ∧
    octets w' = delete (value e) (octets w) ∧
    entry_count t' = (entry_count t - 1) mod cardinal_modulus ∧
    bucket_count t' = bucket_count t ∧
    (∀ y, linked cs' y ↔ y ≠ x ∧ linked cs y) ∧
    (∀ y ey, y ≠ x → entries w !! y = Some ey →
       ∃ ey', entries w' !! y = Some ey' ∧ ey' = set_next ey (next ey')) ∧
    unused_key w' cs' k ∧
    kvs_entry_exists table k w'
      = Some (false, with_status w' (Some KVS_STATUS_ENTRY_NOT_FOUND)).
Proof.
  intros Hwf Hx Hrc Hv Hoc.
  destruct (kvs_remove_entry_frees _ _ _ _ Hwf k x e Hx Hrc (or_intror Hoc))
    as (w' & t' & l1 & l2 & Hrun & Hl & Hwf' & Hgone & Hec & Hbc & Hframe
        & _ & _ & Hoc').
  pose proof (kvs_remove_entry_status _ _ _ _ Hwf _ _ _ _ Hx Hrc Hrun) as Hst.
  apply Z.eqb_neq in Hv. rewrite Hv in Hst, Hoc'.
  pose proof (unlinked_key_is_unused _ _ _ _ Hwf _ _ _ _ _ _ Hx Hl Hframe)
    as Hun.
  exists w', t', (<[Z.to_nat (k mod bucket_count t) := l1 ++ l2]> cs).
  do 7 (split; [done|]).
  split; [intros y; by apply (linked_unlink _ _ _ _ _ _ _ _ _ Hwf Hl)|].
  split; [done|]. split; [done|].
  by apply (kvs_entry_exists_unused _ _ _ _ Hwf').
Qed.

Lemma remove_frees_an_unreferenced_entry_witness :
  ∃ w' t' cs',
    kvs_remove_entry (H := lp64) 1000 7 one_reference_world = Some (tt, w') ∧
    status w' = Some KVS_STATUS_SUCCESS ∧
    wf w' 1000 t' cs' ∧
    entries w' !! 1001 = None ∧
    octets w' = delete 100 (octets one_reference_world) ∧
    entry_count t' = (1 - 1) mod 2 ^ 32 ∧
    bucket_count t' = 4 ∧
    (∀ y, linked cs' y ↔ y ≠ 1001 ∧ linked [[]; []; []; [1001]] y) ∧
    (∀ y ey, y ≠ 1001 → entries one_reference_world !! y = Some ey →
       ∃ ey', entries w' !! y = Some ey' ∧ ey' = set_next ey (next ey')) ∧
    unused_key w' cs' 7 ∧
    kvs_entry_exists 1000 7 w'
      = Some (false, with_status w' (Some KVS_STATUS_ENTRY_NOT_FOUND)).
Proof.
  apply (remove_frees_an_unreferenced_entry (H := lp64) one_reference_world
           1000 one_reference_table [[]; []; []; [1001]] 7 1001
           (Entry 7 100 2 0 1 false false)).
  - apply wf_check_sound. vm_compute. reflexivity.
  - apply entry_of_check. vm_compute. reflexivity.
  - simpl. lia.
  - discriminate.
  - eexists. vm_compute. reflexivity.
Defined.

(** ** References taken and given back *)

(** X8: on a live entry with a count of at least one that has room to go
    up, [kvs_reference_for_key] followed by [kvs_release_entry] leaves
    every entry as it was before the two calls, the count included; the
    buffers are untouched and the table base differs at most in the lookup
    cache, which holds the entry. *)
Theorem release_undoes_a_reference `{Platform} w table t cs k x e :
  wf w table t cs → entry_of w cs k x e → marked_for_removal e = false →
  1 <= ref_count e → ref_count e + 1 < word_modulus →
  ∃ w1 w2,
    kvs_reference_for_key table k w = Some (value e, w1) ∧
    ref_count <$> entries w1 !! x = Some (ref_count e + 1) ∧
    kvs_release_entry table k w1 = Some (tt, w2) ∧
    entries w2 = entries w ∧ octets w2 = octets w ∧
    tables w2 = <[table := set_last_retrieved_entry t x]> (tables w) ∧
    status w2 = Some KVS_STATUS_SUCCESS.
Proof.
  intros Hwf Hx Hm Hrc Hroom.
  pose proof (kvs_reference_for_key_found _ _ _ _ Hwf _ _ _ Hx) as Hrun1.
  rewrite Hm in Hrun1.
  pose proof (referenced_world_wf _ _ _ _ Hwf _ _ _ Hx) as Hwf1.
  set (w1 := referenced_world w table t x e) in *.
  set (e1 := set_ref_count e ((ref_count e + 1) mod word_modulus)).
  assert (ref_count e1 = ref_count e + 1) as Hrc1.
  { unfold e1. simpl. apply Z.mod_small. lia. }
  assert (entry_of w1 cs k x e1) as Hx1.
  { destruct Hx as (Hl & He & Hk). split; [done|]. split; [|done].
    unfold w1, referenced_world. simpl. apply lookup_insert_eq. }
  pose proof (kvs_release_entry_found _ _ _ _ Hwf1 _ _ _ Hx1) as Hrun2.
  rewrite Hrc1 in Hrun2.
  rewrite (proj2 (Z.ltb_lt 1 (ref_count e + 1))) in Hrun2 by lia.
  change (marked_for_removal e1) with (marked_for_removal e) in Hrun2.
  rewrite Hm, andb_false_r in Hrun2.
  exists w1, (released_world w1 table (set_last_retrieved_entry t x) x e1).
  split; [exact Hrun1|]. split.
  { destruct Hx1 as (_ & -> & _). cbn [fmap option_fmap option_map].
    f_equal. exact Hrc1. }
  split; [exact Hrun2|].
  destruct Hx as (Hl & He & Hk).
  split.
  { unfold released_world, w1, referenced_world. cbn [entries].
    rewrite insert_insert_eq. rewrite Hrc1.
    replace (ref_count e + 1 - 1) with (ref_count e) by lia.
    rewrite Z.mod_small by lia.
    replace (set_ref_count e1 (ref_count e)) with e by (by destruct e).
    by apply insert_id. }
  split; [done|]. split; [|done].
  unfold released_world, w1, referenced_world. simpl.
  by rewrite insert_insert_eq.
Qed.

Lemma release_undoes_a_reference_witness :
  ∃ w1 w2,
    kvs_reference_for_key (H := lp64) 1000 7 one_reference_world
      = Some (100, w1) ∧
    ref_count <$> entries w1 !! 1001 = Some (1 + 1) ∧
    kvs_release_entry (H := lp64) 1000 7 w1 = Some (tt, w2) ∧
    entries w2 = entries one_reference_world ∧
    octets w2 = octets one_reference_world ∧
    tables w2 = <[1000 := set_last_retrieved_entry one_reference_table 1001]>
                  (tables one_reference_world) ∧
    status w2 = Some KVS_STATUS_SUCCESS.
Proof.
  apply (release_undoes_a_reference (H := lp64) one_reference_world 1000
           one_reference_table [[]; []; []; [1001]] 7 1001
           (Entry 7 100 2 0 1 false false)).
  - apply wf_check_sound. vm_compute. reflexivity.
  - apply entry_of_check. vm_compute. reflexivity.
  - reflexivity.
  - simpl. lia.
  - vm_compute. reflexivity.
Defined.

(** ** The lookup cache *)

Lemma cached_world_wf w table t cs c :
  wf w table t cs → c = NULL ∨ linked cs c →
  wf (cached_world w table t c) table (set_last_retrieved_entry t c) cs.
Proof.
  intros Hwf Hc. eapply wf_update; try done.
  - simpl. apply lookup_insert_eq.
  - intros x e _ He. by exists e.
  - apply (wf_brk _ _ _ _ Hwf).
Qed.

Lemma answers_found `{Platform} w table t cs k x e :
  wf w table t cs → entry_of w cs k x e →
  answers w table k =
    (Some (negb (marked_for_removal e)), Some (size e),
     Some (null_terminated e), Some (ref_count e mod cardinal_modulus),
     Some (if marked_for_removal e then NULL else value e)).
Proof.
  intros Hwf Hx. unfold answers.
  rewrite (kvs_entry_exists_found _ _ _ _ Hwf _ _ _ Hx).
  rewrite (kvs_size_for_key_found _ _ _ _ Hwf _ _ _ Hx).
  rewrite (kvs_data_for_key_is_null_terminated_found _ _ _ _ Hwf _ _ _ Hx).
  rewrite (kvs_reference_count_for_key_found _ _ _ _ Hwf _ _ _ Hx).
  rewrite (kvs_reference_for_key_found _ _ _ _ Hwf _ _ _ Hx).
  by destruct (marked_for_removal e).
Qed.

Lemma answers_unused `{Platform} w table t cs k :
  wf w table t cs → unused_key w cs k →
  answers w table k = (Some false, Some 0, Some false, Some 0, Some NULL).
Proof.
  intros Hwf Hun. unfold answers.
  rewrite (kvs_entry_exists_unused _ _ _ _ Hwf _ Hun).
  rewrite (kvs_size_for_key_unused _ _ _ _ Hwf _ Hun).
  rewrite (kvs_data_for_key_is_null_terminated_unused _ _ _ _ Hwf _ Hun).
  rewrite (kvs_reference_count_for_key_unused _ _ _ _ Hwf _ Hun).
  by rewrite (kvs_reference_for_key_unused _ _ _ _ Hwf _ Hun).
Qed.

(** X9: the lookup cache changes no answer.  On a well-formed table, with
    the cache emptied or pointed at any linked entry, [kvs_entry_exists],
    [kvs_size_for_key], [kvs_data_for_key_is_null_terminated],
    [kvs_reference_count_for_key] and [kvs_reference_for_key] return for
    every key what they return with the cache as it is. *)
Theorem lookup_cache_changes_no_answer `{Platform} w table t cs c k :
  wf w table t cs → c = NULL ∨ linked cs c →
  answers (cached_world w table t c) table k = answers w table k.
Proof.
  intros Hwf Hc.
  pose proof (cached_world_wf _ _ _ _ _ Hwf Hc) as Hwf'.
  destruct (find_entry_spec w table t cs Hwf k)
    as [(x & e & Hx & _)|[Hun _]].
  - rewrite (answers_found _ _ _ _ _ _ _ Hwf Hx).
    exact (answers_found _ _ _ _ k x e Hwf' Hx).
  - rewrite (answers_unused _ _ _ _ _ Hwf Hun).
    exact (answers_unused _ _ _ _ k Hwf' Hun).
Qed.

Lemma lookup_cache_changes_no_answer_witness :
  answers (H := lp64) (cached_world one_reference_world 1000
                         one_reference_table 1001) 1000 7
  = answers (H := lp64) one_reference_world 1000 7.
Proof.
  apply (lookup_cache_changes_no_answer (H := lp64) one_reference_world 1000
           one_reference_table [[]; []; []; [1001]] 1001 7).
  - apply wf_check_sound. vm_compute. reflexivity.
  - right. apply linked_join. vm_compute.
    apply list_elem_of_In. simpl. by left.
Defined.

(** ** A new table *)

Lemma nothing_linked n x : ¬ linked (replicate n ([] : list Z)) x.
Proof.
  intros (i & l & Hl & Hx). apply lookup_replicate_1 in Hl as [-> _].
  by apply not_elem_of_nil in Hx.
Qed.



(** ** What a call does to the table *)

Lemma length_join_insert (cs : list (list Z)) : ∀ i l l',
  cs !! i = Some l →
  (length (mjoin (<[i := l']> cs)) + length l
   = length (mjoin cs) + length l')%nat.
Proof.
  induction cs as [|c cs IH]; intros i l l' Hl; [done|].
  destruct i as [|i]; simpl in *.
  - injection Hl as ->. rewrite !length_app. lia.
  - rewrite !length_app. specialize (IH i l l' Hl). lia.
Qed.

Lemma same_data_refl e : same_data e e.
Proof. done. Qed.

Lemma same_data_set_next e n : same_data e (set_next e n).
Proof. done. Qed.

Section Effect.

Context `{Platform}.
Context (w : world) (table : Z) (t : kvs_table_s) (cs : list (list Z)).
Context (Hwf : wf w table t cs).

(** A call that keeps the chains. *)
Lemma effect_same_chains w' t' :
  wf w' table t' cs → bucket_count t' = bucket_count t →
  entry_count t' = entry_count t →
  (∀ y ey, linked cs y → entries w !! y = Some ey →
     ∃ ey', entries w' !! y = Some ey' ∧ same_data ey ey') →
  effect table w t cs w'.
Proof.
  intros Hwf' Hbc Hec Hkept. exists t', cs.
  split; [done|]. split; [done|]. split; [by left|]. split.
  - intros y ey Hy Hey. right. split; [done|]. by apply Hkept.
  - intros y Hy Hny. done.
Qed.

(** A call that leaves the entries alone and at most moves the cache. *)
Lemma effect_frame w' t' :
  tables w' !! table = Some t' →
  bucket_count t' = bucket_count t → bucket t' = bucket t →
  entry_count t' = entry_count t →
  (last_retrieved_entry t' = NULL ∨ linked cs (last_retrieved_entry t')) →
  entries w' = entries w → brk w <= brk w' →
  effect table w t cs w'.
Proof.
  intros Ht' Hbc Hb Hec Hcache Hent Hbrk.
  apply (effect_same_chains w' t'); try done.
  - destruct (wf_brk _ _ _ _ Hwf) as [Hb0 Hfresh].
    eapply wf_update; try done.
    + intros x e _ He. exists e. by rewrite Hent.
    + split; [lia|]. intros a e. rewrite Hent. intros Ha.
      pose proof (Hfresh _ _ Ha). lia.
  - intros y ey _ Hey. exists ey. by rewrite Hent.
Qed.

Lemma effect_status s : effect table w t cs (with_status w s).
Proof.
  apply (effect_frame _ t); try done.
  - apply (wf_table _ _ _ _ Hwf).
  - apply (wf_cache _ _ _ _ Hwf).
Qed.

Lemma effect_found x :
  linked cs x → effect table w t cs (found_world w table t x).
Proof.
  intros Hx. apply (effect_frame _ (set_last_retrieved_entry t x)); try done.
  - simpl. apply lookup_insert_eq.
  - by right.
Qed.

Lemma effect_found_status x s :
  linked cs x →
  effect table w t cs (with_status (found_world w table t x) s).
Proof.
  intros Hx. apply (effect_frame _ (set_last_retrieved_entry t x)); try done.
  - simpl. apply lookup_insert_eq.
  - by right.
Qed.

(** A call on a store that differs from [w] in counts and marks only. *)
Lemma effect_after w1 t1 w' :
  bucket_count t1 = bucket_count t → entry_count t1 = entry_count t →
  (∀ y ey, linked cs y → entries w !! y = Some ey →
     ∃ ey1, entries w1 !! y = Some ey1 ∧ same_data ey ey1) →
  effect table w1 t1 cs w' → effect table w t cs w'.
Proof.
  intros Hbc Hec Hpre (t' & cs' & Hwf' & Hbc' & Hcount & Hkept & Hnew).
  exists t', cs'. split; [done|]. split; [congruence|].
  split; [unfold count_step in *; by rewrite <- Hec|]. split; [|done].
  intros y ey Hy Hey.
  destruct (Hpre y ey Hy Hey) as (ey1 & Hey1 & Hk1 & Hv1 & Hs1 & Hn1).
  destruct (Hkept y ey1 Hy Hey1)
    as [Hgone|[Hy' (ey' & Hey' & Hk & Hv & Hs & Hn)]]; [by left|].
  right. split; [done|]. exists ey'. split; [done|].
  unfold same_data. by rewrite Hk, Hv, Hs, Hn.
Qed.

Lemma effect_entry_exists k b w' :
  kvs_entry_exists table k w = Some (b, w') → effect table w t cs w'.
Proof.
  destruct (find_entry_spec w table t cs Hwf k)
    as [(x & e & Hx & _)|[Hun _]].
  - rewrite (kvs_entry_exists_found _ _ _ _ Hwf _ _ _ Hx).
    destruct Hx as (Hl & _).
    destruct (marked_for_removal e); intros [= <- <-].
    + by apply effect_found_status.
    + by apply effect_found.
  - rewrite (kvs_entry_exists_unused _ _ _ _ Hwf _ Hun). intros [= <- <-].
    apply effect_status.
Qed.

Lemma effect_size_for_key k r w' :
  kvs_size_for_key table k w = Some (r, w') → effect table w t cs w'.
Proof.
  destruct (find_entry_spec w table t cs Hwf k)
    as [(x & e & Hx & _)|[Hun _]].
  - rewrite (kvs_size_for_key_found _ _ _ _ Hwf _ _ _ Hx).
    destruct Hx as (Hl & _). intros [= <- <-]. by apply effect_found.
  - rewrite (kvs_size_for_key_unused _ _ _ _ Hwf _ Hun). intros [= <- <-].
    apply effect_status.
Qed.

Lemma effect_null_terminated k r w' :
  kvs_data_for_key_is_null_terminated table k w = Some (r, w') →
  effect table w t cs w'.
Proof.
  destruct (find_entry_spec w table t cs Hwf k)
    as [(x & e & Hx & _)|[Hun _]].
  - rewrite (kvs_data_for_key_is_null_terminated_found _ _ _ _ Hwf _ _ _ Hx).
    destruct Hx as (Hl & _). intros [= <- <-]. by apply effect_found.
  - rewrite (kvs_data_for_key_is_null_terminated_unused _ _ _ _ Hwf _ Hun).
    intros [= <- <-]. apply effect_status.
Qed.

Lemma effect_reference_count k r w' :
  kvs_reference_count_for_key table k w = Some (r, w') →
  effect table w t cs w'.
Proof.
  destruct (find_entry_spec w table t cs Hwf k)
    as [(x & e & Hx & _)|[Hun _]].
  - rewrite (kvs_reference_count_for_key_found _ _ _ _ Hwf _ _ _ Hx).
    destruct Hx as (Hl & _). intros [= <- <-]. by apply effect_found.
  - rewrite (kvs_reference_count_for_key_unused _ _ _ _ Hwf _ Hun).
    intros [= <- <-]. apply effect_status.
Qed.

(** A store that differs from [w] in the count of the entry at [x]. *)
Lemma recounted_same_data x e c tb s y ey :
  entries w !! x = Some e → entries w !! y = Some ey →
  ∃ ey', entries (World tb (<[x := set_ref_count e c]> (entries w))
                    (octets w) (brk w) (grants w) s) !! y = Some ey' ∧
         same_data ey ey'.
Proof.
  intros He Hey. simpl. destruct (decide (x = y)) as [->|Hne].
  - rewrite lookup_insert_eq. eexists. split; [done|].
    assert (ey = e) as -> by congruence. done.
  - rewrite lookup_insert_ne by done. by exists ey.
Qed.

Lemma effect_referenced k x e :
  entry_of w cs k x e →
  effect table w t cs (referenced_world w table t x e).
Proof.
  intros Hx.
  apply (effect_same_chains _ (set_last_retrieved_entry t x)); try done.
  - by eapply referenced_world_wf.
  - intros y ey _ Hey. destruct Hx as (_ & He & _).
    by apply recounted_same_data.
Qed.

Lemma effect_reference_for_key k r w' :
  kvs_reference_for_key table k w = Some (r, w') → effect table w t cs w'.
Proof.
  destruct (find_entry_spec w table t cs Hwf k)
    as [(x & e & Hx & _)|[Hun _]].
  - rewrite (kvs_reference_for_key_found _ _ _ _ Hwf _ _ _ Hx).
    destruct (marked_for_removal e); intros [= <- <-].
    + destruct Hx as (Hl & _). by apply effect_found_status.
    + by eapply effect_referenced.
  - rewrite (kvs_reference_for_key_unused _ _ _ _ Hwf _ Hun).
    intros [= <- <-]. apply effect_status.
Qed.

End Effect.

Section EffectCopy.

Context `{Platform}.
Context (w : world) (table : Z) (t : kvs_table_s) (cs : list (list Z)).
Context (Hwf : wf w table t cs).

(** The retrievals by copy on a live entry come down to
    [_kvs_retrieve_copy], unless the size of the entry is zero. *)
Lemma kvs_value_for_key_found k x e g :
  entry_of w cs k x e → marked_for_removal e = false →
  kvs_value_for_key table k g w =
    if size e =? 0
    then Some (NULL, with_status (found_world w table t x)
                       (Some KVS_STATUS_SIZE_OF_ENTRY_UNKNOWN))
    else _kvs_retrieve_copy x g (found_world w table t x).
Proof.
  intros Hx Hm. unfold kvs_value_for_key.
  rewrite (table_not_null _ _ _ _ Hwf).
  run (find_entry_found _ _ _ _ Hwf _ _ _ Hx).
  rewrite (entry_not_null _ _ _ _ Hwf _ _ _ Hx).
  destruct Hx as (_ & He & _).
  run (found_world_entry w table t x _ _ He).
  rewrite Hm. by destruct (size e =? 0).
Qed.

Lemma kvs_get_entry_copy_found k x e g :
  entry_of w cs k x e → marked_for_removal e = false →
  kvs_get_entry table true k g w =
    if size e =? 0
    then Some ((NULL, None, None),
               with_status (found_world w table t x)
                 (Some KVS_STATUS_SIZE_OF_ENTRY_UNKNOWN))
    else (let* new_copy := _kvs_retrieve_copy x g in
          ret (new_copy, Some (size e), Some (null_terminated e)))
           (found_world w table t x).
Proof.
  intros Hx Hm. unfold kvs_get_entry.
  rewrite (table_not_null _ _ _ _ Hwf).
  run (find_entry_found _ _ _ _ Hwf _ _ _ Hx).
  rewrite (entry_not_null _ _ _ _ Hwf _ _ _ Hx).
  destruct Hx as (_ & He & _).
  run (found_world_entry w table t x _ _ He).
  rewrite Hm. by destruct (size e =? 0).
Qed.

Lemma effect_retrieve_copy x g p w' :
  linked cs x →
  _kvs_retrieve_copy x g (found_world w table t x) = Some (p, w') →
  effect table w t cs w'.
Proof.
  intros Hx Hcopy.
  apply retrieve_copy_frame in Hcopy as (Htb & Hent & Hbrk).
  apply (effect_frame _ _ _ _ Hwf _ (set_last_retrieved_entry t x));
    try done.
  - rewrite Htb. simpl. apply lookup_insert_eq.
  - by right.
Qed.

Lemma effect_value_for_key k g r w' :
  kvs_value_for_key table k g w = Some (r, w') → effect table w t cs w'.
Proof.
  destruct (find_entry_spec w table t cs Hwf k)
    as [(x & e & Hx & _)|[Hun _]].
  - pose proof Hx as (Hl & _).
    destruct (marked_for_removal e) eqn:Hm.
    + rewrite (kvs_value_for_key_pending _ _ _ _ Hwf _ _ _ _ Hx Hm).
      intros [= <- <-]. by apply effect_found_status.
    + rewrite (kvs_value_for_key_found _ _ _ _ Hx Hm).
      destruct (size e =? 0).
      * intros [= <- <-]. by apply effect_found_status.
      * by apply effect_retrieve_copy.
  - rewrite (kvs_value_for_key_unused _ _ _ _ Hwf _ _ Hun).
    intros [= <- <-]. by apply effect_status.
Qed.

Lemma effect_get_entry copy k g r w' :
  kvs_get_entry table copy k g w = Some (r, w') → effect table w t cs w'.
Proof.
  destruct (find_entry_spec w table t cs Hwf k)
    as [(x & e & Hx & _)|[Hun _]].
  - pose proof Hx as (Hl & _).
    destruct (marked_for_removal e) eqn:Hm.
    { rewrite (kvs_get_entry_pending _ _ _ _ Hwf _ _ _ _ _ Hx Hm).
      intros [= <- <-]. by apply effect_found_status. }
    destruct copy.
    + rewrite (kvs_get_entry_copy_found _ _ _ _ Hx Hm).
      destruct (size e =? 0).
      * intros [= <- <-]. by apply effect_found_status.
      * unfold bind.
        destruct (_kvs_retrieve_copy x g _) as [[p w1]|] eqn:Hcopy; [|done].
        intros [= <- <-]. by eapply effect_retrieve_copy.
    + rewrite (kvs_get_entry_reference_found _ _ _ _ Hwf _ _ _ _ Hx).
      rewrite Hm. intros [= <- <-]. by eapply effect_referenced.
  - rewrite (kvs_get_entry_unused _ _ _ _ Hwf _ _ _ Hun).
    intros [= <- <-]. by apply effect_status.
Qed.

(** [kvs_remove_entry] on a linked entry: it is marked, or it is gone. *)
Lemma effect_remove_found k x e w' :
  entry_of w cs k x e →
  kvs_remove_entry table k w = Some (tt, w') → effect table w t cs w'.
Proof.
  intros Hx.
  destruct (decide (1 < ref_count e)) as [Hrc|Hrc].
  - rewrite (kvs_remove_entry_marks _ _ _ _ Hwf _ _ _ Hx Hrc).
    intros [= <-].
    apply (effect_same_chains _ _ _ _ _ t); try done.
    + by eapply marked_world_wf.
    + destruct Hx as (_ & He & _). intros y ey _ Hey. simpl.
      destruct (decide (x = y)) as [->|Hne].
      * rewrite lookup_insert_eq. eexists. split; [done|].
        assert (ey = e) as -> by congruence. done.
      * rewrite lookup_insert_ne by done. by exists ey.
  - assert (ref_count e <= 1) as Hle by lia.
    assert (value e = NULL ∨ is_Some (octets w !! value e) ∨
            (value e ≠ NULL ∧ octets w !! value e = None)) as Hcases.
    { destruct (decide (value e = NULL)); [by left|].
      destruct (octets w !! value e) eqn:Hoc; [right; left; by eexists|].
      right. by right. }
    destruct Hcases as [Hv|[Hv|[Hv Hoc]]].
    3: { by rewrite (kvs_remove_entry_undefined _ _ _ _ Hwf _ _ _ Hx Hle
                       Hv Hoc). }
    all: destruct (kvs_remove_entry_frees _ _ _ _ Hwf k x e Hx Hle)
           as (w'' & t' & l1 & l2 & -> & Hl & Hwf' & Hgone & Hec & Hbc
               & Hframe & _); [tauto|]; intros [= <-];
         exists t', (<[Z.to_nat (k mod bucket_count t) := l1 ++ l2]> cs);
         (split; [done|]); (split; [done|]);
         (split;
          [right; right; split; [done|];
           pose proof (length_join_insert cs _ _ (l1 ++ l2) Hl) as Hlen;
           rewrite !length_app in Hlen; simpl in Hlen; lia|]);
         (split;
          [intros y ey Hy Hey; destruct (decide (y = x)) as [->|Hne];
           [left; split; [done|];
            rewrite (linked_unlink _ _ _ _ _ _ _ _ _ Hwf Hl); tauto
           |right; split;
            [by apply (linked_unlink _ _ _ _ _ _ _ _ _ Hwf Hl)|];
            destruct (Hframe y ey Hne Hey) as (ey' & Hey' & Heq);
            exists ey'; split; [done|]; rewrite Heq;
            apply same_data_set_next]
          |intros y Hy Hny;
           apply (linked_unlink _ _ _ _ _ _ _ _ _ Hwf Hl) in Hy; tauto]).
Qed.

Lemma effect_remove_entry k w' :
  kvs_remove_entry table k w = Some (tt, w') → effect table w t cs w'.
Proof.
  destruct (decide (k = 0)) as [->|Hk].
  { unfold kvs_remove_entry. rewrite (table_not_null _ _ _ _ Hwf).
    change (0 =? 0) with true. cbv iota. intros [= <-].
    by apply effect_status. }
  destruct (find_entry_spec w table t cs Hwf k)
    as [(x & e & Hx & _)|[Hun _]].
  - by apply (effect_remove_found k x e).
  - rewrite (kvs_remove_entry_unused _ _ _ _ Hwf _ Hk Hun). intros [= <-].
    by apply effect_status.
Qed.

End EffectCopy.

Section EffectChanges.

Context `{Platform}.
Context (w : world) (table : Z) (t : kvs_table_s) (cs : list (list Z)).
Context (Hwf : wf w table t cs).

Lemma effect_release_entry k w' :
  kvs_release_entry table k w = Some (tt, w') → effect table w t cs w'.
Proof.
  destruct (find_entry_spec w table t cs Hwf k)
    as [(x & e & Hx & _)|[Hun _]].
  2: { rewrite (kvs_release_entry_unused _ _ _ _ Hwf _ Hun). intros [= <-].
       by apply effect_status. }
  rewrite (kvs_release_entry_found _ _ _ _ Hwf _ _ _ Hx).
  pose proof (released_world_wf _ _ _ _ Hwf _ _ _ Hx) as Hwf1.
  pose proof Hx as (Hl & He & Hk).
  assert (∀ y ey, linked cs y → entries w !! y = Some ey →
            ∃ ey1, entries (released_world w table t x e) !! y = Some ey1 ∧
                   same_data ey ey1) as Hpre.
  { intros y ey _ Hey. by apply recounted_same_data. }
  destruct (1 <? ref_count e).
  2: { intros [= <-]. by apply effect_found. }
  destruct (_ && _).
  - intros Hrun.
    apply (effect_after _ _ _ _ (released_world w table t x e)
             (set_last_retrieved_entry t x)); try done.
    apply (effect_remove_found _ _ _ _ Hwf1 k x
             (set_ref_count e ((ref_count e - 1) mod word_modulus)));
      [|done].
    split; [done|]. split; [|done]. simpl. apply lookup_insert_eq.
  - intros [= <-].
    by apply (effect_same_chains _ _ _ _ _ (set_last_retrieved_entry t x)).
Qed.

Lemma with_ref_makes_entry_of k val siz nt :
  val ≠ NULL →
  makes_entry_of (_kvs_new_entry_with_ref k val siz nt) w k siz nt.
Proof.
  intros Hv n st w1. destruct (wf_brk _ _ _ _ Hwf) as [Hb0 _].
  destruct (granted w) as [s|] eqn:Hg.
  - rewrite (new_entry_with_ref_granted _ _ _ _ _ _ Hg)
      by (unfold NULL; lia).
    intros [= <- <- <-]. split; [done|]. right. simpl.
    split; [done|]. split; [lia|]. by exists val.
  - rewrite (new_entry_with_ref_refused _ _ _ _ _ Hg).
    intros [= <- <- <-]. split; [done|]. by left.
Qed.

Lemma with_copy_makes_entry_of k val siz nt :
  makes_entry_of (_kvs_new_entry_with_copy k val siz nt) w k siz nt.
Proof.
  intros n st w1 Hrun. destruct (wf_brk _ _ _ _ Hwf) as [Hb0 _].
  destruct (new_entry_with_copy_result _ _ _ _ _ _ _ _ Hb0
              (brk_fresh _ _ _ _ Hwf) Hrun) as [Htb Hcases].
  split; [done|]. destruct Hcases as [?|(Hn & Hb & Hen)]; [by left|].
  right. split; [done|]. split; [done|]. exists (brk w + 1).
  split; [unfold NULL; lia|done].
Qed.

Lemma effect_store_entry new_entry_with k siz nt w' :
  k ≠ 0 → siz ≠ 0 → makes_entry_of new_entry_with w k siz nt →
  store_entry new_entry_with table k w = Some (tt, w') →
  effect table w t cs w'.
Proof.
  intros Hk Hs Hmakes.
  destruct (find_entry_spec w table t cs Hwf k)
    as [(x & e & Hx & _)|[Hun _]].
  { rewrite (store_entry_used _ _ _ _ Hwf _ _ _ _ Hx). intros [= <-].
    by apply effect_status. }
  destruct (new_entry_with w) as [[[n st] w1]|] eqn:Hnew.
  2: { by rewrite (store_entry_undefined _ _ _ _ Hwf _ _ Hun Hnew). }
  destruct (wf_brk _ _ _ _ Hwf) as [Hb0 Hfresh].
  destruct (Hmakes n st w1 Hnew)
    as [Htb [(-> & Hen & Hbrk)|(-> & Hbrk & v & Hv & Hen)]].
  - rewrite (store_entry_failed _ _ _ _ Hwf _ _ _ _ Hun Hnew).
    intros [= <-]. apply (effect_frame _ _ _ _ Hwf _ t); try done.
    + simpl. rewrite Htb. apply (wf_table _ _ _ _ Hwf).
    + apply (wf_cache _ _ _ _ Hwf).
  - pose proof (brk_fresh _ _ _ _ Hwf) as Hnone.
    destruct (store_entry_linked _ _ _ _ Hwf _ _ _ _ _
                (new_entry_value k v siz nt) Hun Hk Hnew)
      as (w'' & t' & l & -> & Hl & Hwf' & _ & _ & _ & _ & Hec & Hbc & _
          & Hnew' & Hframe); try done.
    { unfold NULL. lia. }
    { split; [lia|]. intros a e. rewrite Hen.
      destruct (decide (a = brk w)) as [->|Hne].
      - intros _. lia.
      - rewrite lookup_insert_ne by done. intros Ha.
        pose proof (Hfresh _ _ Ha). lia. }
    intros [= <-].
    exists t', (<[Z.to_nat (k mod bucket_count t) := l ++ [brk w]]> cs).
    split; [done|]. split; [done|]. split.
    { right. left. split; [done|].
      pose proof (length_join_insert cs _ _ (l ++ [brk w]) Hl) as Hlen.
      rewrite length_app in Hlen. simpl in Hlen. lia. }
    split.
    + intros y ey Hy Hey. right.
      assert (y ≠ brk w) as Hne by (intros ->; congruence).
      split.
      * apply (linked_insert _ _ _ _ _ Hl).
        destruct Hy as (j & lj & Hlj & Hyj).
        destruct (decide (j = Z.to_nat (k mod bucket_count t))) as [->|Hj].
        -- left. rewrite Hl in Hlj. injection Hlj as <-.
           apply elem_of_app. by left.
        -- right. by exists j, lj.
      * destruct (Hframe y ey Hne Hey) as (ey' & Hey' & Heq).
        exists ey'. split; [done|]. rewrite Heq. apply same_data_set_next.
    + intros y Hy Hny.
      apply (linked_insert _ _ _ _ _ Hl) in Hy
        as [Hy|(j & lj & Hj & Hlj & Hyj)].
      * apply elem_of_app in Hy as [Hy|Hy].
        -- destruct Hny. by exists (Z.to_nat (k mod bucket_count t)), l.
        -- apply list_elem_of_singleton in Hy as ->.
           by exists (new_entry_value k v siz nt).
      * destruct Hny. by exists j, lj.
Qed.

Ltac leaf :=
  unfold bind, _kvs_set_status, ret; cbv beta iota; intros [= <-].

Lemma effect_store_value k val siz nt w' :
  kvs_store_value table k val siz nt w = Some (tt, w') →
  effect table w t cs w'.
Proof.
  unfold kvs_store_value.
  rewrite (table_not_null _ _ _ _ Hwf).
  destruct (k =? 0) eqn:Hk; [leaf; by apply effect_status|].
  destruct (val =? NULL); [leaf; by apply effect_status|].
  destruct ((siz =? 0) && negb nt); [leaf; by apply effect_status|].
  apply Z.eqb_neq in Hk.
  assert (∀ n, (if n =? 0 then _kvs_set_status KVS_STATUS_INVALID_SIZE
                else store_entry (_kvs_new_entry_with_copy k val n nt) table k)
                 w = Some (tt, w') → effect table w t cs w') as Hstore.
  { intros n. destruct (n =? 0) eqn:Hn; [leaf; by apply effect_status|].
    apply Z.eqb_neq in Hn.
    apply (effect_store_entry _ k n nt); try done.
    apply with_copy_makes_entry_of. }
  destruct (siz =? 0).
  - destruct nt.
    + unfold bind at 1, _kvs_calc_null_terminated_data_size.
      destruct (scan_octets (pointer_octets val) 0) as [n|]; [|done].
      apply Hstore.
    + unfold bind at 1, ret. apply Hstore.
  - unfold bind at 1, ret. apply Hstore.
Qed.

Lemma effect_store_reference k val siz nt w' :
  kvs_store_reference table k val siz nt w = Some (tt, w') →
  effect table w t cs w'.
Proof.
  unfold kvs_store_reference.
  rewrite (table_not_null _ _ _ _ Hwf).
  destruct (k =? 0) eqn:Hk; [leaf; by apply effect_status|].
  destruct (val =? NULL) eqn:Hv; [leaf; by apply effect_status|].
  destruct ((siz =? 0) && negb nt); [leaf; by apply effect_status|].
  apply Z.eqb_neq in Hk, Hv.
  assert (∀ n, (if n =? 0 then _kvs_set_status KVS_STATUS_INVALID_SIZE
                else store_entry (_kvs_new_entry_with_ref k val n nt) table k)
                 w = Some (tt, w') → effect table w t cs w') as Hstore.
  { intros n. destruct (n =? 0) eqn:Hn; [leaf; by apply effect_status|].
    apply Z.eqb_neq in Hn.
    apply (effect_store_entry _ k n nt); try done.
    by apply with_ref_makes_entry_of. }
  destruct ((siz =? 0) && nt).
  - unfold bind at 1, _kvs_calc_null_terminated_data_size.
    destruct (scan_octets (pointer_octets val) 0) as [n|]; [|done].
    apply Hstore.
  - unfold bind at 1, ret. apply Hstore.
Qed.

Lemma effect_perform c w' :
  perform table c w = Some (tt, w') → effect table w t cs w'.
Proof.
  destruct c; simpl.
  - by apply effect_store_value.
  - by apply effect_store_reference.
  - unfold bind. destruct (kvs_entry_exists table k w) as [[r w1]|] eqn:Hrun;
      [|done]. intros [= <-]. by eapply effect_entry_exists.
  - unfold bind.
    destruct (kvs_get_entry table copy k new_entry w) as [[r w1]|] eqn:Hrun;
      [|done]. intros [= <-]. by eapply effect_get_entry.
  - unfold bind.
    destruct (kvs_value_for_key table k new_entry w) as [[r w1]|] eqn:Hrun;
      [|done]. intros [= <-]. by eapply effect_value_for_key.
  - unfold bind.
    destruct (kvs_reference_for_key table k w) as [[r w1]|] eqn:Hrun;
      [|done]. intros [= <-]. by eapply effect_reference_for_key.
  - unfold bind. destruct (kvs_size_for_key table k w) as [[r w1]|] eqn:Hrun;
      [|done]. intros [= <-]. by eapply effect_size_for_key.
  - unfold bind.
    destruct (kvs_data_for_key_is_null_terminated table k w)
      as [[r w1]|] eqn:Hrun; [|done].
    intros [= <-]. by eapply effect_null_terminated.
  - unfold bind.
    destruct (kvs_reference_count_for_key table k w) as [[r w1]|] eqn:Hrun;
      [|done]. intros [= <-]. by eapply effect_reference_count.
  - by apply effect_release_entry.
  - by apply effect_remove_entry.
  - unfold kvs_number_of_buckets, bind, the_table, ret.
    rewrite (table_not_null _ _ _ _ Hwf). cbv beta iota delta [negb].
    rewrite (wf_table _ _ _ _ Hwf). intros [= <-].
    apply (effect_frame _ _ _ _ Hwf _ t); try done.
    + apply (wf_table _ _ _ _ Hwf).
    + apply (wf_cache _ _ _ _ Hwf).
  - unfold kvs_number_of_entries, bind, the_table, ret.
    rewrite (table_not_null _ _ _ _ Hwf). cbv beta iota delta [negb].
    rewrite (wf_table _ _ _ _ Hwf). intros [= <-].
    apply (effect_frame _ _ _ _ Hwf _ t); try done.
    + apply (wf_table _ _ _ _ Hwf).
    + apply (wf_cache _ _ _ _ Hwf).
Qed.

End EffectChanges.

(** X11: whatever a public function other than [kvs_dispose_table] does on
    a well-formed table, the table is well formed afterwards, with the same
    number of buckets.  No call changes the key, the value pointer, the
    size or the null-terminated flag of an entry: an entry that was linked
    is afterwards either freed and out of its chain, or still linked with
    these fields as they were.  An entry that is linked only afterwards has
    a value that is not [NULL], a size that is not zero, a count of one and
    no mark.  The entry count stays, goes up by one or goes down by one
    together with the number of linked entries. *)
Theorem calls_keep_the_stored_data `{Platform} table c w t cs w' :
  wf w table t cs → perform table c w = Some (tt, w') →
  effect table w t cs w'.
Proof. intros Hwf. by apply effect_perform. Qed.

Lemma two_keys_world_run :
  perform (H := lp64) 1000 (store_reference 3 200 2 false) one_reference_world
  = Some (tt, two_keys_world).
Proof. vm_compute. reflexivity. Qed.

Lemma calls_keep_the_stored_data_witness :
  effect (H := lp64) 1000 one_reference_world one_reference_table
    [[]; []; []; [1001]] two_keys_world.
Proof.
  apply (calls_keep_the_stored_data (H := lp64) 1000
           (store_reference 3 200 2 false)).
  - apply wf_check_sound. vm_compute. reflexivity.
  - vm_compute. reflexivity.
Defined.

(** ** What holds in every store that is reached *)

Lemma join_replicate_nil n : mjoin (replicate n ([] : list Z)) = [].
Proof. induction n as [|n IH]; [done|]. simpl. exact IH. Qed.

Section Sound.

Context `{Platform}.
Context (table : Z).

Lemma sound_effect w t cs w' :
  wf w table t cs →
  entry_count t = Z.of_nat (length (mjoin cs)) mod cardinal_modulus →
  (∀ y ey, linked cs y → entries w !! y = Some ey →
     value ey ≠ NULL ∧ size ey ≠ 0) →
  effect table w t cs w' → sound table w'.
Proof.
  intros Hwf Hec Hdata (t' & cs' & Hwf' & _ & Hcount & Hkept & Hnew).
  pose proof cardinal_modulus_min as Hm.
  exists t', cs'. split; [done|]. split.
  - destruct Hcount as [[-> Hlen]|[[-> Hlen]|[-> Hlen]]].
    + by rewrite Hlen.
    + rewrite Hlen, Hec, Nat2Z.inj_succ.
      rewrite Z.add_mod_idemp_l by lia. f_equal; lia.
    + rewrite Hec, Zminus_mod_idemp_l, <- Hlen, Nat2Z.inj_succ.
      f_equal; lia.
  - intros y ey' Hy Hey'.
    destruct (decide (y ∈ mjoin cs)) as [Hin|Hin].
    + apply linked_join in Hin.
      destruct (linked_allocated _ _ _ _ Hwf y Hin) as [_ [ey Hey]].
      destruct (Hkept y ey Hin Hey)
        as [[_ Hgone]|[_ (ey'' & Hey'' & _ & Hv & Hs & _)]]; [done|].
      assert (ey' = ey'') as -> by congruence.
      rewrite Hv, Hs. by apply (Hdata y ey).
    + destruct (Hnew y Hy) as (ey'' & Hey'' & Hv & Hs & _).
      { by rewrite linked_join. }
      assert (ey' = ey'') as -> by congruence. done.
Qed.

Lemma sound_perform w c w' :
  sound table w → perform table c w = Some (tt, w') → sound table w'.
Proof.
  intros (t & cs & Hwf & Hec & Hdata) Hrun.
  apply (sound_effect w t cs); try done. by apply (effect_perform _ _ _ _ Hwf c).
Qed.

Lemma sound_new_table w0 siz w :
  0 < brk w0 → (∀ a e, entries w0 !! a = Some e → a < brk w0) →
  0 <= siz → table ≠ NULL →
  kvs_new_table siz w0 = Some (table, w) → sound table w.
Proof.
  intros Hb Hfresh Hs Ht Hrun.
  destruct (kvs_new_table_cases _ _ _ _ Hb Hs Hrun)
    as [[-> _]|[_ (s & Hg & Hslack)]]; [done|].
  destruct (kvs_new_table_wf siz w0 s Hg Hslack Hb Hs Hfresh)
    as (w1 & Hrun1 & Hwf & _).
  rewrite Hrun1 in Hrun. injection Hrun as <- <-.
  eexists _, _. split; [exact Hwf|].
  split; [by rewrite join_replicate_nil|].
  intros y ey Hy. by apply nothing_linked in Hy.
Qed.

Lemma sound_reachable w : reachable any_call table w → sound table w.
Proof.
  induction 1 as [w0 siz w Hb Hfresh Hs Ht Hnew|w c w' _ IH _ Hrun
                 |w w' _ IH Htb Hen Hbrk].
  - by eapply sound_new_table.
  - by eapply sound_perform.
  - destruct IH as (t & cs & Hwf & Hec & Hdata).
    apply (sound_effect w t cs); try done.
    apply (effect_frame _ _ _ _ Hwf _ t); try done.
    + rewrite Htb. apply (wf_table _ _ _ _ Hwf).
    + apply (wf_cache _ _ _ _ Hwf).
Qed.

(** What [_kvs_retrieve_copy] reports. *)
Lemma retrieve_copy_status x g w0 p w' :
  _kvs_retrieve_copy x g w0 = Some (p, w') →
  status w' = Some KVS_STATUS_ALLOCATION_FAILED ∨
  status w' = Some KVS_STATUS_SUCCESS.
Proof.
  unfold _kvs_retrieve_copy. unfold bind at 1, the_entry.
  destruct (entries w0 !! x) as [e|] eqn:He; [|done].
  unfold bind at 1. cbv beta.
  destruct (ALLOCATE_octets (size e) w0) as [[new_copy w1]|]; [|done].
  destruct (new_copy =? NULL).
  - unfold bind, _kvs_set_status, ret. intros [= <- <-]. by left.
  - unfold bind at 1. cbv beta.
    destruct (entries w1 !! x) as [e1|]; [|done].
    unfold bind at 1. cbv beta.
    destruct (entries w1 !! g) as [eg|]; [|done].
    unfold bind at 1. cbv beta.
    destruct (copy_octets _ _ _ _ _ w1) as [[[] w4]|]; [|done].
    unfold bind, _kvs_set_status, ret. intros [= <- <-]. by right.
Qed.

End Sound.

(** X12: in every store reached by the public functions other than
    [kvs_dispose_table] from a table that a call of [kvs_new_table]
    returned, the table is well formed and
    [kvs_number_of_entries] returns the number of entries linked into its
    chains, those pending removal included, within [cardinal]. *)
Theorem number_of_entries_counts_the_linked_entries `{Platform} table w :
  reachable any_call table w →
  ∃ t cs,
    wf w table t cs ∧
    kvs_number_of_entries table w
      = Some (Z.of_nat (length (mjoin cs)) mod cardinal_modulus, w).
Proof.
  intros Hreach.
  destruct (sound_reachable _ _ Hreach) as (t & cs & Hwf & Hec & _).
  exists t, cs. split; [done|].
  unfold kvs_number_of_entries. rewrite (table_not_null _ _ _ _ Hwf).
  run (the_table_run _ _ _ (wf_table _ _ _ _ Hwf)).
  unfold ret. by rewrite Hec.
Qed.

Lemma number_of_entries_counts_the_linked_entries_witness :
  ∃ t cs,
    wf one_reference_world 1000 t cs ∧
    kvs_number_of_entries 1000 one_reference_world
      = Some (Z.of_nat (length (mjoin cs)) mod 2 ^ 32, one_reference_world).
Proof.
  apply (number_of_entries_counts_the_linked_entries (H := lp64) 1000
           one_reference_world).
  apply one_reference_world_reachable. intros w c. exact I.
Defined.

(** X13: in every store reached by the public functions other than
    [kvs_dispose_table] from a table that a call of [kvs_new_table]
    returned, every linked entry has a value pointer
    that is not [NULL] and a size that is not zero, so that no retrieval by
    copy ever reports "size of entry unknown". *)
Theorem size_of_entry_is_never_unknown `{Platform} table w :
  reachable any_call table w →
  ∃ t cs,
    wf w table t cs ∧
    (∀ y ey, linked cs y → entries w !! y = Some ey →
       value ey ≠ NULL ∧ size ey ≠ 0) ∧
    (∀ k g r w', kvs_value_for_key table k g w = Some (r, w') →
       status w' ≠ Some KVS_STATUS_SIZE_OF_ENTRY_UNKNOWN) ∧
    (∀ k g r w', kvs_get_entry table true k g w = Some (r, w') →
       status w' ≠ Some KVS_STATUS_SIZE_OF_ENTRY_UNKNOWN).
Proof.
  intros Hreach.
  destruct (sound_reachable _ _ Hreach) as (t & cs & Hwf & _ & Hdata).
  exists t, cs. split; [done|]. split; [done|].
  split; intros k g r w'.
  - destruct (find_entry_spec w table t cs Hwf k)
      as [(x & e & Hx & _)|[Hun _]].
    + destruct (marked_for_removal e) eqn:Hm.
      * rewrite (kvs_value_for_key_pending _ _ _ _ Hwf _ _ _ _ Hx Hm).
        by intros [= <- <-].
      * rewrite (kvs_value_for_key_found _ _ _ _ Hwf _ _ _ _ Hx Hm).
        destruct Hx as (Hl & He & _).
        destruct (Hdata x e Hl He) as [_ Hs].
        rewrite (proj2 (Z.eqb_neq _ _) Hs). intros Hcopy.
        by destruct (retrieve_copy_status _ _ _ _ _ Hcopy) as [->| ->].
    + rewrite (kvs_value_for_key_unused _ _ _ _ Hwf _ _ Hun).
      by intros [= <- <-].
  - destruct (find_entry_spec w table t cs Hwf k)
      as [(x & e & Hx & _)|[Hun _]].
    + destruct (marked_for_removal e) eqn:Hm.
      * rewrite (kvs_get_entry_pending _ _ _ _ Hwf _ _ _ _ _ Hx Hm).
        by intros [= <- <-].
      * rewrite (kvs_get_entry_copy_found _ _ _ _ Hwf _ _ _ _ Hx Hm).
        destruct Hx as (Hl & He & _).
        destruct (Hdata x e Hl He) as [_ Hs].
        rewrite (proj2 (Z.eqb_neq _ _) Hs). unfold bind.
        destruct (_kvs_retrieve_copy x g _) as [[p w1]|] eqn:Hcopy; [|done].
        intros [= <- <-].
        by destruct (retrieve_copy_status _ _ _ _ _ Hcopy) as [->| ->].
    + rewrite (kvs_get_entry_unused _ _ _ _ Hwf _ _ _ Hun).
      by intros [= <- <-].
Qed.

Lemma size_of_entry_is_never_unknown_witness :
  ∃ t cs,
    wf one_reference_world 1000 t cs ∧
    (∀ y ey, linked cs y → entries one_reference_world !! y = Some ey →
       value ey ≠ NULL ∧ size ey ≠ 0) ∧
    (∀ k g r w',
       kvs_value_for_key (H := lp64) 1000 k g one_reference_world
         = Some (r, w') →
       status w' ≠ Some KVS_STATUS_SIZE_OF_ENTRY_UNKNOWN) ∧
    (∀ k g r w',
       kvs_get_entry (H := lp64) 1000 true k g one_reference_world
         = Some (r, w') →
       status w' ≠ Some KVS_STATUS_SIZE_OF_ENTRY_UNKNOWN).
Proof.
  apply (size_of_entry_is_never_unknown (H := lp64) 1000 one_reference_world).
  apply one_reference_world_reachable. intros w c. exact I.
Defined.

(** ** Storing and finding again *)

Section CopyLoop.

Context `{Platform}.
Context (source target siz : Z) (payload : list Z).
Context (Hdistinct : source ≠ target).
Context (Hsize : 0 <= siz ∧ siz + 1 < cardinal_modulus).
Context (Hpayload : siz + 1 <= Z.of_nat (length payload)).

(** The copy loop from [index] on: it writes the octets [index] to [siz]
    of the source into the target and leaves the octets before [index]
    alone. *)
Lemma copy_octets_copies fuel : ∀ index w0 tgt,
  octets w0 !! source = Some payload → octets w0 !! target = Some tgt →
  0 <= index <= siz + 1 → siz + 1 <= Z.of_nat (length tgt) →
  (Z.to_nat (siz + 1 - index) < fuel)%nat →
  ∃ w' tgt',
    copy_octets fuel source target index siz w0 = Some (tt, w') ∧
    octets w' = <[target := tgt']> (octets w0) ∧
    length tgt' = length tgt ∧
    (∀ j, (Z.to_nat index ≤ j ≤ Z.to_nat siz)%nat →
          tgt' !! j = payload !! j) ∧
    (∀ j, (j < Z.to_nat index)%nat → tgt' !! j = tgt !! j).
Proof.
  induction fuel as [|fuel IH]; intros index w0 tgt Hsrc Htgt Hi Hlen Hfuel;
    [lia|].
  simpl. destruct (index <=? siz) eqn:Hle.
  - apply Z.leb_le in Hle.
    destruct (lookup_lt_is_Some_2 payload (Z.to_nat index)) as [b Hb];
      [lia|].
    unfold bind at 1, read_octet. rewrite Hsrc, Hb.
    unfold bind at 1, write_octet. rewrite Htgt.
    rewrite decide_True by lia.
    rewrite (Z.mod_small (index + 1)) by lia.
    set (tgt1 := <[Z.to_nat index := b]> tgt).
    set (w1 := with_octets w0 (<[target := tgt1]> (octets w0))).
    destruct (IH (index + 1) w1 tgt1) as (w' & tgt' & Hrun & Hoc & Hl & Hnew
                                          & Hold).
    { simpl. by rewrite lookup_insert_ne. }
    { simpl. apply lookup_insert_eq. }
    { lia. }
    { unfold tgt1. rewrite length_insert. lia. }
    { lia. }
    exists w', tgt'. split; [exact Hrun|]. split.
    { rewrite Hoc. simpl. apply insert_insert_eq. }
    split.
    { rewrite Hl. unfold tgt1. apply length_insert. }
    split.
    + intros j Hj. destruct (decide (j = Z.to_nat index)) as [->|Hne].
      * rewrite Hold by lia. unfold tgt1.
        rewrite list_lookup_insert_eq by lia. done.
      * apply Hnew. lia.
    + intros j Hj. rewrite Hold by lia. unfold tgt1.
      apply list_lookup_insert_ne. lia.
  - apply Z.leb_gt in Hle. exists w0, tgt. split; [done|].
    split; [by rewrite insert_id|]. split; [done|].
    split; [intros j Hj; lia|done].
Qed.

End CopyLoop.

Section StoreValue.

Context `{Platform}.

(** [_kvs_new_entry_with_copy] where both requests are granted, the second
    with an octet to spare, and the payload can be read up to its octet
    number [siz]. *)
Lemma new_entry_with_copy_granted k val siz nt w payload s1 s2 :
  0 < brk w → val < brk w → 0 <= siz → siz + 1 < cardinal_modulus →
  octets w !! val = Some payload → siz + 1 <= Z.of_nat (length payload) →
  granted w = Some s1 → granted (after_grant w) = Some s2 → (1 ≤ s2)%nat →
  ∃ w1 stored,
    _kvs_new_entry_with_copy k val siz nt w
      = Some ((brk w, KVS_STATUS_SUCCESS), w1) ∧
    tables w1 = tables w ∧
    entries w1 = <[brk w := new_entry_value k (brk w + 1) siz nt]> (entries w) ∧
    octets w1 = <[brk w + 1 := stored]> (octets w) ∧
    brk w1 = brk w + 2 ∧
    (∀ j, (j ≤ Z.to_nat siz)%nat → stored !! j = payload !! j).
Proof.
  intros Hb Hval Hs Hsm Hsrc Hlen Hg Hg2 Hslack.
  assert (brk w ≠ NULL) as Hnn by (unfold NULL; lia).
  rewrite (new_entry_with_copy_unfold _ _ _ _ _ _ Hg Hnn).
  erewrite bind_run; [|apply ALLOCATE_octets_granted; exact Hg2].
  erewrite bind_run;
    [|apply write_entry_run; simpl; apply lookup_insert_eq].
  cbn [brk]. assert (brk w + 1 ≠ NULL) as Hnn1 by (unfold NULL; lia).
  rewrite (proj2 (Z.eqb_neq _ _) Hnn1).
  unfold bind at 1.
  match goal with
  | |- context [copy_octets _ _ _ _ _ ?W] => set (w0 := W)
  end.
  assert (val ≠ brk w + 1) as Hne by lia.
  destruct (copy_octets_copies val (brk w + 1) siz payload Hne
              (conj Hs Hsm) Hlen (copy_fuel siz) 0 w0
              (replicate (Z.to_nat siz + s2) 0))
    as (w1 & stored & Hrun & Hoc & _ & Hnew & _).
  { unfold w0. simpl. rewrite lookup_insert_ne by lia. exact Hsrc. }
  { unfold w0. simpl. apply lookup_insert_eq. }
  { lia. }
  { rewrite length_replicate. lia. }
  { unfold copy_fuel. lia. }
  rewrite Hrun. unfold ret.
  pose proof (copy_octets_frame _ _ _ _ _ _ _ Hrun) as (Ht & He & Hbrk & _).
  exists w1, stored. split; [done|].
  split; [by rewrite Ht|].
  split; [rewrite He; unfold w0; simpl; by rewrite insert_insert_eq|].
  split; [rewrite Hoc; unfold w0; simpl; by rewrite insert_insert_eq|].
  split; [rewrite Hbrk; unfold w0; simpl; lia|].
  intros j Hj. apply Hnew. lia.
Qed.

End StoreValue.

Lemma linked_after_link (cs : list (list Z)) i l n y :
  cs !! i = Some l →
  linked (<[i := l ++ [n]]> cs) y ↔ y = n ∨ linked cs y.
Proof.
  intros Hl. rewrite (linked_insert _ _ _ _ _ Hl). split.
  - intros [Hy|(j & lj & _ & Hlj & Hy)].
    + apply elem_of_app in Hy as [Hy|Hy].
      * right. by exists i, l.
      * left. by apply list_elem_of_singleton in Hy.
    + right. by exists j, lj.
  - intros [->|(j & lj & Hlj & Hy)].
    + left. apply elem_of_app. right. by apply list_elem_of_singleton.
    + destruct (decide (j = i)) as [->|Hj].
      * left. rewrite Hl in Hlj. injection Hlj as <-.
        apply elem_of_app. by left.
      * right. by exists j, lj.
Qed.

Section Stored.

Context `{Platform}.
Context (w : world) (table : Z) (t : kvs_table_s) (cs : list (list Z)).
Context (Hwf : wf w table t cs).

(** The answers of the lookups once the entry [en] at [n] is linked: for
    its key they are its fields, for every other key they are as before. *)
Lemma answers_after_link k idx l n en w' t' :
  cs !! idx = Some l →
  wf w' table t' (<[idx := l ++ [n]]> cs) →
  entries w !! n = None → entries w' !! n = Some en →
  key en = k → marked_for_removal en = false →
  (∀ x e, x ≠ n → entries w !! x = Some e →
     ∃ e', entries w' !! x = Some e' ∧ e' = set_next e (next e')) →
  answers w' table k =
    (Some true, Some (size en), Some (null_terminated en),
     Some (ref_count en mod cardinal_modulus), Some (value en)) ∧
  ∀ j, j ≠ k → answers w' table j = answers w table j.
Proof.
  intros Hl Hwf' Hnone Hen Hk Hm Hframe. split.
  - rewrite (answers_found w' table t' _ k n en Hwf').
    + by rewrite Hm.
    + split; [|done]. apply (linked_after_link _ _ _ _ _ Hl). by left.
  - intros j Hj.
    destruct (find_entry_spec w table t cs Hwf j)
      as [(x & e & Hx & _)|[Hun _]].
    + rewrite (answers_found _ _ _ _ _ _ _ Hwf Hx).
      destruct Hx as (Hlx & He & Hkx).
      assert (x ≠ n) as Hne by (intros ->; congruence).
      destruct (Hframe x e Hne He) as (e' & He' & Heq).
      rewrite (answers_found w' table t' _ j x e' Hwf').
      * rewrite Heq. done.
      * split; [|split; [done|by rewrite Heq]].
        apply (linked_after_link _ _ _ _ _ Hl). by right.
    + rewrite (answers_unused _ _ _ _ _ Hwf Hun).
      apply (answers_unused w' table t' _ j Hwf').
      intros y ey' Hy Hey' Hkey.
      apply (linked_after_link _ _ _ _ _ Hl) in Hy as [->|Hy].
      * assert (ey' = en) as -> by congruence. congruence.
      * destruct (linked_allocated _ _ _ _ Hwf y Hy) as [_ [ey Hey]].
        assert (y ≠ n) as Hne by (intros ->; congruence).
        destruct (Hframe y ey Hne Hey) as (ey'' & Hey'' & Heq).
        assert (ey' = ey'') as -> by congruence.
        apply (Hun y ey Hy Hey). rewrite <- Hkey, Heq. done.
Qed.

End Stored.

(** X14: on a well-formed table, [kvs_store_reference] of a value that is
    not [NULL] with a size of [N] that is not zero, under a key that is
    not zero and has no entry, where the allocator grants the request:
    the call reports success, allocates no buffer and adds one to the
    entry count.  Afterwards the key exists, its size is [N], its flag the
    one passed, its count one, and a retrieval by reference returns the
    pointer stored; for every other key the lookups answer as before. *)
Theorem stored_reference_is_found `{Platform} w table t cs k v N nt :
  wf w table t cs → unused_key w cs k → k ≠ 0 → v ≠ NULL → N ≠ 0 →
  is_Some (granted w) →
  ∃ w1 t1 cs1,
    kvs_store_reference table k v N nt w = Some (tt, w1) ∧
    status w1 = Some KVS_STATUS_SUCCESS ∧
    wf w1 table t1 cs1 ∧
    octets w1 = octets w ∧
    entry_count t1 = (entry_count t + 1) mod cardinal_modulus ∧
    answers w1 table k
      = (Some true, Some N, Some nt, Some 1, Some v) ∧
    ∀ j, j ≠ k → answers w1 table j = answers w table j.
Proof.
  intros Hwf Hun Hk Hv HN [s Hg].
  pose proof (wf_handle _ _ _ _ Hwf) as Ht.
  destruct (wf_brk _ _ _ _ Hwf) as [Hb0 Hfresh].
  pose proof (brk_fresh _ _ _ _ Hwf) as Hnone.
  assert (brk w ≠ NULL) as Hnn by (unfold NULL; lia).
  assert (settled_size v N nt N) as Hs by (split; [done|by left]).
  rewrite (kvs_store_reference_settled _ _ _ _ _ _ _ Ht Hk Hv Hs).
  pose proof (new_entry_with_ref_granted k v N nt w s Hg Hnn) as Hnew.
  destruct (store_entry_linked _ _ _ _ Hwf _ _ _ _ _
              (new_entry_value k v N nt) Hun Hk Hnew)
    as (w' & t' & l & Hrun & Hl & Hwf' & Hst & Hoc & _ & _ & Hec & _ & _
        & Hnew' & Hframe); try done.
  { simpl. split; [lia|]. intros a e.
    destruct (decide (a = brk w)) as [->|Hne].
    - intros _. lia.
    - rewrite lookup_insert_ne by done. intros Ha.
      pose proof (Hfresh _ _ Ha). lia. }
  destruct (answers_after_link _ _ _ _ Hwf k _ l (brk w)
              (new_entry_value k v N nt) w' t' Hl Hwf' Hnone Hnew')
    as [Hk' Hothers]; try done.
  exists w', t', (<[Z.to_nat (k mod bucket_count t) := l ++ [brk w]]> cs).
  split; [exact Hrun|]. split; [done|].
  split; [exact Hwf'|]. split; [done|]. split; [done|].
  split; [|done]. rewrite Hk'. simpl.
  rewrite Z.mod_small by (pose proof cardinal_modulus_min; lia). done.
Qed.

Lemma stored_reference_is_found_witness :
  ∃ w1 t1 cs1,
    kvs_store_reference (H := lp64) 1000 3 200 2 false one_reference_world
      = Some (tt, w1) ∧
    status w1 = Some KVS_STATUS_SUCCESS ∧
    wf w1 1000 t1 cs1 ∧
    octets w1 = octets one_reference_world ∧
    entry_count t1 = (1 + 1) mod 2 ^ 32 ∧
    answers (H := lp64) w1 1000 3
      = (Some true, Some 2, Some false, Some 1, Some 200) ∧
    ∀ j, j ≠ 3 →
      answers (H := lp64) w1 1000 j
      = answers (H := lp64) one_reference_world 1000 j.
Proof.
  apply (stored_reference_is_found (H := lp64) one_reference_world 1000
           one_reference_table [[]; []; []; [1001]] 3 200 2 false).
  - apply wf_check_sound. vm_compute. reflexivity.
  - apply unused_key_check. vm_compute. reflexivity.
  - discriminate.
  - discriminate.
  - discriminate.
  - eexists. vm_compute. reflexivity.
Defined.

(** X15: on a well-formed table, [kvs_store_value] of [siz] octets (not
    zero) from a buffer that can be read up to its octet number [siz],
    under a key that is not zero and has no entry, where the allocator
    grants both requests and the storage for the copy has an octet to
    spare: the call reports success and links a new entry whose value is
    a new buffer; the octets [0] to [siz] of that buffer, one more than
    [siz], are those of the payload, and the payload is left as it was.
    Afterwards the key exists, its size is [siz], its flag the one passed
    and its count one; for every other key the lookups answer as
    before. *)
Theorem stored_value_is_a_copy `{Platform} w table t cs k val siz nt payload
    s1 s2 :
  wf w table t cs → unused_key w cs k → k ≠ 0 → val ≠ NULL →
  0 < siz → siz + 1 < cardinal_modulus →
  octets w !! val = Some payload → siz + 1 <= Z.of_nat (length payload) →
  val < brk w →
  granted w = Some s1 → granted (after_grant w) = Some s2 → (1 ≤ s2)%nat →
  ∃ w1 t1 cs1 stored,
    kvs_store_value table k val siz nt w = Some (tt, w1) ∧
    status w1 = Some KVS_STATUS_SUCCESS ∧
    wf w1 table t1 cs1 ∧
    entry_count t1 = (entry_count t + 1) mod cardinal_modulus ∧
    octets w1 = <[brk w + 1 := stored]> (octets w) ∧
    (∀ j, (j ≤ Z.to_nat siz)%nat → stored !! j = payload !! j) ∧
    octets w1 !! val = Some payload ∧
    answers w1 table k
      = (Some true, Some siz, Some nt, Some 1, Some (brk w + 1)) ∧
    ∀ j, j ≠ k → answers w1 table j = answers w table j.
Proof.
  intros Hwf Hun Hk Hv Hs Hsm Hsrc Hlen Hval Hg Hg2 Hslack.
  pose proof (wf_handle _ _ _ _ Hwf) as Ht.
  destruct (wf_brk _ _ _ _ Hwf) as [Hb0 Hfresh].
  pose proof (brk_fresh _ _ _ _ Hwf) as Hnone.
  assert (brk w ≠ NULL) as Hnn by (unfold NULL; lia).
  assert (settled_size val siz nt siz) as Hsettled.
  { split; [lia|]. left. split; [lia|done]. }
  rewrite (kvs_store_value_settled _ _ _ _ _ _ _ Ht Hk Hv Hsettled).
  destruct (new_entry_with_copy_granted k val siz nt w payload s1 s2)
    as (w0 & stored & Hnew & Htb & Hen & Hoc0 & Hbrk0 & Hcopy);
    try done; [lia|].
  destruct (store_entry_linked _ _ _ _ Hwf _ _ _ _ _
              (new_entry_value k (brk w + 1) siz nt) Hun Hk Hnew)
    as (w' & t' & l & Hrun & Hl & Hwf' & Hst & Hoc & _ & _ & Hec & _ & _
        & Hnew' & Hframe); try done.
  { rewrite Hbrk0. split; [lia|]. intros a e. rewrite Hen.
    destruct (decide (a = brk w)) as [->|Hne].
    - intros _. lia.
    - rewrite lookup_insert_ne by done. intros Ha.
      pose proof (Hfresh _ _ Ha). lia. }
  destruct (answers_after_link _ _ _ _ Hwf k _ l (brk w)
              (new_entry_value k (brk w + 1) siz nt) w' t' Hl Hwf' Hnone
              Hnew')
    as [Hk' Hothers]; try done.
  exists w', t', (<[Z.to_nat (k mod bucket_count t) := l ++ [brk w]]> cs),
    stored.
  split; [exact Hrun|]. split; [done|].
  split; [exact Hwf'|]. split; [done|].
  split; [by rewrite Hoc|]. split; [done|].
  split; [rewrite Hoc, Hoc0; rewrite lookup_insert_ne by lia; done|].
  split; [|done]. rewrite Hk'. simpl.
  rewrite Z.mod_small by (pose proof cardinal_modulus_min; lia). done.
Qed.

Lemma stored_value_is_a_copy_witness :
  ∃ w1 t1 cs1 stored,
    kvs_store_value (H := lp64) 1000 3 200 2 false one_reference_world
      = Some (tt, w1) ∧
    status w1 = Some KVS_STATUS_SUCCESS ∧
    wf w1 1000 t1 cs1 ∧
    entry_count t1 = (1 + 1) mod 2 ^ 32 ∧
    octets w1 = <[1003 := stored]> (octets one_reference_world) ∧
    (∀ j, (j ≤ Z.to_nat 2)%nat → stored !! j = [89; 111; 0] !! j) ∧
    octets w1 !! 200 = Some [89; 111; 0] ∧
    answers (H := lp64) w1 1000 3
      = (Some true, Some 2, Some false, Some 1, Some 1003) ∧
    ∀ j, j ≠ 3 →
      answers (H := lp64) w1 1000 j
      = answers (H := lp64) one_reference_world 1000 j.
Proof.
  apply (stored_value_is_a_copy (H := lp64) one_reference_world 1000
           one_reference_table [[]; []; []; [1001]] 3 200 2 false
           [89; 111; 0] 1%nat 1%nat).
  - apply wf_check_sound. vm_compute. reflexivity.
  - apply unused_key_check. vm_compute. reflexivity.
  - discriminate.
  - discriminate.
  - lia.
  - vm_compute. reflexivity.
  - vm_compute. reflexivity.
  - simpl. lia.
  - vm_compute. reflexivity.
  - vm_compute. reflexivity.
  - vm_compute. reflexivity.
  - lia.
Defined.

(** ** Disposal of an empty table *)

(** X16: [kvs_dispose_table] on a table whose entry count is zero frees
    the table base, reports success and touches nothing else. *)
Theorem dispose_of_an_empty_table `{Platform} w table t cs :
  wf w table t cs → entry_count t = 0 →
  kvs_dispose_table table w = Some (tt, disposed_world w table).
Proof.
  intros Hwf Hec. unfold kvs_dispose_table.
  rewrite (table_not_null _ _ _ _ Hwf).
  run (the_table_run _ _ _ (wf_table _ _ _ _ Hwf)).
  rewrite Hec. change (0 =? 0) with true. cbv beta iota delta [negb].
  unfold bind, ret, DEALLOCATE_table, _kvs_set_status.
  rewrite (table_not_null _ _ _ _ Hwf), (wf_table _ _ _ _ Hwf). done.
Qed.

Lemma dispose_of_an_empty_table_witness :
  kvs_dispose_table (H := lp64) 1000 new_table_world
  = Some (tt, disposed_world new_table_world 1000).
Proof.
  apply (dispose_of_an_empty_table (H := lp64) new_table_world 1000
           (Table 0 0 4 [0; 0; 0; 0]) [[]; []; []; []]).
  - apply wf_check_sound. vm_compute. reflexivity.
  - reflexivity.
Defined.

(** ** What the lookups leave alone *)

Section ReadOnly.

Context `{Platform}.
Context (w : world) (table : Z) (t : kvs_table_s) (cs : list (list Z)).
Context (Hwf : wf w table t cs).

Lemma cache_moved_found x s :
  linked cs x →
  cache_moved w table t cs (with_status (found_world w table t x) s).
Proof. intros Hx. right. by exists x. Qed.

Lemma read_only_retrieve_copy x g p w' :
  linked cs x →
  _kvs_retrieve_copy x g (found_world w table t x) = Some (p, w') →
  entries w' = entries w ∧ cache_moved w table t cs w'.
Proof.
  intros Hx Hcopy.
  apply retrieve_copy_frame in Hcopy as (Htb & Hent & _).
  split; [done|]. right. exists x. by rewrite Htb.
Qed.

End ReadOnly.

(** X17: on a well-formed table the lookups and the retrievals by copy
    are read-only for the table: [kvs_entry_exists], [kvs_size_for_key],
    [kvs_data_for_key_is_null_terminated], [kvs_reference_count_for_key],
    [kvs_value_for_key] and [kvs_get_entry] in copy mode leave every entry
    as it is, reference counts included, and change the table base at
    most in the lookup cache, which then holds a linked entry. *)
Theorem lookups_change_only_the_cache `{Platform} w table t cs k :
  wf w table t cs →
  (∀ b w', kvs_entry_exists table k w = Some (b, w') →
     entries w' = entries w ∧ octets w' = octets w ∧
     cache_moved w table t cs w') ∧
  (∀ r w', kvs_size_for_key table k w = Some (r, w') →
     entries w' = entries w ∧ octets w' = octets w ∧
     cache_moved w table t cs w') ∧
  (∀ r w', kvs_data_for_key_is_null_terminated table k w = Some (r, w') →
     entries w' = entries w ∧ octets w' = octets w ∧
     cache_moved w table t cs w') ∧
  (∀ r w', kvs_reference_count_for_key table k w = Some (r, w') →
     entries w' = entries w ∧ octets w' = octets w ∧
     cache_moved w table t cs w') ∧
  (∀ g r w', kvs_value_for_key table k g w = Some (r, w') →
     entries w' = entries w ∧ cache_moved w table t cs w') ∧
  (∀ g r w', kvs_get_entry table true k g w = Some (r, w') →
     entries w' = entries w ∧ cache_moved w table t cs w').
Proof.
  intros Hwf.
  destruct (find_entry_spec w table t cs Hwf k)
    as [(x & e & Hx & _)|[Hun _]].
  - pose proof Hx as (Hl & _).
    split.
    { intros b w'. rewrite (kvs_entry_exists_found _ _ _ _ Hwf _ _ _ Hx).
      destruct (marked_for_removal e); intros [= <- <-];
        (split; [done|]); (split; [done|]); right; by exists x. }
    split.
    { intros r w'. rewrite (kvs_size_for_key_found _ _ _ _ Hwf _ _ _ Hx).
      intros [= <- <-]. split; [done|]. split; [done|]. right. by exists x. }
    split.
    { intros r w'.
      rewrite (kvs_data_for_key_is_null_terminated_found _ _ _ _ Hwf _ _ _
                 Hx).
      intros [= <- <-]. split; [done|]. split; [done|]. right. by exists x. }
    split.
    { intros r w'.
      rewrite (kvs_reference_count_for_key_found _ _ _ _ Hwf _ _ _ Hx).
      intros [= <- <-]. split; [done|]. split; [done|]. right. by exists x. }
    destruct (marked_for_removal e) eqn:Hm.
    + split.
      * intros g r w'.
        rewrite (kvs_value_for_key_pending _ _ _ _ Hwf _ _ _ _ Hx Hm).
        intros [= <- <-]. split; [done|]. right. by exists x.
      * intros g r w'.
        rewrite (kvs_get_entry_pending _ _ _ _ Hwf _ _ _ _ _ Hx Hm).
        intros [= <- <-]. split; [done|]. right. by exists x.
    + split.
      * intros g r w'.
        rewrite (kvs_value_for_key_found _ _ _ _ Hwf _ _ _ _ Hx Hm).
        destruct (size e =? 0).
        -- intros [= <- <-]. split; [done|]. right. by exists x.
        -- by apply read_only_retrieve_copy.
      * intros g r w'.
        rewrite (kvs_get_entry_copy_found _ _ _ _ Hwf _ _ _ _ Hx Hm).
        destruct (size e =? 0).
        -- intros [= <- <-]. split; [done|]. right. by exists x.
        -- unfold bind.
           destruct (_kvs_retrieve_copy x g _) as [[p w1]|] eqn:Hcopy;
             [|done].
           intros [= <- <-]. by eapply read_only_retrieve_copy.
  - split.
    { intros b w'. rewrite (kvs_entry_exists_unused _ _ _ _ Hwf _ Hun).
      intros [= <- <-]. split; [done|]. split; [done|]. by left. }
    split.
    { intros r w'. rewrite (kvs_size_for_key_unused _ _ _ _ Hwf _ Hun).
      intros [= <- <-]. split; [done|]. split; [done|]. by left. }
    split.
    { intros r w'.
      rewrite (kvs_data_for_key_is_null_terminated_unused _ _ _ _ Hwf _ Hun).
      intros [= <- <-]. split; [done|]. split; [done|]. by left. }
    split.
    { intros r w'.
      rewrite (kvs_reference_count_for_key_unused _ _ _ _ Hwf _ Hun).
      intros [= <- <-]. split; [done|]. split; [done|]. by left. }
    split.
    + intros g r w'. rewrite (kvs_value_for_key_unused _ _ _ _ Hwf _ _ Hun).
      intros [= <- <-]. split; [done|]. by left.
    + intros g r w'. rewrite (kvs_get_entry_unused _ _ _ _ Hwf _ _ _ Hun).
      intros [= <- <-]. split; [done|]. by left.
Qed.

Lemma lookups_change_only_the_cache_witness :
  (∀ b w', kvs_entry_exists 1000 7 one_reference_world = Some (b, w') →
     entries w' = entries one_reference_world ∧
     octets w' = octets one_reference_world ∧
     cache_moved one_reference_world 1000 one_reference_table
       [[]; []; []; [1001]] w') ∧
  (∀ r w', kvs_size_for_key 1000 7 one_reference_world = Some (r, w') →
     entries w' = entries one_reference_world ∧
     octets w' = octets one_reference_world ∧
     cache_moved one_reference_world 1000 one_reference_table
       [[]; []; []; [1001]] w') ∧
  (∀ r w',
     kvs_data_for_key_is_null_terminated 1000 7 one_reference_world
       = Some (r, w') →
     entries w' = entries one_reference_world ∧
     octets w' = octets one_reference_world ∧
     cache_moved one_reference_world 1000 one_reference_table
       [[]; []; []; [1001]] w') ∧
  (∀ r w',
     kvs_reference_count_for_key (H := lp64) 1000 7 one_reference_world
       = Some (r, w') →
     entries w' = entries one_reference_world ∧
     octets w' = octets one_reference_world ∧
     cache_moved one_reference_world 1000 one_reference_table
       [[]; []; []; [1001]] w') ∧
  (∀ g r w',
     kvs_value_for_key (H := lp64) 1000 7 g one_reference_world
       = Some (r, w') →
     entries w' = entries one_reference_world ∧
     cache_moved one_reference_world 1000 one_reference_table
       [[]; []; []; [1001]] w') ∧
  (∀ g r w',
     kvs_get_entry (H := lp64) 1000 true 7 g one_reference_world
       = Some (r, w') →
     entries w' = entries one_reference_world ∧
     cache_moved one_reference_world 1000 one_reference_table
       [[]; []; []; [1001]] w').
Proof.
  apply (lookups_change_only_the_cache (H := lp64) one_reference_world 1000
           one_reference_table [[]; []; []; [1001]] 7).
  apply wf_check_sound. vm_compute. reflexivity.
Defined.

(** ** Release without removal *)

(** X18: [kvs_release_entry] alone never takes an entry away.  On an
    entry that is not marked for removal it takes one off a count above
    one and leaves any other count as it is; the entry stays linked with
    its data, the table stays well formed, the buffers are untouched and
    the call reports success. *)
Theorem release_keeps_an_unmarked_entry `{Platform} w table t cs k x e :
  wf w table t cs → entry_of w cs k x e → marked_for_removal e = false →
  ∃ w',
    kvs_release_entry table k w = Some (tt, w') ∧
    status w' = Some KVS_STATUS_SUCCESS ∧
    wf w' table (set_last_retrieved_entry t x) cs ∧
    entries w' =
      (if 1 <? ref_count e
       then <[x := set_ref_count e ((ref_count e - 1) mod word_modulus)]>
              (entries w)
       else entries w) ∧
    octets w' = octets w.
Proof.
  intros Hwf Hx Hm.
  rewrite (kvs_release_entry_found _ _ _ _ Hwf _ _ _ Hx).
  rewrite Hm, andb_false_r.
  destruct (1 <? ref_count e).
  - eexists. split; [done|]. split; [done|].
    split; [by eapply released_world_wf|done].
  - eexists. split; [done|]. split; [done|].
    split; [|done]. apply found_world_wf; [done|]. by destruct Hx.
Qed.

Lemma release_keeps_an_unmarked_entry_witness :
  ∃ w',
    kvs_release_entry (H := lp64) 1000 7 three_references_world
      = Some (tt, w') ∧
    status w' = Some KVS_STATUS_SUCCESS ∧
    wf w' 1000
      (set_last_retrieved_entry (Table 1001 1 4 [0; 0; 0; 1001]) 1001)
      [[]; []; []; [1001]] ∧
    entries w' =
      <[1001 := Entry 7 100 2 0 2 false false]>
        (entries three_references_world) ∧
    octets w' = octets three_references_world.
Proof.
  apply (release_keeps_an_unmarked_entry (H := lp64) three_references_world
           1000 (Table 1001 1 4 [0; 0; 0; 1001]) [[]; []; []; [1001]] 7 1001
           (Entry 7 100 2 0 3 false false)).
  - apply wf_check_sound. vm_compute. reflexivity.
  - apply entry_of_check. vm_compute. reflexivity.
  - reflexivity.
Defined.

(** ** Release of an entry pending removal *)

(** X19: [kvs_release_entry] on an entry that is marked for removal, with
    a count above one and a value that is an allocated buffer: a count
    other than two goes down by one and the entry stays linked and
    marked; a count of two makes the call finish the removal: the entry is
    taken out of its chain, its buffer and the entry are freed, one is
    taken off the entry count, success is reported and the key has no
    entry any more. *)
Theorem release_of_a_marked_entry `{Platform} w table t cs k x e :
  wf w table t cs → entry_of w cs k x e → marked_for_removal e = true →
  1 < ref_count e < word_modulus →
  value e ≠ NULL → is_Some (octets w !! value e) →
  (ref_count e ≠ 2 →
   ∃ w',
     kvs_release_entry table k w = Some (tt, w') ∧
     wf w' table (set_last_retrieved_entry t x) cs ∧
     entries w' = <[x := set_ref_count e (ref_count e - 1)]> (entries w) ∧
     octets w' = octets w) ∧
  (ref_count e = 2 →
   ∃ w' t' cs',
     kvs_release_entry table k w = Some (tt, w') ∧
     status w' = Some KVS_STATUS_SUCCESS ∧
     wf w' table t' cs' ∧
     entries w' !! x = None ∧
     octets w' = delete (value e) (octets w) ∧
     entry_count t' = (entry_count t - 1) mod cardinal_modulus ∧
     (∀ y, linked cs' y ↔ y ≠ x ∧ linked cs y) ∧
     unused_key w' cs' k).
Proof.
  intros Hwf Hx Hm Hrc Hv Hoc.
  pose proof (kvs_release_entry_found _ _ _ _ Hwf _ _ _ Hx) as Hrun.
  rewrite (proj2 (Z.ltb_lt 1 (ref_count e))) in Hrun by lia.
  rewrite (Z.mod_small (ref_count e - 1)) in Hrun by lia.
  rewrite Hm, andb_true_r in Hrun.
  pose proof (released_world_wf _ _ _ _ Hwf _ _ _ Hx) as Hwf1.
  split.
  - intros Hne. rewrite (proj2 (Z.eqb_neq (ref_count e - 1) 1)) in Hrun
      by lia.
    eexists. split; [exact Hrun|]. split; [exact Hwf1|].
    unfold released_world. cbn [entries octets].
    rewrite (Z.mod_small (ref_count e - 1)) by lia. done.
  - intros Htwo. rewrite Htwo in Hrun. change (2 - 1 =? 1) with true in Hrun.
    cbv iota in Hrun.
    set (e1 := set_ref_count e ((ref_count e - 1) mod word_modulus)).
    assert (entry_of (released_world w table t x e) cs k x e1) as Hx1.
    { destruct Hx as (Hl & He & Hk). split; [done|]. split; [|done].
      unfold released_world. cbn [entries]. apply lookup_insert_eq. }
    assert (ref_count e1 <= 1) as Hle.
    { unfold e1. cbn [ref_count set_ref_count]. rewrite Htwo.
      rewrite Z.mod_small by lia. lia. }
    destruct (kvs_remove_entry_frees _ _ _ _ Hwf1 k x e1 Hx1 Hle
                (or_intror Hoc))
      as (w' & t' & l1 & l2 & Hrun' & Hl & Hwf' & Hgone & Hec & _ & Hframe
          & _ & _ & Hoc').
    pose proof (kvs_remove_entry_status _ _ _ _ Hwf1 _ _ _ _ Hx1 Hle Hrun')
      as Hst.
    change (value e1) with (value e) in Hst, Hoc'.
    rewrite (proj2 (Z.eqb_neq _ _) Hv) in Hst, Hoc'.
    exists w', t', (<[Z.to_nat (k mod bucket_count t) := l1 ++ l2]> cs).
    split; [by rewrite <- Hrun'|]. split; [done|]. split; [done|].
    split; [done|]. split; [done|]. split; [done|].
    split; [intros y; by apply (linked_unlink _ _ _ _ _ _ _ _ _ Hwf1 Hl)|].
    by apply (unlinked_key_is_unused _ _ _ _ Hwf1 _ _ _ _ _ _ Hx1 Hl Hframe).
Qed.

Lemma last_reference_world_run :
  kvs_release_entry (H := lp64) 1000 7 pending_removal_world
  = Some (tt, last_reference_world).
Proof. vm_compute. reflexivity. Qed.

Lemma release_of_a_marked_entry_witness :
  (∃ w',
     kvs_release_entry (H := lp64) 1000 7 pending_removal_world
       = Some (tt, w') ∧
     wf w' 1000
       (set_last_retrieved_entry (Table 1001 1 4 [0; 0; 0; 1001]) 1001)
       [[]; []; []; [1001]] ∧
     entries w' = <[1001 := Entry 7 100 2 0 2 false true]>
                    (entries pending_removal_world) ∧
     octets w' = octets pending_removal_world) ∧
  (∃ w' t' cs',
     kvs_release_entry (H := lp64) 1000 7 last_reference_world
       = Some (tt, w') ∧
     status w' = Some KVS_STATUS_SUCCESS ∧
     wf w' 1000 t' cs' ∧
     entries w' !! 1001 = None ∧
     octets w' = delete 100 (octets last_reference_world) ∧
     entry_count t' = (1 - 1) mod 2 ^ 32 ∧
     (∀ y, linked cs' y ↔ y ≠ 1001 ∧ linked [[]; []; []; [1001]] y) ∧
     unused_key w' cs' 7).
Proof.
  destruct (release_of_a_marked_entry (H := lp64) pending_removal_world 1000
              (Table 1001 1 4 [0; 0; 0; 1001]) [[]; []; []; [1001]] 7 1001
              (Entry 7 100 2 0 3 false true)) as [Hdown _].
  { apply wf_check_sound. vm_compute. reflexivity. }
  { apply entry_of_check. vm_compute. reflexivity. }
  { reflexivity. }
  { vm_compute. split; reflexivity. }
  { discriminate. }
  { eexists. vm_compute. reflexivity. }
  destruct (release_of_a_marked_entry (H := lp64) last_reference_world 1000
              (Table 1001 1 4 [0; 0; 0; 1001]) [[]; []; []; [1001]] 7 1001
              (Entry 7 100 2 0 2 false true)) as [_ Hlast].
  { apply wf_check_sound. vm_compute. reflexivity. }
  { apply entry_of_check. vm_compute. reflexivity. }
  { reflexivity. }
  { vm_compute. split; reflexivity. }
  { discriminate. }
  { eexists. vm_compute. reflexivity. }
  split.
  - apply Hdown. discriminate.
  - apply Hlast. reflexivity.
Defined.
